(** * MultiversoWrapper: asynchronous parameter synchronisation (ModelSync)

    A shallow embedding of [Source/Common/Include/MultiversoWrapper.h]:
    the layout planner of [Init], the coefficient policy
    [getUpdateCoefficient], the constructor's configuration check, and the
    buffer traffic of [ModelInit], [ModelSync], [ModelLoadServer] and
    [ModelLoadBack].

    Conventions.
    - [size_t] is a 64-bit unsigned integer and [int] a 32-bit signed one;
      both are carried as [Z] with their wrap-around written out.
    - [float] and [double] are IEEE-754 binary32 and binary64, computed by
      the Standard Library's executable specification [SpecFloat].
    - [ElemType] is the template parameter of the class; the only arithmetic
      the wrapper applies to elements is [std::minus<ElemType>].
    - The device build is modelled (the branches under [#ifndef CPUONLY]),
      the one in which [_pDelta] and the temporary buffers are allocated.
    - The thread of a round with pipeline is applied when it is started.
      Of what it reads, the caller writes only [_commCnt] before joining
      it: [ModelSync_at] takes the moment of that read as an argument,
      and [ModelSync] is the round whose thread reads at once.
    - Allocations succeed and [CudaErrorCheck] never exits. *)

From Stdlib Require Import ZArith Bool Lia String SpecFloat.
From stdpp Require Import list.

Local Open Scope Z_scope.

(** ** Machine integers *)

Definition size_t_modulus : Z := 2 ^ 64.
Definition int_modulus : Z := 2 ^ 32.
Definition INT_MAX : Z := 2 ^ 31 - 1.

(** Conversion to [size_t]: reduction modulo 2^64. *)
Definition to_size_t (z : Z) : Z := z mod size_t_modulus.

(** Conversion to [int]: reduction modulo 2^32 into [-2^31, 2^31). *)
Definition to_int (z : Z) : Z :=
  (z + 2 ^ 31) mod int_modulus - 2 ^ 31.

(** ** IEEE-754 arithmetic of [float] and [double] *)

Module IEEE.

Definition float := spec_float.
Definition double := spec_float.

Definition fprec : Z := 24.
Definition femax : Z := 128.
Definition dprec : Z := 53.
Definition demax : Z := 1024.

(** Integer to floating point, rounding to nearest even. *)
Definition float_of_Z (z : Z) : float := binary_normalize fprec femax z 0 false.
Definition double_of_Z (z : Z) : double := binary_normalize dprec demax z 0 false.

(** The cast [(float) x] of a [double]. *)
Definition float_of_double (x : double) : float :=
  match x with
  | S754_finite s m e => binary_round fprec femax s m e
  | _ => x
  end.

(** The promotion of a [float] to [double], which is exact. *)
Definition double_of_float (x : float) : double :=
  match x with
  | S754_finite s m e => binary_round dprec demax s m e
  | _ => x
  end.

Definition fdiv : float -> float -> float := SFdiv fprec femax.
Definition fsub : float -> float -> float := SFsub fprec femax.

Definition dadd : double -> double -> double := SFadd dprec demax.
Definition dsub : double -> double -> double := SFsub dprec demax.
Definition dmul : double -> double -> double := SFmul dprec demax.
Definition ddiv : double -> double -> double := SFdiv dprec demax.

(** [a < b], [a <= b], [a != b]; every comparison with a NaN is false,
    except [!=], which is true. *)
Definition lt (a b : spec_float) : bool := SFltb a b.
Definition le (a b : spec_float) : bool := SFleb a b.
Definition ne (a b : spec_float) : bool := negb (SFeqb a b).

(** [std::max(a, b)] is [(a < b) ? b : a]; [std::min(a, b)] is
    [(b < a) ? b : a]. *)
Definition max (a b : spec_float) : spec_float := if lt a b then b else a.
Definition min (a b : spec_float) : spec_float := if lt b a then b else a.

Definition fzero : float := S754_zero false.
Definition fone : float := float_of_Z 1.
Definition dzero : double := S754_zero false.
Definition d_one : double := double_of_Z 1.

(** The decimal literal [n/d] as the nearest [double]. *)
Definition double_lit (n d : Z) : double := ddiv (double_of_Z n) (double_of_Z d).

(** A value of the format: canonical mantissa, exponent in range. *)
Definition is_double (x : double) : bool := valid_binary dprec demax x.
Definition is_float (x : float) : bool := valid_binary fprec femax x.

Definition is_nan (x : spec_float) : bool :=
  match x with S754_nan => true | _ => false end.

End IEEE.

(** ** The element type

    [template<class ElemType = float> class MultiversoWrapper]: the wrapper
    subtracts elements with [std::minus<ElemType>] and otherwise only moves
    them.  [indeterminate] stands for the content of storage that has been
    allocated and not yet written. *)

Class Element (ElemType : Type) := {
  minus : ElemType -> ElemType -> ElemType;
  indeterminate : ElemType;
  is_single : bool  (* sizeof(ElemType) == 4 *)
}.

#[export] Instance float_Element : Element IEEE.float := {
  minus := IEEE.fsub;
  indeterminate := S754_nan;
  is_single := true
}.

(** ** The ramp policy *)

Module AdjustLearningRateatBeginning.
Inductive t : Set := None | Linearly | Staircase.
End AdjustLearningRateatBeginning.

(** [getUpdateCoefficient], as a function of the four members it reads.
    The expressions are evaluated in [double] ([size_t] operands are
    converted), cast to [float], and clamped with [min]/[max].  In the
    [Staircase] case [_commCnt / _adjustnbmb + 1] is [size_t] arithmetic;
    the source divides by zero there when [_adjustnbmb] is 0, which is
    undefined, and the model then has Rocq's [x / 0 = 0]. *)
Definition updateCoefficient
    (adjusttype : AdjustLearningRateatBeginning.t)
    (adjustcoefficient : IEEE.double) (adjustnbmb commCnt : Z) : IEEE.float :=
  let f := IEEE.fone in
  match adjusttype with
  | AdjustLearningRateatBeginning.None => f
  | AdjustLearningRateatBeginning.Linearly =>
      IEEE.min f (IEEE.max IEEE.fzero
        (IEEE.float_of_double
           (IEEE.dadd adjustcoefficient
              (IEEE.dmul
                 (IEEE.ddiv (IEEE.dsub IEEE.d_one adjustcoefficient)
                            (IEEE.double_of_Z adjustnbmb))
                 (IEEE.double_of_Z commCnt)))))
  | AdjustLearningRateatBeginning.Staircase =>
      IEEE.min f (IEEE.max IEEE.fzero
        (IEEE.float_of_double
           (IEEE.dmul adjustcoefficient
              (IEEE.double_of_Z (to_size_t (commCnt / adjustnbmb + 1))))))
  end.

(** ** Flat buffers

    [memcpy dst doff src soff n] copies [n] elements of [src], from position
    [soff], over [dst] from position [doff].  It is the source's copy when
    both ranges lie inside their arrays; a copy that leaves them is
    undefined in the source and is never relied upon below. *)

Section Buffers.
Context {A : Type}.

Definition memcpy (dst : list A) (doff : nat) (src : list A) (soff n : nat)
    : list A :=
  take doff dst ++ take n (drop soff src) ++ drop (doff + n) dst.

(** [std::transform(a, a + n, b, out, op)] with [out] one of the two
    inputs: the first [n] elements of [out] become [op a_j b_j]. *)
Definition transform (a : list A) (n : nat) (b : list A) (out : list A)
    (op : A -> A -> A) : list A :=
  zip_with op (take n a) (take n b) ++ drop n out.

(** Reading a [vector<size_t>] or a [size_t] array at an index.  Outside
    the array the source is undefined; the model reads 0. *)
Definition at_index (v : list Z) (i : nat) : Z := default 0 (v !! i).

(** [_pPCache[j]] and [_pPMatrixCache[j][i]]. *)
Definition slot (cache : list (list A)) (j : nat) : list A :=
  default [] (cache !! j).

Definition matrix_at (cache : list (list (list A))) (j i : nat) : list A :=
  default [] (default [] (cache !! j) !! i).

Definition set_matrix (cache : list (list (list A))) (j i : nat)
    (m : list A) : list (list (list A)) :=
  alter (fun row => <[i := m]> row) j cache.
End Buffers.

(** ** The Model Bridge

    Modelled from the spec: [Matrix<ElemType>] is not under src/.  A tensor
    is the flat sequence of its values; [GetNumElements] is its length,
    [CopyToArray] writes all of them to the array it is given and
    [SetValue] reads as many back. *)

Abbreviation Matrix ElemType := (list ElemType) (only parsing).

Definition GetNumElements {ElemType} (mat : Matrix ElemType) : Z :=
  Z.of_nat (length mat).

(** [px = buf + off; mat.CopyToArray(px, len)] *)
Definition CopyToArray {ElemType} (mat : Matrix ElemType) (buf : list ElemType)
    (off : Z) : list ElemType :=
  memcpy buf (Z.to_nat off) mat 0 (length mat).

(** [px = buf + off; mat.SetValue(rows, cols, device, px)] *)
Definition SetValue {ElemType} (mat : Matrix ElemType) (buf : list ElemType)
    (off : Z) : Matrix ElemType :=
  memcpy mat 0 buf (Z.to_nat off) (length mat).

(** ** The Parameter Table Client

    Modelled from the spec: [multiverso::Adaptor] is not under src/.  The
    client is an opaque service; the model keeps the calls made to it, in
    order, and answers [BatchLoad] from [row_data], a function of the calls
    made so far, the row and the position in the row, which stands for
    whatever the store (and the other workers) hold at that moment.  [Add]
    is recorded with the array its pointer argument designates, from the
    pointer to the end of the allocation, and leaves the array unchanged. *)

Inductive Call (ElemType : Type) : Type :=
| SetTable (table_id rows cols : Z) (kind : string)
| Add (table_id row : Z) (src : list ElemType) (factor : IEEE.float)
| Barrier
| BatchLoad (table_id : Z) (idx size : list Z).

Arguments SetTable {ElemType} table_id rows cols kind.
Arguments Add {ElemType} table_id row src factor.
Arguments Barrier {ElemType}.
Arguments BatchLoad {ElemType} table_id idx size.

Record Adaptor (ElemType : Type) : Type := mkAdaptor {
  calls : list (Call ElemType);
  row_data : list (Call ElemType) -> Z -> nat -> ElemType
}.

Arguments mkAdaptor {ElemType} calls row_data.
Arguments calls {ElemType} a.
Arguments row_data {ElemType} a _ _ _.

Section Client.
Context {ElemType : Type}.

Definition record_call (a : Adaptor ElemType) (c : Call ElemType)
    : Adaptor ElemType :=
  mkAdaptor (calls a ++ [c]) (row_data a).

(** [for (row = 0; row < n; row++) _adaptor->Add(table_id, row, buf + idx[row], factor)] *)
Definition add_rows (table_id : Z) (n : nat) (buf : list ElemType)
    (idx : list Z) (factor : IEEE.float) : list (Call ElemType) :=
  map (fun row => Add table_id (Z.of_nat row)
                      (drop (Z.to_nat (at_index idx row)) buf) factor)
      (seq 0 n).

Definition Add_each_row (a : Adaptor ElemType) (table_id : Z) (n : nat)
    (buf : list ElemType) (idx : list Z) (factor : IEEE.float)
    : Adaptor ElemType :=
  mkAdaptor (calls a ++ add_rows table_id n buf idx factor) (row_data a).

(** What the store returns for one row: [size] elements. *)
Definition row_values (a : Adaptor ElemType) (row : nat) (size : Z)
    : list ElemType :=
  map (row_data a (calls a) (Z.of_nat row)) (seq 0 (Z.to_nat size)).

Fixpoint load_rows (a : Adaptor ElemType) (row : nat) (parts : list (Z * Z))
    (buf : list ElemType) : list ElemType :=
  match parts with
  | [] => buf
  | (idx, size) :: rest =>
      load_rows a (S row) rest
        (memcpy buf (Z.to_nat idx) (row_values a row size) 0 (Z.to_nat size))
  end.

(** [_adaptor->BatchLoad(table_id, buf, idx, size)]: every row is written
    at its offset; the rest of [buf] is left as it was. *)
Definition BatchLoad_into (a : Adaptor ElemType) (table_id : Z)
    (buf : list ElemType) (idx size : list Z)
    : Adaptor ElemType * list ElemType :=
  (record_call a (BatchLoad table_id idx size),
   load_rows a 0 (zip idx size) buf).
End Client.

(** ** The wrapper's members *)

(** The [std::thread] that [_pThread] points to: default-constructed or
    already joined (not joinable), or started on a transfer that works on
    cache slot [t_cacheIdx]. *)
Inductive Thread : Set :=
| not_joinable
| started (t_cacheIdx : Z).

Definition joinable (t : Thread) : bool :=
  match t with started _ => true | not_joinable => false end.

Record MultiversoWrapper (ElemType : Type) : Type := mkWrapper {
  _adaptor : Adaptor ElemType;
  _pThread : Thread;
  (** Threads whose object was replaced in [_pThread] while still
      joinable: nothing can wait for them any more. *)
  _unjoined : list Thread;
  _isInitialized : bool;
  _nClients : Z;
  _isPipeline : bool;
  _nLocalCache : Z;
  _pCacheState : list Z;
  _nCacheIdx : Z;
  _momentumAdd : IEEE.double;
  _elasticAdd : IEEE.double;
  _commCnt : Z;
  _adjustlearningrateatbeginningtype : AdjustLearningRateatBeginning.t;
  _adjustcoefficient : IEEE.double;
  _adjustnbmb : Z;
  _vTableLength : list Z;
  _lTotalLength : Z;
  _vTableIdx : list Z;
  _pDelta : list ElemType;
  _pPCache : list (list ElemType);
  _pTempForServer : list ElemType;
  _pTempForLocal : list ElemType;
  _pSizeEachServer : list Z;
  _pIdxEachServer : list Z;
  _pPMatrixCache : list (list (Matrix ElemType));
  _nTableCnt : Z
}.

Arguments mkWrapper {ElemType}.
Arguments _adaptor {ElemType} m.
Arguments _pThread {ElemType} m.
Arguments _unjoined {ElemType} m.
Arguments _isInitialized {ElemType} m.
Arguments _nClients {ElemType} m.
Arguments _isPipeline {ElemType} m.
Arguments _nLocalCache {ElemType} m.
Arguments _pCacheState {ElemType} m.
Arguments _nCacheIdx {ElemType} m.
Arguments _momentumAdd {ElemType} m.
Arguments _elasticAdd {ElemType} m.
Arguments _commCnt {ElemType} m.
Arguments _adjustlearningrateatbeginningtype {ElemType} m.
Arguments _adjustcoefficient {ElemType} m.
Arguments _adjustnbmb {ElemType} m.
Arguments _vTableLength {ElemType} m.
Arguments _lTotalLength {ElemType} m.
Arguments _vTableIdx {ElemType} m.
Arguments _pDelta {ElemType} m.
Arguments _pPCache {ElemType} m.
Arguments _pTempForServer {ElemType} m.
Arguments _pTempForLocal {ElemType} m.
Arguments _pSizeEachServer {ElemType} m.
Arguments _pIdxEachServer {ElemType} m.
Arguments _pPMatrixCache {ElemType} m.
Arguments _nTableCnt {ElemType} m.

(** What a call either returns or throws. *)
Inductive Exceptional (A : Type) : Type :=
| Returned (a : A)
| InvalidArgument (what : string).

Arguments Returned {A} a.
Arguments InvalidArgument {A} what.

(** The text the constructor throws, which ends in a line feed. *)
Definition Please_choose : string :=
  String.append "Please choose Elastic Add or Momentum Add."
                (String (Ascii.ascii_of_nat 10) EmptyString).

(** ** The layout planner of [Init] *)

(** [accumulate(first, last, 0)]: the accumulator has the type of the
    initial value, [int]; each step adds in [size_t] and converts back. *)
Definition accumulate (v : list Z) (init : Z) : Z :=
  fold_left (fun acc x => to_int (to_size_t (to_size_t acc + x))) v init.

(** One iteration of [for (int i = 0; i < _nClients; i++)]. *)
Definition partition_size (lTotalLength nClients i : Z) : Z :=
  if to_size_t i <? lTotalLength mod to_size_t nClients
  then to_size_t (lTotalLength / to_size_t nClients + 1)
  else lTotalLength / to_size_t nClients.

(** The loop, from iteration [i] with [n] iterations left: the pairs
    [(_pIdxEachServer[i], _pSizeEachServer[i])]. *)
Fixpoint partition_loop (n : nat) (i idx lTotalLength nClients : Z)
    : list (Z * Z) :=
  match n with
  | O => []
  | S n' =>
      let size := partition_size lTotalLength nClients i in
      (idx, size)
        :: partition_loop n' (i + 1) (to_size_t (idx + size)) lTotalLength nClients
  end.

Definition PartitionMap (lTotalLength nClients : Z) : list (Z * Z) :=
  partition_loop (Z.to_nat nClients) 0 0 lTotalLength nClients.

(** [for (size_t len : _vTableLength) { _vTableIdx.push_back(idx); idx += len; }] *)
Fixpoint table_offsets (lens : list Z) (idx : Z) : list Z :=
  match lens with
  | [] => []
  | len :: rest => idx :: table_offsets rest (to_size_t (idx + len))
  end.

(** Assignment to one member. *)

Section Assign.
Context {ElemType : Type}.
Implicit Type w : MultiversoWrapper ElemType.

Definition set_adaptor w (v : Adaptor ElemType) : MultiversoWrapper ElemType :=
  mkWrapper v (_pThread w) (_unjoined w) (_isInitialized w) (_nClients w)
    (_isPipeline w) (_nLocalCache w) (_pCacheState w) (_nCacheIdx w)
    (_momentumAdd w) (_elasticAdd w) (_commCnt w)
    (_adjustlearningrateatbeginningtype w) (_adjustcoefficient w)
    (_adjustnbmb w) (_vTableLength w) (_lTotalLength w) (_vTableIdx w)
    (_pDelta w) (_pPCache w) (_pTempForServer w) (_pTempForLocal w)
    (_pSizeEachServer w) (_pIdxEachServer w) (_pPMatrixCache w)
    (_nTableCnt w).

Definition set_pThread w (v : Thread) : MultiversoWrapper ElemType :=
  mkWrapper (_adaptor w) v (_unjoined w) (_isInitialized w) (_nClients w)
    (_isPipeline w) (_nLocalCache w) (_pCacheState w) (_nCacheIdx w)
    (_momentumAdd w) (_elasticAdd w) (_commCnt w)
    (_adjustlearningrateatbeginningtype w) (_adjustcoefficient w)
    (_adjustnbmb w) (_vTableLength w) (_lTotalLength w) (_vTableIdx w)
    (_pDelta w) (_pPCache w) (_pTempForServer w) (_pTempForLocal w)
    (_pSizeEachServer w) (_pIdxEachServer w) (_pPMatrixCache w)
    (_nTableCnt w).

Definition set_unjoined w (v : list Thread) : MultiversoWrapper ElemType :=
  mkWrapper (_adaptor w) (_pThread w) v (_isInitialized w) (_nClients w)
    (_isPipeline w) (_nLocalCache w) (_pCacheState w) (_nCacheIdx w)
    (_momentumAdd w) (_elasticAdd w) (_commCnt w)
    (_adjustlearningrateatbeginningtype w) (_adjustcoefficient w)
    (_adjustnbmb w) (_vTableLength w) (_lTotalLength w) (_vTableIdx w)
    (_pDelta w) (_pPCache w) (_pTempForServer w) (_pTempForLocal w)
    (_pSizeEachServer w) (_pIdxEachServer w) (_pPMatrixCache w)
    (_nTableCnt w).

Definition set_nCacheIdx w (v : Z) : MultiversoWrapper ElemType :=
  mkWrapper (_adaptor w) (_pThread w) (_unjoined w) (_isInitialized w)
    (_nClients w) (_isPipeline w) (_nLocalCache w) (_pCacheState w) v
    (_momentumAdd w) (_elasticAdd w) (_commCnt w)
    (_adjustlearningrateatbeginningtype w) (_adjustcoefficient w)
    (_adjustnbmb w) (_vTableLength w) (_lTotalLength w) (_vTableIdx w)
    (_pDelta w) (_pPCache w) (_pTempForServer w) (_pTempForLocal w)
    (_pSizeEachServer w) (_pIdxEachServer w) (_pPMatrixCache w)
    (_nTableCnt w).

Definition set_commCnt w (v : Z) : MultiversoWrapper ElemType :=
  mkWrapper (_adaptor w) (_pThread w) (_unjoined w) (_isInitialized w)
    (_nClients w) (_isPipeline w) (_nLocalCache w) (_pCacheState w)
    (_nCacheIdx w) (_momentumAdd w) (_elasticAdd w) v
    (_adjustlearningrateatbeginningtype w) (_adjustcoefficient w)
    (_adjustnbmb w) (_vTableLength w) (_lTotalLength w) (_vTableIdx w)
    (_pDelta w) (_pPCache w) (_pTempForServer w) (_pTempForLocal w)
    (_pSizeEachServer w) (_pIdxEachServer w) (_pPMatrixCache w)
    (_nTableCnt w).

Definition set_pDelta w (v : list ElemType) : MultiversoWrapper ElemType :=
  mkWrapper (_adaptor w) (_pThread w) (_unjoined w) (_isInitialized w)
    (_nClients w) (_isPipeline w) (_nLocalCache w) (_pCacheState w)
    (_nCacheIdx w) (_momentumAdd w) (_elasticAdd w) (_commCnt w)
    (_adjustlearningrateatbeginningtype w) (_adjustcoefficient w)
    (_adjustnbmb w) (_vTableLength w) (_lTotalLength w) (_vTableIdx w) v
    (_pPCache w) (_pTempForServer w) (_pTempForLocal w) (_pSizeEachServer w)
    (_pIdxEachServer w) (_pPMatrixCache w) (_nTableCnt w).

Definition set_pPCache w (v : list (list ElemType)) : MultiversoWrapper ElemType :=
  mkWrapper (_adaptor w) (_pThread w) (_unjoined w) (_isInitialized w)
    (_nClients w) (_isPipeline w) (_nLocalCache w) (_pCacheState w)
    (_nCacheIdx w) (_momentumAdd w) (_elasticAdd w) (_commCnt w)
    (_adjustlearningrateatbeginningtype w) (_adjustcoefficient w)
    (_adjustnbmb w) (_vTableLength w) (_lTotalLength w) (_vTableIdx w)
    (_pDelta w) v (_pTempForServer w) (_pTempForLocal w)
    (_pSizeEachServer w) (_pIdxEachServer w) (_pPMatrixCache w)
    (_nTableCnt w).

Definition set_pTempForServer w (v : list ElemType) : MultiversoWrapper ElemType :=
  mkWrapper (_adaptor w) (_pThread w) (_unjoined w) (_isInitialized w)
    (_nClients w) (_isPipeline w) (_nLocalCache w) (_pCacheState w)
    (_nCacheIdx w) (_momentumAdd w) (_elasticAdd w) (_commCnt w)
    (_adjustlearningrateatbeginningtype w) (_adjustcoefficient w)
    (_adjustnbmb w) (_vTableLength w) (_lTotalLength w) (_vTableIdx w)
    (_pDelta w) (_pPCache w) v (_pTempForLocal w) (_pSizeEachServer w)
    (_pIdxEachServer w) (_pPMatrixCache w) (_nTableCnt w).

Definition set_pTempForLocal w (v : list ElemType) : MultiversoWrapper ElemType :=
  mkWrapper (_adaptor w) (_pThread w) (_unjoined w) (_isInitialized w)
    (_nClients w) (_isPipeline w) (_nLocalCache w) (_pCacheState w)
    (_nCacheIdx w) (_momentumAdd w) (_elasticAdd w) (_commCnt w)
    (_adjustlearningrateatbeginningtype w) (_adjustcoefficient w)
    (_adjustnbmb w) (_vTableLength w) (_lTotalLength w) (_vTableIdx w)
    (_pDelta w) (_pPCache w) (_pTempForServer w) v (_pSizeEachServer w)
    (_pIdxEachServer w) (_pPMatrixCache w) (_nTableCnt w).

Definition set_pPMatrixCache w (v : list (list (Matrix ElemType))) : MultiversoWrapper ElemType :=
  mkWrapper (_adaptor w) (_pThread w) (_unjoined w) (_isInitialized w)
    (_nClients w) (_isPipeline w) (_nLocalCache w) (_pCacheState w)
    (_nCacheIdx w) (_momentumAdd w) (_elasticAdd w) (_commCnt w)
    (_adjustlearningrateatbeginningtype w) (_adjustcoefficient w)
    (_adjustnbmb w) (_vTableLength w) (_lTotalLength w) (_vTableIdx w)
    (_pDelta w) (_pPCache w) (_pTempForServer w) (_pTempForLocal w)
    (_pSizeEachServer w) (_pIdxEachServer w) v (_nTableCnt w).

End Assign.

(** ** The methods *)

Section Methods.
Context {ElemType : Type} `{!Element ElemType}.
Implicit Type w : MultiversoWrapper ElemType.
Implicit Type learnableNodes : list (Matrix ElemType).

(** [float getUpdateCoefficient()] *)
Definition getUpdateCoefficient w : IEEE.float :=
  updateCoefficient (_adjustlearningrateatbeginningtype w)
    (_adjustcoefficient w) (_adjustnbmb w) (_commCnt w).

(** [for (nodeIter ...; i++) { px = buf + _vTableIdx[i]; mat.CopyToArray(px, _vTableLength[i]); }] *)
Fixpoint CopyToArray_each (mats : list (Matrix ElemType)) (i : nat)
    (vTableIdx : list Z) (buf : list ElemType) : list ElemType :=
  match mats with
  | [] => buf
  | mat :: rest =>
      CopyToArray_each rest (S i) vTableIdx
        (CopyToArray mat buf (at_index vTableIdx i))
  end.

(** [for (nodeIter ...; i++) { px = buf + _vTableIdx[i]; mat.SetValue(..., px); }] *)
Fixpoint SetValue_each (mats : list (Matrix ElemType)) (i : nat)
    (vTableIdx : list Z) (buf : list ElemType) : list (Matrix ElemType) :=
  match mats with
  | [] => []
  | mat :: rest =>
      SetValue mat buf (at_index vTableIdx i)
        :: SetValue_each rest (S i) vTableIdx buf
  end.

(** [void Init(learnableNodes, localWorkerNumber)].  The calls on the
    [multiverso] namespace that configure the table are kept in the
    call list of the adaptor created at the end.  With [_nClients = 0]
    the source divides by zero ([_lTotalLength % _nClients]), which is
    undefined; the model then has Rocq's [x / 0 = 0] and [x mod 0 = x]. *)
Definition Init w learnableNodes (localWorkerNumber : Z)
    : MultiversoWrapper ElemType :=
  let vTableLength := _vTableLength w ++ map GetNumElements learnableNodes in
  let nTableCnt := to_int (Z.of_nat (length vTableLength)) in
  let lTotalLength := to_size_t (accumulate vTableLength 0) in
  let parts := PartitionMap lTotalLength (_nClients w) in
  let vTableIdx := _vTableIdx w ++ table_offsets vTableLength 0 in
  let fresh := replicate (Z.to_nat (lTotalLength + 1)) indeterminate in
  let table :=
    SetTable 0 (_nClients w)
      (to_size_t (lTotalLength / to_size_t (_nClients w) + 1))
      (if is_single then "float" else "double") in
  mkWrapper
    (mkAdaptor (calls (_adaptor w) ++ [table]) (row_data (_adaptor w)))
    (_pThread w) (_unjoined w)
    true
    (_nClients w) (_isPipeline w) (_nLocalCache w) (_pCacheState w)
    (_nCacheIdx w) (_momentumAdd w) (_elasticAdd w) (_commCnt w)
    (_adjustlearningrateatbeginningtype w) (_adjustcoefficient w)
    (_adjustnbmb w)
    vTableLength lTotalLength vTableIdx
    fresh
    (replicate (Z.to_nat (_nLocalCache w)) fresh)
    fresh fresh
    (map snd parts) (map fst parts)
    (replicate (Z.to_nat (_nLocalCache w))
       (replicate (Z.to_nat nTableCnt) []))
    nTableCnt.

(** The constructor.  [store] is what the parameter store will answer to
    this worker's [BatchLoad] calls.  With a negative [localWorkerNumber]
    the source throws from [new size_t[_nClients]] and with 0 it reaches
    the division of [Init]; the model returns a wrapper in both cases,
    and describes the source for [0 < localWorkerNumber]. *)
Definition MultiversoWrapper_new
    (store : list (Call ElemType) -> Z -> nat -> ElemType)
    learnableNodes (localWorkerNumber : Z) (isPipeline : bool)
    (momentumAdd elasticAdd : IEEE.double)
    (adjusttype : AdjustLearningRateatBeginning.t)
    (adjustcoef : IEEE.double) (adjustnbmb : Z)
    : Exceptional (MultiversoWrapper ElemType) :=
  if IEEE.ne (IEEE.dmul momentumAdd elasticAdd) (IEEE.double_of_Z 0)
  then InvalidArgument Please_choose
  else
    let nLocalCache := if isPipeline then 2 else 1 in
    Returned
      (Init
         (mkWrapper
            (mkAdaptor [] store) not_joinable []
            false
            localWorkerNumber isPipeline nLocalCache
            (map (fun i => Z.rem (Z.of_nat i + 1) nLocalCache)
                 (seq 0 (Z.to_nat nLocalCache)))
            0 momentumAdd elasticAdd 0
            adjusttype adjustcoef adjustnbmb
            [] 0 [] [] [] [] [] [] [] [] 0)
         learnableNodes 1).

(** The first loop of [ModelInit]: every slot of the device cache gets a
    copy of the tensor, and the tensor is copied to [_pPCache[0]]. *)
Fixpoint ModelInit_each (mats : list (Matrix ElemType)) (i : nat)
    (nLocalCache : nat) (vTableIdx : list Z)
    (cache : list (list (Matrix ElemType))) (buf : list ElemType)
    : list (list (Matrix ElemType)) * list ElemType :=
  match mats with
  | [] => (cache, buf)
  | mat :: rest =>
      ModelInit_each rest (S i) nLocalCache vTableIdx
        (fold_left (fun c j => set_matrix c j i mat) (seq 0 nLocalCache) cache)
        (CopyToArray mat buf (at_index vTableIdx i))
  end.

(** [void ModelInit(learnableNodes)] *)
Definition ModelInit w learnableNodes : MultiversoWrapper ElemType :=
  let factor := IEEE.fdiv (IEEE.float_of_double IEEE.d_one)
                          (IEEE.float_of_Z (_nClients w)) in
  let n := Z.to_nat (_lTotalLength w) in
  let '(matrixCache, cache0) :=
    ModelInit_each learnableNodes 0 (Z.to_nat (_nLocalCache w))
      (_vTableIdx w) (_pPMatrixCache w) (slot (_pPCache w) 0) in
  let pCache :=
    fold_left (fun c i => <[i := memcpy (slot c i) 0 (slot c 0) 0 n]> c)
      (seq 1 (Z.to_nat (_nLocalCache w) - 1))
      (<[0%nat := cache0]> (_pPCache w)) in
  let delta := memcpy (_pDelta w) 0 (slot pCache 0) 0 n in
  let a1 := Add_each_row (_adaptor w) 0 (Z.to_nat (_nClients w)) delta
              (_pIdxEachServer w) factor in
  let a2 := record_call a1 Barrier in
  let '(a3, loaded) :=
    BatchLoad_into a2 0 delta (_pIdxEachServer w) (_pSizeEachServer w) in
  let delta' := memcpy loaded 0 (slot pCache 0) 0 n in
  set_pDelta
    (set_adaptor (set_pPCache (set_pPMatrixCache w matrixCache) pCache) a3)
    delta'.
End Methods.

Section Sync.
Context {ElemType : Type} `{!Element ElemType}.
Implicit Type w : MultiversoWrapper ElemType.
Implicit Type learnableNodes : list (Matrix ElemType).

(** The exchange with the store, written three times in [ModelSync] (in
    the device thread, in the host thread and in the branch without
    pipeline): [delta] is [_pDelta] filled with the local values and
    [cache] the cache slot in use.  It returns the adaptor, [_pDelta] and
    the cache slot as the exchange leaves them. *)
Definition exchange w (factor : IEEE.float) (delta cache : list ElemType)
    : Adaptor ElemType * list ElemType * list ElemType :=
  let n := Z.to_nat (_lTotalLength w) in
  let nClients := Z.to_nat (_nClients w) in
  if IEEE.le (_elasticAdd w) IEEE.dzero then
    (* Calculate delta *)
    let delta1 := transform delta n cache delta minus in
    let a1 := Add_each_row (_adaptor w) 0 nClients delta1
                (_pIdxEachServer w) factor in
    let '(a2, loaded) :=
      BatchLoad_into a1 0 cache (_pIdxEachServer w) (_pSizeEachServer w) in
    (a2, delta1, loaded)
  else
    let '(a1, loaded) :=
      BatchLoad_into (_adaptor w) 0 cache
        (_pIdxEachServer w) (_pSizeEachServer w) in
    let diff := transform delta n loaded loaded minus in
    let a2 := Add_each_row a1 0 nClients diff (_pIdxEachServer w)
                (IEEE.float_of_double (_elasticAdd w)) in
    let delta2 := transform delta n diff delta minus in
    (a2, delta2, diff).

(** The buffer the values written back come from:
    [if (_elasticAdd <= 0.) py = cache + ...; else py = _pDelta + ...]. *)
Definition write_back_source w (delta cache : list ElemType) : list ElemType :=
  if IEEE.le (_elasticAdd w) IEEE.dzero then cache else delta.

(** [if (_isPipeline && _pThread->joinable()) _pThread->join();] *)
Definition join_previous w : MultiversoWrapper ElemType :=
  if _isPipeline w && joinable (_pThread w)
  then set_pThread w not_joinable
  else w.

(** The first three statements of [ModelSync]: count the round, wait for
    the previous transfer, rotate the cache slot. *)
Definition ModelSync_enter w : MultiversoWrapper ElemType :=
  join_previous (set_commCnt w (to_size_t (_commCnt w + 1))).

Definition ModelSync_rotate w : MultiversoWrapper ElemType :=
  set_nCacheIdx w (at_index (_pCacheState w) (Z.to_nat (_nCacheIdx w))).

(** The loop of the pipelined branch: the model goes to the device cache
    slot [cur], and the device cache slot [partner] goes to the model. *)
Fixpoint swap_each (mats : list (Matrix ElemType)) (i cur partner : nat)
    (cache : list (list (Matrix ElemType)))
    : list (list (Matrix ElemType)) * list (Matrix ElemType) :=
  match mats with
  | [] => (cache, [])
  | mat :: rest =>
      (* CNTK model -> GPU buffer *)
      let cache1 :=
        set_matrix cache cur i
          (memcpy (matrix_at cache cur i) 0 mat 0 (length mat)) in
      (* GPU buffer -> CNTK model *)
      let mat' := memcpy mat 0 (matrix_at cache1 partner i) 0 (length mat) in
      let '(cache2, rest') := swap_each rest (S i) cur partner cache1 in
      (cache2, mat' :: rest')
  end.

(** The value of [_commCnt] that the thread's [getUpdateCoefficient()]
    reads.  The thread reads it when it runs, and the caller's next
    [ModelSync] increments it ([_commCnt++]) before it waits for the
    thread ([join]): [late] tells that the increment came before the
    thread's read.  Nothing else the thread reads is written by the
    caller before the [join]. *)
Definition thread_commCnt w (late : bool) : Z :=
  if late then to_size_t (_commCnt w + 1) else _commCnt w.

(** [float factor = getUpdateCoefficient();] in the thread. *)
Definition thread_getUpdateCoefficient w (late : bool) : IEEE.float :=
  updateCoefficient (_adjustlearningrateatbeginningtype w)
    (_adjustcoefficient w) (_adjustnbmb w) (thread_commCnt w late).

(** The body of the thread of the device build.  The copies between the
    device cache and the host arrays are the copies of [CopyToArray] and
    [SetValue], one matrix at its offset. *)
Definition transfer_at w (late : bool) : MultiversoWrapper ElemType :=
  let factor := thread_getUpdateCoefficient w late in
  let t_cacheIdx := Z.to_nat (_nCacheIdx w) in
  let row := default [] (_pPMatrixCache w !! t_cacheIdx) in
  let mats := take (Z.to_nat (_nTableCnt w)) row in
  (* GPU buffer -> CPU buffer *)
  let delta := CopyToArray_each mats 0 (_vTableIdx w) (_pDelta w) in
  let '(a, delta', cache') :=
    exchange w factor delta (slot (_pPCache w) t_cacheIdx) in
  (* CPU buffer -> GPU buffer *)
  let mats' :=
    SetValue_each mats 0 (_vTableIdx w) (write_back_source w delta' cache') in
  set_pPMatrixCache
    (set_pPCache (set_pDelta (set_adaptor w a) delta')
       (<[t_cacheIdx := cache']> (_pPCache w)))
    (<[t_cacheIdx := mats' ++ drop (Z.to_nat (_nTableCnt w)) row]>
       (_pPMatrixCache w)).

(** The thread that reads [_commCnt] before the caller's next
    [_commCnt++]. *)
Definition transfer w : MultiversoWrapper ElemType := transfer_at w false.

(** [_pThread = new thread(...)]: the thread object [_pThread] pointed to
    is not destroyed; were it still joinable, its transfer would go on
    with nothing left to wait for it.  The new thread's transfer is
    applied at once: until the next [join] the caller touches none of
    the arrays it works on, and the one member the caller writes before
    that [join], [_commCnt], is read as [late] tells. *)
Definition spawn_transfer_at w (late : bool) : MultiversoWrapper ElemType :=
  let w' := transfer_at w late in
  set_pThread
    (set_unjoined w'
       (if joinable (_pThread w') then _pThread w' :: _unjoined w'
        else _unjoined w'))
    (started (_nCacheIdx w')).

Definition spawn_transfer w : MultiversoWrapper ElemType :=
  spawn_transfer_at w false.

(** [void ModelSync(learnableNodes)]: the wrapper after the call and the
    values of the tensors after it.  [late] is read by the thread of a
    round with pipeline only. *)
Definition ModelSync_at w learnableNodes (late : bool)
    : MultiversoWrapper ElemType * list (Matrix ElemType) :=
  let w := ModelSync_rotate (ModelSync_enter w) in
  if _isPipeline w then
    let cur := Z.to_nat (_nCacheIdx w) in
    let partner := Z.to_nat (at_index (_pCacheState w) cur) in
    let '(cache, nodes) :=
      swap_each learnableNodes 0 cur partner (_pPMatrixCache w) in
    (spawn_transfer_at (set_pPMatrixCache w cache) late, nodes)
  else
    let factor := getUpdateCoefficient w in
    let delta := CopyToArray_each learnableNodes 0 (_vTableIdx w) (_pDelta w) in
    let '(a, delta', cache') := exchange w factor delta (slot (_pPCache w) 0) in
    (set_pPCache (set_pDelta (set_adaptor w a) delta')
       (<[0%nat := cache']> (_pPCache w)),
     SetValue_each learnableNodes 0 (_vTableIdx w)
       (write_back_source w delta' cache')).

(** The round whose thread, if it has one, reads [_commCnt] before the
    caller's next [_commCnt++]. *)
Definition ModelSync w learnableNodes
    : MultiversoWrapper ElemType * list (Matrix ElemType) :=
  ModelSync_at w learnableNodes false.

(** [void ModelLoadServer(learnableNodes)] *)
Definition ModelLoadServer w learnableNodes
    : MultiversoWrapper ElemType * list (Matrix ElemType) :=
  let local :=
    CopyToArray_each learnableNodes 0 (_vTableIdx w) (_pTempForLocal w) in
  let '(a, server) :=
    BatchLoad_into (_adaptor w) 0 (_pTempForServer w)
      (_pIdxEachServer w) (_pSizeEachServer w) in
  (set_pTempForServer (set_adaptor (set_pTempForLocal w local) a) server,
   SetValue_each learnableNodes 0 (_vTableIdx w) server).

(** [void ModelLoadBack(learnableNodes)] *)
Definition ModelLoadBack w learnableNodes
    : MultiversoWrapper ElemType * list (Matrix ElemType) :=
  (w, SetValue_each learnableNodes 0 (_vTableIdx w) (_pTempForLocal w)).
End Sync.

(** ** The destructor *)

(** What the destructor writes, releases and shuts down, in order. *)
Inductive Teardown : Set :=
| fprintf_stderr (text : string)
| delete_pCacheState
| cudaFreeHost_pPCache (i : Z)
| delete_pPCache
| cudaStreamDestroy_commStream
| FinishTrain
| Close (finalize : bool).

Section Destructor.
Context {ElemType : Type}.

(** [~MultiversoWrapper()]: the wrapper after the wait for the last
    transfer, and what is released.  [_pThread] is never null after the
    constructor.  In
    [delete _pCacheState, _pDelta, _pSizeEachServer, _pIdxEachServer;]
    the commas are the comma operator: [delete] applies to
    [_pCacheState] only, and the three other operands are evaluated and
    discarded. *)
Definition MultiversoWrapper_delete (w : MultiversoWrapper ElemType)
    : MultiversoWrapper ElemType * list Teardown :=
  (join_previous w,
   [fprintf_stderr
      (String.append "~MultiversoWrapper"
                     (String (Ascii.ascii_of_nat 10) EmptyString));
    delete_pCacheState]
   ++ map (fun i => cudaFreeHost_pPCache (Z.of_nat i))
          (seq 0 (Z.to_nat (to_size_t (_nLocalCache w))))
   ++ [delete_pPCache; cudaStreamDestroy_commStream; FinishTrain; Close false]).
End Destructor.

(** * Vocabulary of the statements *)

(** A list of [(offset, size)] ranges that starts at [a], ends at [b] and
    in which every range begins where the one before ends. *)
Fixpoint chained (a : Z) (pm : list (Z * Z)) (b : Z) : Prop :=
  match pm with
  | [] => a = b
  | (idx, size) :: rest => idx = a /\ 0 <= size /\ chained (a + size) rest b
  end.

(** The offset of partition [i]: [i] quotients and one more element for
    each of the partitions before it that took part of the remainder. *)
Definition partition_offset (lTotalLength nClients i : Z) : Z :=
  i * (lTotalLength / nClients) + Z.min i (lTotalLength mod nClients).


(** The offsets of consecutive tensors of the given sizes, the first one at
    [b]: the prefix sums, without wrap-around. *)
Fixpoint offsets_from (b : Z) (lens : list Z) : list Z :=
  match lens with
  | [] => []
  | len :: rest => b :: offsets_from (b + len) rest
  end.

(** The values that one [BatchLoad] brings, row after row. *)
Fixpoint loaded_values {ElemType} (a : Adaptor ElemType) (row : nat)
    (parts : list (Z * Z)) : list ElemType :=
  match parts with
  | [] => []
  | (_, size) :: rest => row_values a row size ++ loaded_values a (S row) rest
  end.

(** The invariant of a constructed wrapper: the layout that [Init] planned
    (without overflow) and the arrays it allocated, each one element
    longer than the model. *)
Record wf {ElemType} (w : MultiversoWrapper ElemType) : Prop := {
  wf_lens : Forall (fun len => 0 <= len) (_vTableLength w);
  wf_idx : _vTableIdx w = offsets_from 0 (_vTableLength w);
  wf_total : _lTotalLength w = fold_right Z.add 0 (_vTableLength w);
  wf_total_range : _lTotalLength w < size_t_modulus;
  wf_count : _nTableCnt w = Z.of_nat (length (_vTableLength w));
  wf_clients : 0 < _nClients w <= INT_MAX;
  wf_parts :
    zip (_pIdxEachServer w) (_pSizeEachServer w)
    = PartitionMap (_lTotalLength w) (_nClients w);
  wf_delta : length (_pDelta w) = S (Z.to_nat (_lTotalLength w));
  wf_server : length (_pTempForServer w) = S (Z.to_nat (_lTotalLength w));
  wf_local : length (_pTempForLocal w) = S (Z.to_nat (_lTotalLength w));
  wf_slots : length (_pPCache w) = Z.to_nat (_nLocalCache w);
  wf_slot :
    Forall (fun c => length c = S (Z.to_nat (_lTotalLength w))) (_pPCache w);
  wf_nslots : _nLocalCache w = if _isPipeline w then 2 else 1;
  wf_state : _pCacheState w = if _isPipeline w then [1; 0] else [0];
  wf_current : 0 <= _nCacheIdx w < _nLocalCache w
}.

(** The tensors have the sizes the layout was planned for. *)
Definition matches {ElemType} (w : MultiversoWrapper ElemType)
    (learnableNodes : list (Matrix ElemType)) : Prop :=
  map GetNumElements learnableNodes = _vTableLength w.

(** Every slot of the device cache holds one matrix for each tensor, of
    the tensor's size (as [ModelInit] leaves them). *)
Definition device_ok {ElemType} (w : MultiversoWrapper ElemType) : Prop :=
  length (_pPMatrixCache w) = Z.to_nat (_nLocalCache w)
  /\ Forall (fun row => map GetNumElements row = _vTableLength w)
            (_pPMatrixCache w).

(** The model as one flat sequence, and a flat sequence cut at the sizes of
    the tensors of a model. *)
Definition flat {ElemType} (learnableNodes : list (Matrix ElemType))
    : list ElemType :=
  concat learnableNodes.

Definition shaped_like {ElemType} (learnableNodes : list (Matrix ElemType))
    (values : list ElemType) : list (Matrix ElemType) :=
  reshape (map length learnableNodes) values.

(** The first [_lTotalLength] elements of one of the wrapper's arrays. *)
Definition payload {ElemType} (w : MultiversoWrapper ElemType)
    (buf : list ElemType) : list ElemType :=
  take (Z.to_nat (_lTotalLength w)) buf.

(** The [Add] calls of one round, for a push buffer and a factor. *)
Definition pushes {ElemType} (w : MultiversoWrapper ElemType)
    (buf : list ElemType) (factor : IEEE.float) : list (Call ElemType) :=
  add_rows 0 (Z.to_nat (_nClients w)) buf (_pIdxEachServer w) factor.

(** The [BatchLoad] call of a round and the values it brings when the
    calls made before it are [before]. *)
Definition pull {ElemType} (w : MultiversoWrapper ElemType) : Call ElemType :=
  BatchLoad 0 (_pIdxEachServer w) (_pSizeEachServer w).

Definition pulled {ElemType} (w : MultiversoWrapper ElemType)
    (before : list (Call ElemType)) : list ElemType :=
  loaded_values (mkAdaptor before (row_data (_adaptor w))) 0
    (zip (_pIdxEachServer w) (_pSizeEachServer w)).

(** Two wrappers with the same configuration and the same layout. *)
Definition same_plan {ElemType} (w w' : MultiversoWrapper ElemType) : Prop :=
  _vTableLength w' = _vTableLength w
  /\ _vTableIdx w' = _vTableIdx w
  /\ _lTotalLength w' = _lTotalLength w
  /\ _nTableCnt w' = _nTableCnt w
  /\ _nClients w' = _nClients w
  /\ _pIdxEachServer w' = _pIdxEachServer w
  /\ _pSizeEachServer w' = _pSizeEachServer w
  /\ _nLocalCache w' = _nLocalCache w
  /\ _isPipeline w' = _isPipeline w
  /\ _pCacheState w' = _pCacheState w
  /\ _elasticAdd w' = _elasticAdd w
  /\ row_data (_adaptor w') = row_data (_adaptor w)
  /\ _adjustlearningrateatbeginningtype w' = _adjustlearningrateatbeginningtype w
  /\ _adjustcoefficient w' = _adjustcoefficient w
  /\ _adjustnbmb w' = _adjustnbmb w.

(** ** A worked configuration

    Two tensors of 3 and 5 elements of type [float], every element the
    same value, and a store that answers every [BatchLoad] with one
    value. *)

Definition constant_model (v : IEEE.float) : list (Matrix IEEE.float) :=
  [replicate 3 v; replicate 5 v].

Definition constant_store (v : IEEE.float)
    : list (Call IEEE.float) -> Z -> nat -> IEEE.float :=
  fun _ _ _ => v.

Definition f32 (z : Z) : IEEE.float := IEEE.float_of_Z z.

(** The transfers started and not waited for: the thread [_pThread] points
    to, if it is joinable, and those nothing points to any more. *)
Definition in_flight {ElemType} (w : MultiversoWrapper ElemType) : list Thread :=
  (if joinable (_pThread w) then [_pThread w] else []) ++ _unjoined w.

(** No transfer has been orphaned, and only a wrapper with pipeline has a
    joinable thread. *)
Definition orderly {ElemType} (w : MultiversoWrapper ElemType) : Prop :=
  _unjoined w = []
  /\ (joinable (_pThread w) = true -> _isPipeline w = true).

(** The wrappers a program can hold: constructed, then used through the
    public methods, on any tensors, the thread of a round reading the
    round counter before or after the next round counts. *)
Inductive reachable {ElemType} `{!Element ElemType}
    : MultiversoWrapper ElemType -> Prop :=
| reach_new store nodes localWorkerNumber isPipeline momentumAdd elasticAdd
    adjusttype adjustcoef adjustnbmb w :
    MultiversoWrapper_new store nodes localWorkerNumber isPipeline
      momentumAdd elasticAdd adjusttype adjustcoef adjustnbmb = Returned w ->
    reachable w
| reach_ModelInit w nodes :
    reachable w -> reachable (ModelInit w nodes)
| reach_ModelSync w nodes late :
    reachable w -> reachable (fst (ModelSync_at w nodes late))
| reach_ModelLoadServer w nodes :
    reachable w -> reachable (fst (ModelLoadServer w nodes))
| reach_ModelLoadBack w nodes :
    reachable w -> reachable (fst (ModelLoadBack w nodes)).

(** ** The coefficient policy, in the words of the specification *)

(** [clamp(x, lo, hi)]: [lo] below [lo], [hi] above [hi], [x] between. *)
Definition clamp (x lo hi : IEEE.float) : IEEE.float :=
  if IEEE.lt x lo then lo else if IEEE.lt hi x then hi else x.

(** [adjustCoefficient + (1-adjustCoefficient)/rampRounds * roundIndex],
    computed in [double] and cast to [float]. *)
Definition Linearly_ramp (adjustCoefficient : IEEE.double)
    (rampRounds roundIndex : Z) : IEEE.float :=
  IEEE.float_of_double
    (IEEE.dadd adjustCoefficient
       (IEEE.dmul
          (IEEE.ddiv (IEEE.dsub IEEE.d_one adjustCoefficient)
                     (IEEE.double_of_Z rampRounds))
          (IEEE.double_of_Z roundIndex))).

(** [adjustCoefficient * (floor(roundIndex/rampRounds) + 1)], the integer
    part computed exactly. *)
Definition Staircase_ramp (adjustCoefficient : IEEE.double)
    (rampRounds roundIndex : Z) : IEEE.float :=
  IEEE.float_of_double
    (IEEE.dmul adjustCoefficient
       (IEEE.double_of_Z (roundIndex / rampRounds + 1))).

(** A scalar in [[0, 1]]. *)
Definition in_unit_interval (f : IEEE.float) : Prop :=
  IEEE.le IEEE.fzero f = true /\ IEEE.le f IEEE.fone = true.

(** [a == b]: the same number (the two zeros are one number, a NaN is
    none). *)
Definition same_number (a b : spec_float) : Prop := SFeqb a b = true.

(** The [double] [2^e]. *)
Definition double_pow2 (e : Z) : IEEE.double :=
  binary_normalize IEEE.dprec IEEE.demax 1 e false.

(** ** Exact values and rounding

    [rne_shift m k] is [m / 2^k] rounded to the nearest integer, ties to
    even. *)
Definition rne_shift (m k : Z) : Z :=
  let q := m / 2 ^ k in
  match 2 * (m mod 2 ^ k) ?= 2 ^ k with
  | Lt => q
  | Eq => if Z.even q then q else q + 1
  | Gt => q + 1
  end.

(** [m1 * 2^e1 <= m2 * 2^e2], compared on the smaller exponent. *)
Definition dyadic_le (m1 e1 m2 e2 : Z) : Prop :=
  m1 * 2 ^ (e1 - Z.min e1 e2) <= m2 * 2 ^ (e2 - Z.min e1 e2).

(** The floating-point number of sign [s], mantissa [N] and exponent
    [t]; an exponent above the largest one gives an infinity. *)
Definition pack (prec emax : Z) (s : bool) (N t : Z) : spec_float :=
  match N with
  | Z0 => S754_zero s
  | Zpos p =>
      if t <=? emax - prec then S754_finite s p t else S754_infinity s
  | Zneg _ => S754_nan
  end.

(** The same for a mantissa of at most [prec] digits or equal to
    [2^prec], which is [2^(prec-1)] on the next exponent. *)
Definition normal_form (prec emax : Z) (s : bool) (N t : Z) : spec_float :=
  if N <? 2 ^ prec then pack prec emax s N t
  else pack prec emax s (2 ^ (prec - 1)) (t + 1).

(** What rounding leaves: a mantissa of at most [prec] digits, or
    [2^prec], on an exponent that is [emin] unless the mantissa is
    normal. *)
Definition rounded (prec emax N t : Z) : Prop :=
  0 <= N <= 2 ^ prec
  /\ SpecFloat.emin prec emax <= t
  /\ (SpecFloat.emin prec emax < t -> 2 ^ (prec - 1) <= N).

(** The nonnegative values of a format: the zeros, the positive numbers
    of the format and the positive infinity. *)
Definition nonneg_valid (prec emax : Z) (x : spec_float) : bool :=
  match x with
  | S754_zero _ => true
  | S754_infinity s => negb s
  | S754_nan => false
  | S754_finite s m e => negb s && bounded prec emax m e
  end.

Definition finite_or_zero (x : spec_float) : bool :=
  match x with S754_zero _ | S754_finite _ _ _ => true | _ => false end.

(** The conversion of a number to the format [(prec, emax)], as
    [IEEE.float_of_double] and [IEEE.double_of_float] do it. *)
Definition convert (prec emax : Z) (x : spec_float) : spec_float :=
  match x with
  | S754_finite s m e => binary_round prec emax s m e
  | _ => x
  end.

(** The [g] with [2^(g-1) <= |x| < 2^g], for a finite nonzero [x]. *)
Definition magnitude (x : spec_float) : Z :=
  match x with
  | S754_finite _ m e => Zdigits2 (Z.pos m) + e
  | _ => 0
  end.

Definition finite_nonzero (x : spec_float) : bool :=
  match x with S754_finite _ _ _ => true | _ => false end.

Definition is_zero (x : spec_float) : bool :=
  match x with S754_zero _ => true | _ => false end.

(** ** Several rounds

    [ModelSync] called once for each model of a list, in order; the
    wrapper after the last call. *)
Fixpoint ModelSync_rounds {ElemType} `{!Element ElemType}
    (w : MultiversoWrapper ElemType) (models : list (list (Matrix ElemType)))
    : MultiversoWrapper ElemType :=
  match models with
  | [] => w
  | nodes :: rest => ModelSync_rounds (fst (ModelSync w nodes)) rest
  end.

(** The number of elements of the tensors before tensor [i]. *)
Definition elements_before {ElemType} (nodes : list (Matrix ElemType))
    (i : nat) : Z :=
  Z.of_nat (length (flat (take i nodes))).

(** * Proofs *)

(** ** The partition map *)

Lemma to_size_t_small z : 0 <= z < size_t_modulus -> to_size_t z = z.
Proof. intros Hz. unfold to_size_t. now apply Z.mod_small. Qed.

Lemma partition_size_eq L N i :
  0 <= L < size_t_modulus -> 0 < N < size_t_modulus -> 0 <= i < N ->
  partition_size L N i = L / N + (if i <? L mod N then 1 else 0).
Proof.
  intros HL HN Hi. unfold partition_size.
  rewrite (to_size_t_small N) by lia.
  rewrite (to_size_t_small i) by lia.
  pose proof (Z.div_mod L N ltac:(lia)) as Hdm.
  pose proof (Z.mod_pos_bound L N ltac:(lia)) as Hr.
  assert (0 <= L / N) by (apply Z.div_pos; lia).
  destruct (i <? L mod N) eqn:E; [|lia].
  apply Z.ltb_lt in E.
  apply to_size_t_small. nia.
Qed.

Lemma partition_offset_step L N i :
  0 <= i ->
  partition_offset L N (i + 1)
  = partition_offset L N i + (L / N + (if i <? L mod N then 1 else 0)).
Proof.
  intros Hi. unfold partition_offset.
  destruct (i <? L mod N) eqn:E;
    [apply Z.ltb_lt in E | apply Z.ltb_ge in E]; lia.
Qed.

Lemma partition_offset_bound L N i :
  0 <= L -> 0 < N -> 0 <= i <= N -> 0 <= partition_offset L N i <= L.
Proof.
  intros HL HN Hi. unfold partition_offset.
  pose proof (Z.div_mod L N ltac:(lia)) as Hdm.
  pose proof (Z.mod_pos_bound L N ltac:(lia)) as Hr.
  assert (0 <= L / N) by (apply Z.div_pos; lia).
  split; [nia|].
  assert (i * (L / N) <= N * (L / N)) by nia.
  lia.
Qed.

Lemma partition_offset_last L N :
  0 <= L -> 0 < N -> partition_offset L N N = L.
Proof.
  intros HL HN. unfold partition_offset.
  pose proof (Z.div_mod L N ltac:(lia)) as Hdm.
  pose proof (Z.mod_pos_bound L N ltac:(lia)) as Hr.
  rewrite Z.min_r by lia. lia.
Qed.

Lemma partition_offset_first L N :
  0 < N -> partition_offset L N 0 = 0.
Proof.
  intros HN. unfold partition_offset.
  pose proof (Z.mod_pos_bound L N ltac:(lia)). lia.
Qed.

Lemma partition_loop_length n i idx L N :
  length (partition_loop n i idx L N) = n.
Proof.
  revert i idx. induction n as [|n IH]; intros i idx; simpl; [reflexivity|].
  now rewrite IH.
Qed.

Lemma partition_loop_lookup n i L N k :
  0 <= L < size_t_modulus -> 0 < N < size_t_modulus ->
  0 <= i -> i + Z.of_nat n <= N -> (k < n)%nat ->
  partition_loop n i (partition_offset L N i) L N !! k
  = Some (partition_offset L N (i + Z.of_nat k),
          L / N + (if i + Z.of_nat k <? L mod N then 1 else 0)).
Proof.
  intros HL HN. revert i k.
  induction n as [|n IH]; intros i k Hi Hn Hk; [lia|].
  cbn [partition_loop].
  rewrite partition_size_eq by lia.
  rewrite <- partition_offset_step by lia.
  rewrite to_size_t_small
    by (pose proof (partition_offset_bound L N (i + 1)); lia).
  destruct k as [|k]; cbn [lookup list_lookup].
  - now rewrite Z.add_0_r.
  - rewrite IH by lia.
    now replace (i + 1 + Z.of_nat k) with (i + Z.of_nat (S k)) by lia.
Qed.

Lemma partition_loop_chained n i L N :
  0 <= L < size_t_modulus -> 0 < N < size_t_modulus ->
  0 <= i -> i + Z.of_nat n <= N ->
  chained (partition_offset L N i)
    (partition_loop n i (partition_offset L N i) L N)
    (partition_offset L N (i + Z.of_nat n)).
Proof.
  intros HL HN. revert i.
  induction n as [|n IH]; intros i Hi Hn.
  - cbn. f_equal. lia.
  - cbn [partition_loop chained].
    rewrite partition_size_eq by lia.
    pose proof (Z.mod_pos_bound L N ltac:(lia)) as Hr.
    assert (0 <= L / N) by (apply Z.div_pos; lia).
    split; [reflexivity|]. split; [destruct (i <? L mod N); lia|].
    rewrite <- partition_offset_step by lia.
    rewrite to_size_t_small
      by (pose proof (partition_offset_bound L N (i + 1)); lia).
    replace (i + Z.of_nat (S n)) with (i + 1 + Z.of_nat n) by lia.
    apply IH; lia.
Qed.

(** Every point of [[a, b)] lies in a range of a chained list, ranges lie
    inside [[a, b)], and two ranges that share a point are the same one. *)
Lemma chained_inside a pm b i idx size :
  chained a pm b -> pm !! i = Some (idx, size) ->
  a <= idx /\ 0 <= size /\ idx + size <= b.
Proof.
  revert a i. induction pm as [|[o s] pm IH]; intros a i Hc Hi; [done|].
  destruct Hc as (-> & Hs & Hc).
  assert (a + s <= b) as Hend.
  { clear -Hc. revert Hc. generalize (a + s). induction pm as [|[o' s'] pm IH'];
      intros c Hc; cbn in Hc; [lia|]. destruct Hc as (_ & ? & Hc).
      apply IH' in Hc. lia. }
  destruct i as [|i]; cbn in Hi.
  - injection Hi as <- <-. lia.
  - apply (IH _ _ Hc) in Hi. lia.
Qed.

Lemma chained_covers a pm b x :
  chained a pm b -> a <= x < b ->
  exists i idx size, pm !! i = Some (idx, size) /\ idx <= x < idx + size.
Proof.
  revert a. induction pm as [|[o s] pm IH]; intros a Hc Hx; cbn in Hc; [lia|].
  destruct Hc as (-> & Hs & Hc).
  destruct (Z_lt_dec x (a + s)) as [Hlt|Hge].
  - exists 0%nat, a, s. split; [reflexivity|lia].
  - destruct (IH _ Hc ltac:(lia)) as (i & idx & size & Hi & Hin).
    exists (S i), idx, size. split; [exact Hi|exact Hin].
Qed.

Lemma chained_disjoint a pm b i j idx size idx' size' x :
  chained a pm b ->
  pm !! i = Some (idx, size) -> pm !! j = Some (idx', size') ->
  idx <= x < idx + size -> idx' <= x < idx' + size' -> i = j.
Proof.
  revert a i j. induction pm as [|[o s] pm IH]; intros a i j Hc Hi Hj Hx Hx'; [done|].
  destruct Hc as (-> & Hs & Hc).
  destruct i as [|i], j as [|j]; cbn in Hi, Hj.
  - reflexivity.
  - injection Hi as <- <-.
    pose proof (chained_inside _ _ _ _ _ _ Hc Hj). lia.
  - injection Hj as <- <-.
    pose proof (chained_inside _ _ _ _ _ _ Hc Hi). lia.
  - f_equal. eapply IH; eauto.
Qed.

Lemma PartitionMap_lookup L N (k : nat) :
  0 <= L < size_t_modulus -> 0 < N < size_t_modulus -> Z.of_nat k < N ->
  PartitionMap L N !! k
  = Some (partition_offset L N (Z.of_nat k),
          L / N + (if Z.of_nat k <? L mod N then 1 else 0)).
Proof.
  intros HL HN Hk. unfold PartitionMap.
  pose proof (partition_loop_lookup (Z.to_nat N) 0 L N k HL HN) as H.
  rewrite partition_offset_first in H by lia.
  apply H; lia.
Qed.

Lemma PartitionMap_chained L N :
  0 <= L < size_t_modulus -> 0 < N < size_t_modulus ->
  chained 0 (PartitionMap L N) L.
Proof.
  intros HL HN. unfold PartitionMap.
  pose proof (partition_loop_chained (Z.to_nat N) 0 L N HL HN) as H.
  rewrite Z2Nat.id, Z.add_0_l, partition_offset_last,
    partition_offset_first in H by lia.
  apply H; lia.
Qed.

Lemma PartitionMap_lookup_inv L N (k : nat) idx size :
  0 <= L < size_t_modulus -> 0 < N < size_t_modulus ->
  PartitionMap L N !! k = Some (idx, size) ->
  Z.of_nat k < N
  /\ idx = partition_offset L N (Z.of_nat k)
  /\ size = L / N + (if Z.of_nat k <? L mod N then 1 else 0).
Proof.
  intros HL HN Hk.
  assert (Z.of_nat k < N) as Hlt.
  { apply lookup_lt_Some in Hk. unfold PartitionMap in Hk.
    rewrite partition_loop_length in Hk. lia. }
  rewrite PartitionMap_lookup in Hk by lia.
  injection Hk as <- <-. auto.
Qed.

(** C1.  For every total length and worker count that are positive (and of
    their types, [size_t] and [int]), the partition map that [Init]
    computes has one range for each worker; the ranges are contiguous,
    starting at 0; every position of [[0, totalLength)] lies in a range and
    in one only; every range lies inside [[0, totalLength)]; two sizes
    differ by at most 1; the first [totalLength mod workerCount] ranges
    have one element more than the quotient and the others have the
    quotient; and for 8 elements and 3 workers the map is
    (0,3), (3,3), (6,2). *)
Theorem PartitionMap_covers (totalLength workerCount : Z) :
  0 < totalLength < size_t_modulus ->
  0 < workerCount <= INT_MAX ->
  let pm := PartitionMap totalLength workerCount in
  length pm = Z.to_nat workerCount
  /\ (exists size0, pm !! 0%nat = Some (0, size0))
  /\ (forall i idx size idx' size',
        pm !! i = Some (idx, size) -> pm !! S i = Some (idx', size') ->
        idx' = idx + size)
  /\ (forall idx size,
        pm !! (Z.to_nat workerCount - 1)%nat = Some (idx, size) ->
        idx + size = totalLength)
  /\ (forall x, 0 <= x < totalLength ->
        exists i idx size, pm !! i = Some (idx, size) /\ idx <= x < idx + size)
  /\ (forall i j idx size idx' size' x,
        pm !! i = Some (idx, size) -> pm !! j = Some (idx', size') ->
        idx <= x < idx + size -> idx' <= x < idx' + size' -> i = j)
  /\ (forall i idx size,
        pm !! i = Some (idx, size) -> 0 <= idx /\ 0 <= size /\ idx + size <= totalLength)
  /\ (forall i j idx size idx' size',
        pm !! i = Some (idx, size) -> pm !! j = Some (idx', size') ->
        -1 <= size - size' <= 1)
  /\ (forall i idx size,
        pm !! i = Some (idx, size) ->
        size = totalLength / workerCount
               + (if Z.of_nat i <? totalLength mod workerCount then 1 else 0))
  /\ PartitionMap 8 3 = [(0, 3); (3, 3); (6, 2)].
Proof.
  intros HL HN pm.
  assert (0 <= totalLength < size_t_modulus) as HL' by lia.
  assert (0 < workerCount < size_t_modulus) as HN'
    by (unfold INT_MAX, size_t_modulus in *; lia).
  pose proof (PartitionMap_chained _ _ HL' HN') as Hch. fold pm in Hch.
  repeat split.
  - apply partition_loop_length.
  - eexists. unfold pm. rewrite PartitionMap_lookup by lia.
    change (Z.of_nat 0) with 0. rewrite partition_offset_first by lia.
    reflexivity.
  - intros i idx size idx' size' Hi HSi.
    apply PartitionMap_lookup_inv in Hi as (Hk & -> & ->); [|lia..].
    apply PartitionMap_lookup_inv in HSi as (_ & -> & _); [|lia..].
    replace (Z.of_nat (S i)) with (Z.of_nat i + 1) by lia.
    apply partition_offset_step. lia.
  - intros idx size Hlast.
    apply PartitionMap_lookup_inv in Hlast as (Hk & -> & ->); [|lia..].
    rewrite <- partition_offset_step by lia.
    replace (Z.of_nat (Z.to_nat workerCount - 1) + 1) with workerCount by lia.
    apply partition_offset_last; lia.
  - intros x Hx. eapply chained_covers; eauto.
  - intros i j idx size idx' size' x. eapply chained_disjoint; eauto.
  - eapply chained_inside in Hch; eauto. lia.
  - eapply chained_inside in Hch; eauto. lia.
  - eapply chained_inside in Hch; eauto. lia.
  - apply PartitionMap_lookup_inv in H as (_ & _ & ->); [|lia..].
    apply PartitionMap_lookup_inv in H0 as (_ & _ & ->); [|lia..].
    repeat case_match; lia.
  - apply PartitionMap_lookup_inv in H as (_ & _ & ->); [|lia..].
    apply PartitionMap_lookup_inv in H0 as (_ & _ & ->); [|lia..].
    repeat case_match; lia.
  - intros i idx size Hi.
    now apply PartitionMap_lookup_inv in Hi as (_ & _ & ->); [|lia..].
Qed.

Lemma PartitionMap_covers_witness :
  length (PartitionMap 8 3) = 3%nat
  /\ PartitionMap 8 3 !! 2%nat = Some (6, 2).
Proof.
  destruct (PartitionMap_covers 8 3) as (Hlen & _).
  - unfold size_t_modulus. lia.
  - unfold INT_MAX. lia.
  - split; [exact Hlen | reflexivity].
Defined.

(** ** Copies between tensors and flat buffers *)

Section BufferLemmas.
Context {A : Type}.
Implicit Types (l pre old post src : list A).

Lemma memcpy_middle pre old post src n :
  length old = n -> (n <= length src)%nat ->
  memcpy (pre ++ old ++ post) (length pre) src 0 n
  = pre ++ take n src ++ post.
Proof.
  intros Hold Hsrc. unfold memcpy.
  rewrite take_app_length, drop_0. f_equal. f_equal.
  rewrite drop_app_add, <- Hold. apply drop_app_length.
Qed.

Lemma memcpy_whole l src :
  (length l <= length src)%nat ->
  memcpy l 0 src 0 (length l) = take (length l) src.
Proof.
  intros H. unfold memcpy. rewrite take_0, drop_0. cbn.
  rewrite drop_all. apply app_nil_r.
Qed.

Lemma memcpy_prefix old post src n :
  length old = n -> (n <= length src)%nat ->
  memcpy (old ++ post) 0 src 0 n = take n src ++ post.
Proof. intros. now apply (memcpy_middle []). Qed.

Lemma length_memcpy l doff src soff n :
  (doff + n <= length l)%nat -> (soff + n <= length src)%nat ->
  length (memcpy l doff src soff n) = length l.
Proof.
  intros Hd Hs. unfold memcpy.
  rewrite !length_app, !length_take, !length_drop. lia.
Qed.

Lemma transform_prefix (op : A -> A -> A) a ga c gc out n :
  length a = n -> length c = n ->
  transform (a ++ ga) n (c ++ gc) out op = zip_with op a c ++ drop n out.
Proof.
  intros Ha Hc. unfold transform.
  now rewrite !take_app_length' by done.
Qed.
End BufferLemmas.

Section GatherScatter.
Context {ElemType : Type} `{!Element ElemType}.
Implicit Types (mats vals : list (Matrix ElemType)).
Implicit Types (pre rest payload : list ElemType).

Lemma offsets_from_head b lens i idx :
  drop i idx = offsets_from b lens ->
  forall len lens', lens = len :: lens' ->
  at_index idx i = b /\ drop (S i) idx = offsets_from (b + len) lens'.
Proof.
  intros Hd len lens' ->. cbn in Hd. split.
  - unfold at_index.
    assert (idx !! i = Some b) as ->; [|done].
    rewrite <- (Nat.add_0_r i), <- lookup_drop, Hd. reflexivity.
  - replace (S i) with (i + 1)%nat by lia.
    rewrite <- drop_drop, Hd. reflexivity.
Qed.

(** Copying tensors that lie one after the other writes their values,
    concatenated, and leaves the rest of the buffer. *)
Lemma CopyToArray_each_concat mats : forall i idx (b : nat) pre rest,
  drop i idx = offsets_from (Z.of_nat b) (map GetNumElements mats) ->
  length pre = b ->
  (length (concat mats) <= length rest)%nat ->
  CopyToArray_each mats i idx (pre ++ rest)
  = pre ++ concat mats ++ drop (length (concat mats)) rest.
Proof.
  induction mats as [|mat mats IH]; intros i idx b pre rest Hidx Hpre Hlen.
  - cbn. now rewrite drop_0.
  - cbn [CopyToArray_each concat map] in *.
    destruct (offsets_from_head _ _ _ _ Hidx _ _ eq_refl) as [Hat Hdrop].
    rewrite length_app in Hlen.
    unfold CopyToArray. rewrite Hat, Nat2Z.id.
    rewrite <- (take_drop (length mat) rest) at 1.
    rewrite <- Hpre, memcpy_middle, firstn_all
      by (rewrite ?length_take; lia).
    rewrite (app_assoc pre mat).
    unfold GetNumElements in Hdrop. rewrite <- Nat2Z.inj_add in Hdrop.
    rewrite (IH (S i) idx (b + length mat)%nat)
      by (rewrite ?length_app, ?length_drop; auto; lia).
    rewrite drop_drop, length_app, <- !app_assoc. reflexivity.
Qed.

(** Reading tensors that lie one after the other cuts the buffer at the
    tensors' sizes. *)
Lemma SetValue_each_reshape mats : forall i idx (b : nat) pre payload,
  drop i idx = offsets_from (Z.of_nat b) (map GetNumElements mats) ->
  length pre = b ->
  (length (concat mats) <= length payload)%nat ->
  SetValue_each mats i idx (pre ++ payload)
  = reshape (map length mats) payload.
Proof.
  induction mats as [|mat mats IH]; intros i idx b pre payload Hidx Hpre Hlen.
  - reflexivity.
  - cbn [SetValue_each concat map reshape] in *.
    destruct (offsets_from_head _ _ _ _ Hidx _ _ eq_refl) as [Hat Hdrop].
    rewrite length_app in Hlen.
    unfold GetNumElements in Hdrop. rewrite <- Nat2Z.inj_add in Hdrop.
    f_equal.
    + unfold SetValue, memcpy. rewrite Hat, Nat2Z.id, take_0.
      rewrite <- Hpre, drop_app_length. cbn.
      rewrite drop_all. apply app_nil_r.
    + rewrite <- (take_drop (length mat) payload) at 1.
      rewrite app_assoc.
      apply (IH (S i) idx (b + length mat)%nat);
        rewrite ?length_app, ?length_take, ?length_drop; auto; lia.
Qed.

Lemma reshape_concat vals rest :
  reshape (map length vals) (concat vals ++ rest) = vals.
Proof.
  induction vals as [|v vals IH]; [reflexivity|].
  cbn [map concat reshape]. rewrite <- app_assoc.
  now rewrite take_app_length, drop_app_length, IH.
Qed.

Lemma length_reshape_each (lens : list nat) : forall payload,
  (sum_list lens <= length payload)%nat ->
  map length (reshape lens payload) = lens.
Proof.
  induction lens as [|n lens IH]; intros payload Hlen; [reflexivity|].
  simpl in *. change (id n) with n in *.
  rewrite length_take_le by lia.
  rewrite IH by (rewrite length_drop; lia). reflexivity.
Qed.

Lemma concat_reshape (lens : list nat) : forall payload,
  sum_list lens = length payload ->
  concat (reshape lens payload) = payload.
Proof.
  induction lens as [|n lens IH]; intros payload Hlen.
  - destruct payload; [reflexivity|discriminate].
  - simpl in *. change (id n) with n in *.
    rewrite IH by (rewrite length_drop; lia). apply take_drop.
Qed.
End GatherScatter.

Section Loading.
Context {ElemType : Type}.
Implicit Types (a : Adaptor ElemType) (pre mid post : list ElemType).

Lemma chained_le (x : Z) pm y : chained x pm y -> x <= y.
Proof.
  revert x. induction pm as [|[o s] pm IH]; intros x Hc; cbn in Hc; [lia|].
  destruct Hc as (_ & ? & Hc). apply IH in Hc. lia.
Qed.

Lemma length_row_values a row size :
  length (row_values a row size) = Z.to_nat size.
Proof. unfold row_values. now rewrite length_map, length_seq. Qed.

Lemma length_loaded_values a parts : forall row b e,
  chained b parts e ->
  length (loaded_values a row parts) = Z.to_nat (e - b).
Proof.
  induction parts as [|[o s] parts IH]; intros row b e Hc; cbn in *.
  - subst. now rewrite Z.sub_diag.
  - destruct Hc as (-> & Hs & Hc).
    pose proof (chained_le _ _ _ Hc).
    rewrite length_app, length_row_values, (IH _ _ _ Hc). lia.
Qed.

(** A [BatchLoad] over ranges that follow one another replaces exactly
    the elements of the ranges. *)
Lemma load_rows_chained a parts : forall row (b : nat) e pre mid post,
  chained (Z.of_nat b) parts e ->
  length pre = b -> Z.of_nat (length mid) = e - Z.of_nat b ->
  load_rows a row parts (pre ++ mid ++ post)
  = pre ++ loaded_values a row parts ++ post.
Proof.
  induction parts as [|[o s] parts IH];
    intros row b e pre mid post Hc Hpre Hmid; cbn in *.
  - subst e. destruct mid; [reflexivity|cbn in Hmid; lia].
  - destruct Hc as (-> & Hs & Hc).
    pose proof (chained_le _ _ _ Hc).
    rewrite Nat2Z.id.
    rewrite <- (take_drop (Z.to_nat s) mid), <- (app_assoc (take _ mid)).
    rewrite <- Hpre, memcpy_middle
      by (rewrite ?length_take, ?length_row_values; lia).
    rewrite take_ge by (rewrite length_row_values; lia).
    rewrite (app_assoc pre).
    rewrite (IH (S row) (b + Z.to_nat s)%nat e);
      rewrite ?length_app, ?length_row_values, ?length_drop, ?Nat2Z.inj_add,
        ?Z2Nat.id; auto; try lia.
    now rewrite <- !app_assoc.
Qed.
End Loading.

(** ** What the invariant gives *)

Section StateLemmas.
Context {ElemType : Type} `{!Element ElemType}.
Implicit Types (w : MultiversoWrapper ElemType).
Implicit Types (nodes : list (Matrix ElemType)) (buf : list ElemType).

Lemma sum_GetNumElements nodes :
  fold_right Z.add 0 (map GetNumElements nodes)
  = Z.of_nat (length (flat nodes)).
Proof.
  unfold flat. induction nodes as [|mat nodes IH]; [reflexivity|].
  cbn [map fold_right concat]. rewrite IH, length_app.
  unfold GetNumElements. lia.
Qed.

Lemma matches_total w nodes :
  wf w -> matches w nodes ->
  Z.to_nat (_lTotalLength w) = length (flat nodes).
Proof.
  intros Hwf Hm. rewrite (wf_total w Hwf), <- Hm, sum_GetNumElements.
  apply Nat2Z.id.
Qed.

Lemma matches_sum_list w nodes :
  wf w -> matches w nodes ->
  sum_list (map length nodes) = Z.to_nat (_lTotalLength w).
Proof.
  intros Hwf Hm. rewrite (matches_total w nodes) by done.
  unfold flat. now rewrite length_concat.
Qed.

Lemma matches_idx w nodes :
  wf w -> matches w nodes ->
  drop 0 (_vTableIdx w)
  = offsets_from (Z.of_nat 0) (map GetNumElements nodes).
Proof. intros Hwf Hm. now rewrite drop_0, (wf_idx w Hwf), Hm. Qed.

Lemma wf_total_nonneg w : wf w -> 0 <= _lTotalLength w.
Proof.
  intros Hwf. rewrite (wf_total w Hwf).
  pose proof (wf_lens w Hwf) as H.
  induction H as [|len lens Hlen _ IH]; cbn; lia.
Qed.

Lemma wf_chained w :
  wf w ->
  chained 0 (zip (_pIdxEachServer w) (_pSizeEachServer w)) (_lTotalLength w).
Proof.
  intros Hwf. rewrite (wf_parts w Hwf).
  pose proof (wf_total_nonneg w Hwf). pose proof (wf_total_range w Hwf).
  pose proof (wf_clients w Hwf) as Hc.
  apply PartitionMap_chained; [lia|].
  unfold INT_MAX, size_t_modulus in *. lia.
Qed.

Lemma reshape_take (lens : list nat) : forall (l : list ElemType),
  reshape lens (take (sum_list lens) l) = reshape lens l.
Proof.
  induction lens as [|n lens IH]; intros l; [reflexivity|].
  simpl. change (id n) with n. f_equal.
  - rewrite take_take. f_equal. lia.
  - rewrite skipn_firstn_comm.
    replace (n + sum_list lens - n)%nat with (sum_list lens) by lia.
    apply IH.
Qed.

(** Gathering the model into one of the wrapper's arrays. *)
Lemma gather w nodes buf :
  wf w -> matches w nodes ->
  length buf = S (Z.to_nat (_lTotalLength w)) ->
  CopyToArray_each nodes 0 (_vTableIdx w) buf
  = flat nodes ++ drop (Z.to_nat (_lTotalLength w)) buf.
Proof.
  intros Hwf Hm Hlen.
  pose proof (matches_total w nodes Hwf Hm) as HL.
  rewrite (CopyToArray_each_concat nodes 0 _ 0 [] buf);
    [now rewrite HL | now apply matches_idx | done |].
  unfold flat in HL. lia.
Qed.

(** Scattering one of the wrapper's arrays into the model. *)
Lemma scatter w nodes buf :
  wf w -> matches w nodes ->
  (Z.to_nat (_lTotalLength w) <= length buf)%nat ->
  SetValue_each nodes 0 (_vTableIdx w) buf
  = shaped_like nodes (payload w buf).
Proof.
  intros Hwf Hm Hlen.
  pose proof (matches_total w nodes Hwf Hm) as HL.
  rewrite (SetValue_each_reshape nodes 0 _ 0 [] buf);
    [| now apply matches_idx | done | unfold flat in HL; lia].
  unfold shaped_like, payload.
  now rewrite <- (matches_sum_list w nodes), reshape_take.
Qed.

Lemma scatter_gathered w nodes vals rest :
  wf w -> matches w nodes -> map length vals = map length nodes ->
  SetValue_each nodes 0 (_vTableIdx w) (flat vals ++ rest) = vals.
Proof.
  intros Hwf Hm Hshape.
  assert (length (flat vals) = length (flat nodes)) as Hlen.
  { unfold flat. now rewrite !length_concat, Hshape. }
  rewrite (SetValue_each_reshape nodes 0 _ 0 [] (flat vals ++ rest));
    [| now apply matches_idx | done
     | rewrite length_app; unfold flat in *; lia].
  rewrite <- Hshape. apply reshape_concat.
Qed.

(** The values a [BatchLoad] puts in one of the wrapper's arrays. *)
Lemma batch_load w (a : Adaptor ElemType) buf :
  wf w -> row_data a = row_data (_adaptor w) ->
  length buf = S (Z.to_nat (_lTotalLength w)) ->
  BatchLoad_into a 0 buf (_pIdxEachServer w) (_pSizeEachServer w)
  = (record_call a (pull w),
     pulled w (calls a) ++ drop (Z.to_nat (_lTotalLength w)) buf).
Proof.
  intros Hwf Hrow Hlen. unfold BatchLoad_into, pull. f_equal.
  pose proof (wf_chained w Hwf) as Hch.
  pose proof (wf_total_nonneg w Hwf) as HL.
  pose proof (load_rows_chained a _ 0 0 (_lTotalLength w) []
                (take (Z.to_nat (_lTotalLength w)) buf)
                (drop (Z.to_nat (_lTotalLength w)) buf) Hch eq_refl) as Hload.
  cbn [app] in Hload. rewrite take_drop in Hload.
  rewrite Hload by (rewrite length_take; lia).
  f_equal. unfold pulled. rewrite <- Hrow.
  now destruct a.
Qed.

Lemma length_pulled w before :
  wf w -> length (pulled w before) = Z.to_nat (_lTotalLength w).
Proof.
  intros Hwf. unfold pulled.
  rewrite (length_loaded_values _ _ _ 0 (_lTotalLength w));
    [f_equal; lia | now apply wf_chained].
Qed.

Lemma length_payload w buf :
  (Z.to_nat (_lTotalLength w) <= length buf)%nat ->
  length (payload w buf) = Z.to_nat (_lTotalLength w).
Proof. intros H. unfold payload. now rewrite length_take_le. Qed.

Lemma payload_app w p g :
  length p = Z.to_nat (_lTotalLength w) -> payload w (p ++ g) = p.
Proof. intros H. unfold payload. now rewrite take_app_length'. Qed.

Lemma guard_app w p (g : list ElemType) :
  length p = Z.to_nat (_lTotalLength w) ->
  drop (Z.to_nat (_lTotalLength w)) (p ++ g) = g.
Proof. intros H. now rewrite drop_app_length'. Qed.

Lemma payload_guard w buf :
  payload w buf ++ drop (Z.to_nat (_lTotalLength w)) buf = buf.
Proof. apply take_drop. Qed.
End StateLemmas.

(** ** One exchange with the store *)

Section Rounds.
Context {ElemType : Type} `{!Element ElemType}.
Implicit Types (w : MultiversoWrapper ElemType).
Implicit Types (nodes : list (Matrix ElemType)).
Implicit Types (local gd cache : list ElemType).

Local Abbreviation L w := (Z.to_nat (_lTotalLength w)).

(** Delta accumulation: push [local - cache], then pull into the cache. *)
Lemma exchange_delta w factor local gd cache :
  wf w -> IEEE.le (_elasticAdd w) IEEE.dzero = true ->
  length local = L w -> length cache = S (L w) ->
  let delta := zip_with minus local (payload w cache) in
  let before := calls (_adaptor w) ++ pushes w (delta ++ gd) factor in
  exchange w factor (local ++ gd) cache
  = (mkAdaptor (before ++ [pull w]) (row_data (_adaptor w)),
     delta ++ gd,
     pulled w before ++ drop (L w) cache).
Proof.
  intros Hwf He Hlocal Hcache delta before. unfold exchange. rewrite He.
  assert (transform (local ++ gd) (L w) cache (local ++ gd) minus
          = delta ++ gd) as ->.
  { rewrite <- (payload_guard w cache) at 1.
    now rewrite transform_prefix, drop_app_length'
      by (rewrite ?length_payload; lia). }
  rewrite batch_load by done. reflexivity.
Qed.

(** Elastic averaging: pull into the cache, push [local - pulled], and
    leave [local - (local - pulled)] in the delta buffer. *)
Lemma exchange_elastic w factor local gd cache :
  wf w -> IEEE.le (_elasticAdd w) IEEE.dzero = false ->
  length local = L w -> length cache = S (L w) ->
  let merged := pulled w (calls (_adaptor w)) in
  let diff := zip_with minus local merged in
  let gc := drop (L w) cache in
  exchange w factor (local ++ gd) cache
  = (mkAdaptor
       (calls (_adaptor w) ++ [pull w]
        ++ pushes w (diff ++ gc) (IEEE.float_of_double (_elasticAdd w)))
       (row_data (_adaptor w)),
     zip_with minus local diff ++ gd,
     diff ++ gc).
Proof.
  intros Hwf He Hlocal Hcache merged diff gc. unfold exchange. rewrite He.
  rewrite batch_load by done. fold merged gc.
  assert (length merged = L w) as Hmerged by now apply length_pulled.
  assert (length diff = L w) as Hdiff
    by (unfold diff; rewrite length_zip_with; lia).
  rewrite !transform_prefix, !drop_app_length' by done.
  fold diff. unfold Add_each_row, record_call, pushes. cbn [calls row_data].
  now rewrite <- app_assoc.
Qed.

(** ** Entering a round *)

Lemma wf_join_previous w : wf w -> wf (join_previous w).
Proof.
  intros Hwf. unfold join_previous.
  destruct (_isPipeline w && joinable (_pThread w)); [|done].
  destruct Hwf. constructor; cbn; auto.
Qed.

Lemma wf_set_commCnt w c : wf w -> wf (set_commCnt w c).
Proof. intros Hwf. destruct Hwf. constructor; cbn; auto. Qed.

Lemma wf_rotate w : wf w -> wf (ModelSync_rotate w).
Proof.
  intros Hwf. unfold ModelSync_rotate.
  destruct Hwf. constructor; cbn; auto.
  rewrite wf_state0, wf_nslots0 in *.
  destruct (_isPipeline w);
    assert (_nCacheIdx w = 0 \/ _nCacheIdx w = 1) as [-> | ->] by lia;
    vm_compute; intuition congruence.
Qed.

Lemma wf_enter w : wf w -> wf (ModelSync_rotate (ModelSync_enter w)).
Proof.
  intros Hwf. apply wf_rotate, wf_join_previous, wf_set_commCnt, Hwf.
Qed.
End Rounds.

(** ** The members a round's first statements leave alone *)

Section Enter.
Context {ElemType : Type} `{!Element ElemType}.
Implicit Types (w : MultiversoWrapper ElemType).

Local Ltac enter_field :=
  intros; unfold ModelSync_rotate, ModelSync_enter, join_previous; cbn;
  match goal with
  | |- context [if ?c then _ else _] => destruct c; reflexivity
  end.

Lemma enter_adaptor w :
  _adaptor (ModelSync_rotate (ModelSync_enter w)) = _adaptor w.
Proof. enter_field. Qed.

Lemma enter_nClients w :
  _nClients (ModelSync_rotate (ModelSync_enter w)) = _nClients w.
Proof. enter_field. Qed.

Lemma enter_isPipeline w :
  _isPipeline (ModelSync_rotate (ModelSync_enter w)) = _isPipeline w.
Proof. enter_field. Qed.

Lemma enter_nLocalCache w :
  _nLocalCache (ModelSync_rotate (ModelSync_enter w)) = _nLocalCache w.
Proof. enter_field. Qed.

Lemma enter_pCacheState w :
  _pCacheState (ModelSync_rotate (ModelSync_enter w)) = _pCacheState w.
Proof. enter_field. Qed.

Lemma enter_momentumAdd w :
  _momentumAdd (ModelSync_rotate (ModelSync_enter w)) = _momentumAdd w.
Proof. enter_field. Qed.

Lemma enter_elasticAdd w :
  _elasticAdd (ModelSync_rotate (ModelSync_enter w)) = _elasticAdd w.
Proof. enter_field. Qed.

Lemma enter_adjustlearningrateatbeginningtype w :
  _adjustlearningrateatbeginningtype (ModelSync_rotate (ModelSync_enter w)) = _adjustlearningrateatbeginningtype w.
Proof. enter_field. Qed.

Lemma enter_adjustcoefficient w :
  _adjustcoefficient (ModelSync_rotate (ModelSync_enter w)) = _adjustcoefficient w.
Proof. enter_field. Qed.

Lemma enter_adjustnbmb w :
  _adjustnbmb (ModelSync_rotate (ModelSync_enter w)) = _adjustnbmb w.
Proof. enter_field. Qed.

Lemma enter_vTableLength w :
  _vTableLength (ModelSync_rotate (ModelSync_enter w)) = _vTableLength w.
Proof. enter_field. Qed.

Lemma enter_lTotalLength w :
  _lTotalLength (ModelSync_rotate (ModelSync_enter w)) = _lTotalLength w.
Proof. enter_field. Qed.

Lemma enter_vTableIdx w :
  _vTableIdx (ModelSync_rotate (ModelSync_enter w)) = _vTableIdx w.
Proof. enter_field. Qed.

Lemma enter_pDelta w :
  _pDelta (ModelSync_rotate (ModelSync_enter w)) = _pDelta w.
Proof. enter_field. Qed.

Lemma enter_pPCache w :
  _pPCache (ModelSync_rotate (ModelSync_enter w)) = _pPCache w.
Proof. enter_field. Qed.

Lemma enter_pTempForServer w :
  _pTempForServer (ModelSync_rotate (ModelSync_enter w)) = _pTempForServer w.
Proof. enter_field. Qed.

Lemma enter_pTempForLocal w :
  _pTempForLocal (ModelSync_rotate (ModelSync_enter w)) = _pTempForLocal w.
Proof. enter_field. Qed.

Lemma enter_pSizeEachServer w :
  _pSizeEachServer (ModelSync_rotate (ModelSync_enter w)) = _pSizeEachServer w.
Proof. enter_field. Qed.

Lemma enter_pIdxEachServer w :
  _pIdxEachServer (ModelSync_rotate (ModelSync_enter w)) = _pIdxEachServer w.
Proof. enter_field. Qed.

Lemma enter_pPMatrixCache w :
  _pPMatrixCache (ModelSync_rotate (ModelSync_enter w)) = _pPMatrixCache w.
Proof. enter_field. Qed.

Lemma enter_nTableCnt w :
  _nTableCnt (ModelSync_rotate (ModelSync_enter w)) = _nTableCnt w.
Proof. enter_field. Qed.

Lemma enter_unjoined w :
  _unjoined (ModelSync_rotate (ModelSync_enter w)) = _unjoined w.
Proof. enter_field. Qed.

Lemma enter_commCnt w :
  _commCnt (ModelSync_rotate (ModelSync_enter w)) = to_size_t (_commCnt w + 1).
Proof. enter_field. Qed.

Lemma enter_nCacheIdx w :
  _nCacheIdx (ModelSync_rotate (ModelSync_enter w))
  = at_index (_pCacheState w) (Z.to_nat (_nCacheIdx w)).
Proof. enter_field. Qed.

Lemma enter_pThread w :
  _isPipeline w = true ->
  _pThread (ModelSync_rotate (ModelSync_enter w)) = not_joinable.
Proof.
  intros Hp. unfold ModelSync_rotate, ModelSync_enter, join_previous. cbn.
  rewrite Hp. cbn. destruct (_pThread w) eqn:E; cbn; [exact E|reflexivity].
Qed.
End Enter.

Create Rewrite HintDb enter.

#[local] Hint Rewrite @enter_adaptor @enter_nClients @enter_isPipeline
  @enter_nLocalCache @enter_pCacheState @enter_momentumAdd @enter_elasticAdd
  @enter_adjustlearningrateatbeginningtype @enter_adjustcoefficient
  @enter_adjustnbmb @enter_vTableLength @enter_lTotalLength @enter_vTableIdx
  @enter_pDelta @enter_pPCache @enter_pTempForServer @enter_pTempForLocal
  @enter_pSizeEachServer @enter_pIdxEachServer @enter_pPMatrixCache
  @enter_nTableCnt @enter_unjoined @enter_commCnt @enter_nCacheIdx : enter.

#[local] Arguments ModelSync_rotate : simpl never.
#[local] Arguments ModelSync_enter : simpl never.

(** ** A round without pipeline *)

Section Sequential.
Context {ElemType : Type} `{!Element ElemType}.
Implicit Types (w : MultiversoWrapper ElemType).
Implicit Types (nodes : list (Matrix ElemType)).

Local Abbreviation L w := (Z.to_nat (_lTotalLength w)).
Local Abbreviation entered w := (ModelSync_rotate (ModelSync_enter w)).

Lemma pushes_enter w buf factor : pushes (entered w) buf factor = pushes w buf factor.
Proof. unfold pushes. now autorewrite with enter. Qed.

Lemma pull_enter w : pull (entered w) = pull w.
Proof. unfold pull. now autorewrite with enter. Qed.

Lemma pulled_enter w before : pulled (entered w) before = pulled w before.
Proof. unfold pulled. now autorewrite with enter. Qed.

Lemma payload_enter w buf : payload (entered w) buf = payload w buf.
Proof. unfold payload. now autorewrite with enter. Qed.

Lemma matches_enter w nodes : matches w nodes -> matches (entered w) nodes.
Proof. unfold matches. now autorewrite with enter. Qed.

Lemma wf_slot_length w j :
  wf w -> (j < length (_pPCache w))%nat ->
  length (slot (_pPCache w) j) = S (L w).
Proof.
  intros Hwf Hj. unfold slot.
  destruct (lookup_lt_is_Some_2 _ _ Hj) as [c Hc]. rewrite Hc. cbn.
  pose proof (wf_slot w Hwf) as Hall.
  rewrite Forall_lookup in Hall. exact (Hall _ _ Hc).
Qed.

Lemma wf_slot0_length w : wf w -> length (slot (_pPCache w) 0) = S (L w).
Proof.
  intros Hwf. apply wf_slot_length; [done|].
  rewrite (wf_slots w Hwf), (wf_nslots w Hwf). destruct (_isPipeline w); lia.
Qed.

(** The round of delta accumulation, in full. *)
Lemma ModelSync_sequential_delta w nodes :
  wf w -> matches w nodes ->
  _isPipeline w = false -> IEEE.le (_elasticAdd w) IEEE.dzero = true ->
  let factor := getUpdateCoefficient (entered w) in
  let delta := zip_with minus (flat nodes) (payload w (slot (_pPCache w) 0)) in
  let gd := drop (L w) (_pDelta w) in
  let before := calls (_adaptor w) ++ pushes w (delta ++ gd) factor in
  let merged := pulled w before in
  ModelSync w nodes
  = (set_pPCache
       (set_pDelta
          (set_adaptor (entered w)
             (mkAdaptor (before ++ [pull w]) (row_data (_adaptor w))))
          (delta ++ gd))
       (<[0%nat := merged ++ drop (L w) (slot (_pPCache w) 0)]> (_pPCache w)),
     shaped_like nodes merged).
Proof.
  intros Hwf Hm Hp He factor delta gd before merged.
  pose proof (wf_enter w Hwf) as Hwf1.
  pose proof (matches_enter w nodes Hm) as Hm1.
  pose proof (matches_total w nodes Hwf Hm) as HL.
  unfold ModelSync, ModelSync_at. rewrite enter_isPipeline, Hp.
  rewrite gather by (autorewrite with enter; auto using wf_delta).
  rewrite exchange_delta;
    autorewrite with enter; auto using wf_slot0_length.
  unfold write_back_source. autorewrite with enter. rewrite He.
  rewrite scatter
    by (auto; rewrite length_app, length_pulled by done;
        autorewrite with enter; lia).
  rewrite pushes_enter, pull_enter, pulled_enter, !payload_enter.
  fold delta gd. fold before. fold merged.
  rewrite payload_app by (now apply length_pulled).
  reflexivity.
Qed.

(** The round of elastic averaging, in full. *)
Lemma ModelSync_sequential_elastic w nodes :
  wf w -> matches w nodes ->
  _isPipeline w = false -> IEEE.le (_elasticAdd w) IEEE.dzero = false ->
  let merged := pulled w (calls (_adaptor w)) in
  let diff := zip_with minus (flat nodes) merged in
  let residual := zip_with minus (flat nodes) diff in
  let gd := drop (L w) (_pDelta w) in
  let gc := drop (L w) (slot (_pPCache w) 0) in
  ModelSync w nodes
  = (set_pPCache
       (set_pDelta
          (set_adaptor (entered w)
             (mkAdaptor
                (calls (_adaptor w) ++ [pull w]
                 ++ pushes w (diff ++ gc)
                      (IEEE.float_of_double (_elasticAdd w)))
                (row_data (_adaptor w))))
          (residual ++ gd))
       (<[0%nat := diff ++ gc]> (_pPCache w)),
     shaped_like nodes residual).
Proof.
  intros Hwf Hm Hp He merged diff residual gd gc.
  pose proof (wf_enter w Hwf) as Hwf1.
  pose proof (matches_enter w nodes Hm) as Hm1.
  pose proof (matches_total w nodes Hwf Hm) as HL.
  assert (length merged = L w) as Hmerged by now apply length_pulled.
  assert (length diff = L w) as Hdiff
    by (unfold diff; rewrite length_zip_with; lia).
  assert (length residual = L w) as Hres
    by (unfold residual; rewrite length_zip_with; lia).
  unfold ModelSync, ModelSync_at. rewrite enter_isPipeline, Hp.
  rewrite gather by (autorewrite with enter; auto using wf_delta).
  rewrite exchange_elastic;
    autorewrite with enter; auto using wf_slot0_length.
  unfold write_back_source. autorewrite with enter. rewrite He.
  rewrite pushes_enter, pull_enter, pulled_enter.
  fold merged. fold diff. fold residual. fold gd gc.
  rewrite scatter
    by (auto; rewrite length_app; autorewrite with enter; lia).
  rewrite ?payload_enter, payload_app by done.
  reflexivity.
Qed.

(** ** The invariant after a round *)

Lemma wf_frame w w' :
  wf w -> same_plan w w' ->
  length (_pDelta w') = S (L w) ->
  length (_pTempForServer w') = S (L w) ->
  length (_pTempForLocal w') = S (L w) ->
  length (_pPCache w') = length (_pPCache w) ->
  Forall (fun c => length c = S (L w)) (_pPCache w') ->
  0 <= _nCacheIdx w' < _nLocalCache w ->
  wf w'.
Proof.
  intros Hwf (H1 & H2 & H3 & H4 & H5 & H6 & H7 & H8 & H9 & H10 & _).
  intros Hd Hs Hl Hn Hc Hi. destruct Hwf.
  constructor; rewrite ?H1, ?H2, ?H3, ?H4, ?H5, ?H6, ?H7, ?H8, ?H9, ?H10;
    auto; congruence.
Qed.

Lemma same_plan_enter w : same_plan w (entered w).
Proof. unfold same_plan. autorewrite with enter. tauto. Qed.

Lemma Forall_insert_slot w c j :
  wf w -> length c = S (L w) ->
  Forall (fun c => length c = S (L w)) (<[j := c]> (_pPCache w)).
Proof. intros Hwf Hc. apply Forall_insert; [apply (wf_slot w Hwf)|done]. Qed.

Lemma wf_ModelSync_sequential w nodes :
  wf w -> matches w nodes -> _isPipeline w = false ->
  wf (fst (ModelSync w nodes))
  /\ same_plan w (fst (ModelSync w nodes))
  /\ map length (snd (ModelSync w nodes)) = map length nodes.
Proof.
  intros Hwf Hm Hp.
  pose proof (matches_total w nodes Hwf Hm) as HL.
  pose proof (matches_sum_list w nodes Hwf Hm) as HS.
  pose proof (wf_enter w Hwf) as Hwf1.
  pose proof (wf_delta w Hwf) as Hdelta.
  pose proof (wf_slot0_length w Hwf) as Hslot.
  assert (forall before, length (pulled w before) = L w) as Hpulled
    by (intros; now apply length_pulled).
  assert (forall (x y : list ElemType), length x = L w -> length y = L w ->
            length (zip_with minus x y) = L w) as Hzip
    by (intros; rewrite length_zip_with; lia).
  assert (length (payload w (slot (_pPCache w) 0)) = L w) as Hpay
    by (apply length_payload; lia).
  assert (forall vals : list ElemType, length vals = L w ->
            map length (shaped_like nodes vals) = map length nodes) as Hshape
    by (intros; apply length_reshape_each; lia).
  destruct (IEEE.le (_elasticAdd w) IEEE.dzero) eqn:He.
  - rewrite ModelSync_sequential_delta by done. cbn [fst snd].
    split; [|split]; [| |auto].
    + eapply wf_frame; [exact Hwf| | | | | | |];
        cbn; autorewrite with enter;
        rewrite ?length_app, ?length_drop, ?length_insert, ?Hzip, ?Hpulled;
        auto using wf_server, wf_local; try lia.
      * unfold same_plan. cbn. autorewrite with enter. tauto.
      * apply Forall_insert_slot; [done|].
        rewrite length_app, length_drop, Hpulled. lia.
      * pose proof (wf_current _ Hwf1) as Hc.
        now autorewrite with enter in Hc.
    + unfold same_plan. cbn. autorewrite with enter. tauto.
  - rewrite ModelSync_sequential_elastic by done. cbn [fst snd].
    split; [|split]; [| |auto].
    + eapply wf_frame; [exact Hwf| | | | | | |];
        cbn; autorewrite with enter;
        rewrite ?length_app, ?length_drop, ?length_insert, ?Hzip, ?Hpulled;
        auto using wf_server, wf_local; try lia.
      * unfold same_plan. cbn. autorewrite with enter. tauto.
      * apply Forall_insert_slot; [done|].
        rewrite length_app, length_drop, !Hzip; auto. lia.
      * pose proof (wf_current _ Hwf1) as Hc.
        now autorewrite with enter in Hc.
    + unfold same_plan. cbn. autorewrite with enter. tauto.
Qed.
End Sequential.

(** ** Rounds of [ModelSync] without pipeline *)

Section SequentialClaims.
Context {ElemType : Type} `{!Element ElemType}.
Implicit Types (w : MultiversoWrapper ElemType).
Implicit Types (nodes : list (Matrix ElemType)).

Lemma same_plan_payload w w' buf :
  same_plan w w' -> payload w' buf = payload w buf.
Proof. intros (_ & _ & HL & _). unfold payload. now rewrite HL. Qed.

Lemma same_plan_matches w w' nodes :
  same_plan w w' -> matches w nodes -> matches w' nodes.
Proof. intros (Hl & _) Hm. unfold matches. now rewrite Hl. Qed.

Lemma same_plan_flags w w' :
  same_plan w w' ->
  _isPipeline w' = _isPipeline w /\ _elasticAdd w' = _elasticAdd w.
Proof. intros (_ & _ & _ & _ & _ & _ & _ & _ & Hp & _ & He & _). auto. Qed.

Lemma lookup_add_rows table_id n (buf : list ElemType) idx factor row :
  (row < n)%nat ->
  add_rows table_id n buf idx factor !! row
  = Some (Add table_id (Z.of_nat row)
              (drop (Z.to_nat (at_index idx row)) buf) factor).
Proof.
  intros Hrow. unfold add_rows.
  rewrite list_lookup_fmap, lookup_seq_lt by done. reflexivity.
Qed.

Lemma slot_insert (cache : list (list ElemType)) j c :
  (j < length cache)%nat -> slot (<[j := c]> cache) j = c.
Proof. intros Hj. unfold slot. now rewrite list_lookup_insert_eq. Qed.

Lemma wf_slot0 w : wf w -> (0 < length (_pPCache w))%nat.
Proof.
  intros Hwf. rewrite (wf_slots w Hwf), (wf_nslots w Hwf).
  destruct (_isPipeline w); lia.
Qed.

(** C2 (amended).  In a round of [ModelSync] without pipeline and under
    delta accumulation, the delta buffer receives the local snapshot
    minus the last merged snapshot (the content of slot 0), element by
    element over the whole flattened length; the calls made to the store
    are one [Add] for each partition, each with the delta buffer from the
    partition's offset and with the factor [getUpdateCoefficient] gives
    for the round just counted, followed by one [BatchLoad]; with no ramp
    configured that factor is 1.0; the values the [BatchLoad] brings are
    stored in slot 0 and written to the model; and they are what the next
    round subtracts from its local snapshot. *)
Theorem ModelSync_delta_accumulation w nodes :
  wf w -> matches w nodes ->
  _isPipeline w = false -> IEEE.le (_elasticAdd w) IEEE.dzero = true ->
  let factor :=
    updateCoefficient (_adjustlearningrateatbeginningtype w)
      (_adjustcoefficient w) (_adjustnbmb w) (to_size_t (_commCnt w + 1)) in
  let lastMerged := payload w (slot (_pPCache w) 0) in
  let delta := zip_with minus (flat nodes) lastMerged in
  let w' := fst (ModelSync w nodes) in
  let merged := payload w (slot (_pPCache w') 0) in
  length delta = length (flat nodes)
  /\ payload w (_pDelta w') = delta
  /\ calls (_adaptor w')
     = calls (_adaptor w) ++ pushes w (_pDelta w') factor ++ [pull w]
  /\ length (pushes w (_pDelta w') factor) = Z.to_nat (_nClients w)
  /\ (forall row, (row < Z.to_nat (_nClients w))%nat ->
        pushes w (_pDelta w') factor !! row
        = Some (Add 0 (Z.of_nat row)
                  (drop (Z.to_nat (at_index (_pIdxEachServer w) row))
                        (_pDelta w'))
                  factor))
  /\ (_adjustlearningrateatbeginningtype w = AdjustLearningRateatBeginning.None ->
        factor = IEEE.fone)
  /\ merged = pulled w (calls (_adaptor w) ++ pushes w (_pDelta w') factor)
  /\ snd (ModelSync w nodes) = shaped_like nodes merged
  /\ (forall nodes2, matches w nodes2 ->
        payload w (_pDelta (fst (ModelSync w' nodes2)))
        = zip_with minus (flat nodes2) merged).
Proof.
  intros Hwf Hm Hp He factor lastMerged delta w' merged.
  pose proof (matches_total w nodes Hwf Hm) as HL.
  pose proof (wf_slot0_length w Hwf) as Hslot.
  pose proof (wf_slot0 w Hwf) as Hslot0.
  assert (length lastMerged = Z.to_nat (_lTotalLength w)) as Hlast
    by (apply length_payload; lia).
  assert (length delta = length (flat nodes)) as Hdelta
    by (unfold delta; rewrite length_zip_with; lia).
  destruct (wf_ModelSync_sequential w nodes Hwf Hm Hp) as (Hwf' & Hplan & _).
  fold w' in Hwf', Hplan.
  assert (getUpdateCoefficient (ModelSync_rotate (ModelSync_enter w)) = factor)
    as Hfactor
    by (unfold getUpdateCoefficient; now autorewrite with enter).
  pose proof (ModelSync_sequential_delta w nodes Hwf Hm Hp He) as Hround.
  cbv zeta in Hround. rewrite Hfactor in Hround.
  fold lastMerged in Hround. fold delta in Hround.
  assert (_pDelta w' = delta ++ drop (Z.to_nat (_lTotalLength w)) (_pDelta w))
    as HpDelta by (unfold w'; now rewrite Hround).
  assert (merged = pulled w (calls (_adaptor w) ++ pushes w (_pDelta w') factor))
    as Hmerged.
  { unfold merged, w'. rewrite Hround. cbn.
    rewrite slot_insert by done.
    rewrite payload_app by now apply length_pulled.
    reflexivity. }
  repeat split.
  - exact Hdelta.
  - rewrite HpDelta. apply payload_app. lia.
  - unfold w' at 1. rewrite Hround. cbn. rewrite <- app_assoc.
    now rewrite HpDelta.
  - unfold pushes, add_rows. now rewrite length_map, length_seq.
  - intros row Hrow. unfold pushes. now apply lookup_add_rows.
  - intros Hnone. unfold factor. now rewrite Hnone.
  - exact Hmerged.
  - rewrite Hround. cbn [snd]. now rewrite Hmerged, HpDelta.
  - intros nodes2 Hm2.
    destruct (same_plan_flags _ _ Hplan) as [Hp' He'].
    rewrite ModelSync_sequential_delta;
      [| exact Hwf' | now apply (same_plan_matches w) | congruence | congruence].
    cbn. autorewrite with enter.
    rewrite !(same_plan_payload w w') by done.
    rewrite <- (same_plan_payload w w') by done.
    rewrite payload_app; [reflexivity|].
    pose proof Hplan as (_ & _ & HLeq & _).
    rewrite length_zip_with, length_payload.
    + pose proof (matches_total w' nodes2 Hwf'
                    (same_plan_matches w w' nodes2 Hplan Hm2)). lia.
    + rewrite wf_slot0_length by done. lia.
Qed.

End SequentialClaims.

(** ** The constructor establishes the invariant *)

Section Construction.
Context {ElemType : Type} `{!Element ElemType}.
Implicit Types (w : MultiversoWrapper ElemType).
Implicit Types (nodes : list (Matrix ElemType)).

Lemma to_int_small z : - 2 ^ 31 <= z <= INT_MAX -> to_int z = z.
Proof.
  intros Hz. unfold to_int, int_modulus, INT_MAX in *.
  rewrite Z.mod_small by lia. lia.
Qed.

Lemma accumulate_exact (lens : list Z) : forall acc,
  Forall (fun len => 0 <= len) lens -> 0 <= acc ->
  acc + fold_right Z.add 0 lens <= INT_MAX ->
  accumulate lens acc = acc + fold_right Z.add 0 lens.
Proof.
  unfold accumulate.
  induction lens as [|len lens IH]; intros acc Hpos Hacc Hsum; cbn in *; [lia|].
  inversion Hpos as [|? ? Hlen Hrest]; subst.
  assert (0 <= fold_right Z.add 0 lens)
    by (clear -Hrest; induction Hrest; cbn; lia).
  assert (INT_MAX < size_t_modulus) by (unfold INT_MAX, size_t_modulus; lia).
  rewrite (to_size_t_small acc), (to_size_t_small (acc + len)) by lia.
  rewrite to_int_small by (unfold INT_MAX in *; lia).
  rewrite IH by (auto; lia). lia.
Qed.

Lemma table_offsets_exact (lens : list Z) : forall b,
  Forall (fun len => 0 <= len) lens -> 0 <= b ->
  b + fold_right Z.add 0 lens < size_t_modulus ->
  table_offsets lens b = offsets_from b lens.
Proof.
  induction lens as [|len lens IH]; intros b Hpos Hb Hsum; cbn in *; [done|].
  inversion Hpos as [|? ? Hlen Hrest]; subst.
  assert (0 <= fold_right Z.add 0 lens)
    by (clear -Hrest; induction Hrest; cbn; lia).
  rewrite to_size_t_small by lia.
  rewrite IH by (auto; lia). reflexivity.
Qed.

Lemma zip_fst_snd {X Y} (l : list (X * Y)) : zip (map fst l) (map snd l) = l.
Proof. induction l as [|[x y] l IH]; cbn; [done|now rewrite IH]. Qed.

Lemma GetNumElements_nonneg nodes :
  Forall (fun len => 0 <= len) (map GetNumElements nodes).
Proof.
  induction nodes; cbn; constructor; auto. unfold GetNumElements. lia.
Qed.

(** The constructor either throws or returns a wrapper that satisfies the
    invariant, provided the worker count is a positive [int] and the
    numbers of tensors and of elements are [int]s too. *)
Lemma wf_new store nodes localWorkerNumber isPipeline momentumAdd elasticAdd
    adjusttype adjustcoef adjustnbmb w :
  MultiversoWrapper_new store nodes localWorkerNumber isPipeline
    momentumAdd elasticAdd adjusttype adjustcoef adjustnbmb = Returned w ->
  0 < localWorkerNumber <= INT_MAX ->
  Z.of_nat (length (flat nodes)) <= INT_MAX ->
  Z.of_nat (length nodes) <= INT_MAX ->
  wf w /\ matches w nodes
  /\ _isPipeline w = isPipeline /\ _elasticAdd w = elasticAdd
  /\ _nClients w = localWorkerNumber
  /\ _adjustlearningrateatbeginningtype w = adjusttype
  /\ _adjustcoefficient w = adjustcoef /\ _adjustnbmb w = adjustnbmb
  /\ _commCnt w = 0 /\ _nCacheIdx w = 0
  /\ _pThread w = not_joinable /\ _unjoined w = []
  /\ row_data (_adaptor w) = store
  /\ _pPMatrixCache w
     = replicate (if isPipeline then 2 else 1)%nat
         (replicate (length nodes) []).
Proof.
  unfold MultiversoWrapper_new.
  destruct (IEEE.ne _ _); [discriminate|].
  intros [= <-] Hn Hflat Hcount.
  pose proof (sum_GetNumElements nodes) as Hsum.
  pose proof (GetNumElements_nonneg nodes) as Hpos.
  assert (INT_MAX < size_t_modulus) by (unfold INT_MAX, size_t_modulus; lia).
  assert (accumulate (map GetNumElements nodes) 0
          = Z.of_nat (length (flat nodes))) as Hacc
    by (rewrite accumulate_exact; [lia | exact Hpos | lia | lia]).
  assert (to_int (Z.of_nat (length (map GetNumElements nodes)))
          = Z.of_nat (length nodes)) as Hcnt
    by (rewrite length_map, to_int_small; unfold INT_MAX in *; lia).
  unfold Init. cbn [_vTableLength _vTableIdx _nClients _nLocalCache
    _adaptor calls row_data app].
  rewrite Hacc, Hcnt.
  rewrite (to_size_t_small (Z.of_nat (length (flat nodes)))) by lia.
  repeat split; cbn; auto.
  - apply table_offsets_exact; auto; lia.
  - lia.
  - now rewrite length_map.
  - lia.
  - lia.
  - apply zip_fst_snd.
  - rewrite length_replicate. lia.
  - rewrite length_replicate. lia.
  - rewrite length_replicate. lia.
  - now rewrite length_replicate.
  - apply Forall_replicate. rewrite length_replicate. lia.
  - now destruct isPipeline.
  - lia.
  - destruct isPipeline; lia.
  - now rewrite Nat2Z.id; destruct isPipeline.
Qed.
End Construction.

(** ** [ModelInit] *)

#[local] Arguments memcpy : simpl never.

Section ModelInitLemmas.
Context {ElemType : Type} `{!Element ElemType}.
Implicit Types (w : MultiversoWrapper ElemType).
Implicit Types (nodes mats : list (Matrix ElemType)).
Implicit Types (cache : list (list (Matrix ElemType))).

Local Abbreviation L w := (Z.to_nat (_lTotalLength w)).

Lemma set_matrix_each_row i (mat : Matrix ElemType) cache : forall pre,
  fold_left (fun c j => set_matrix c j i mat)
    (seq (length pre) (length cache)) (pre ++ cache)
  = pre ++ ((fun row => <[i := mat]> row) <$> cache).
Proof.
  induction cache as [|row cache IH]; intros pre; [reflexivity|].
  cbn [length seq fold_left fmap list_fmap].
  unfold set_matrix at 2.
  rewrite <- (Nat.add_0_r (length pre)) at 2.
  rewrite alter_app_r. cbn [alter list_alter]. cbn beta.
  specialize (IH (pre ++ [<[i := mat]> row])).
  rewrite length_app, Nat.add_1_r, <- app_assoc in IH. cbn [app] in IH.
  etrans; [exact IH|]. now rewrite <- app_assoc.
Qed.

Lemma ModelInit_each_spec idx mats : forall i cache buf,
  Forall (fun row => (i + length mats <= length row)%nat) cache ->
  ModelInit_each mats i (length cache) idx cache buf
  = ((fun row => take i row ++ mats ++ drop (i + length mats) row) <$> cache,
     CopyToArray_each mats i idx buf).
Proof.
  induction mats as [|mat mats IH]; intros i cache buf Hrows.
  - cbn. f_equal. rewrite <- (list_fmap_id cache) at 1.
    apply list_fmap_ext. intros j row _. cbn.
    now rewrite Nat.add_0_r, take_drop.
  - cbn [ModelInit_each CopyToArray_each length].
    pose proof (set_matrix_each_row i mat cache []) as Hset.
    cbn [app length] in Hset. rewrite Hset. clear Hset.
    rewrite <- (length_fmap (fun row => <[i := mat]> row) cache) at 1.
    rewrite IH.
    + f_equal. rewrite <- list_fmap_compose.
      apply Forall_fmap_ext_1. eapply Forall_impl; [exact Hrows|].
      intros row Hrow. cbn in *.
      rewrite (take_S_r _ _ mat)
        by (apply list_lookup_insert_eq; lia).
      rewrite take_insert_ge, drop_insert_lt by lia.
      rewrite <- app_assoc. cbn. repeat f_equal. lia.
    + rewrite Forall_fmap. eapply Forall_impl; [exact Hrows|].
      intros row Hrow. cbn in *. rewrite length_insert. lia.
Qed.

Lemma memcpy_payload w (c src : list ElemType) :
  length c = S (L w) -> (L w <= length src)%nat ->
  memcpy c 0 src 0 (L w) = payload w src ++ drop (L w) c.
Proof.
  intros Hc Hsrc. rewrite <- (take_drop (L w) c) at 1.
  apply memcpy_prefix; [rewrite length_take; lia | done].
Qed.

(** [ModelInit], in full: the local model goes to every cache slot, to
    every slot of the device cache and to the delta buffer; the store is
    sent the model with factor [1 / _nClients], then a barrier, then one
    [BatchLoad], whose values the last copy overwrites. *)
Lemma ModelInit_explicit w nodes :
  wf w -> matches w nodes ->
  length (_pPMatrixCache w) = Z.to_nat (_nLocalCache w) ->
  Forall (fun row => length row = length nodes) (_pPMatrixCache w) ->
  let factor := IEEE.fdiv (IEEE.float_of_double IEEE.d_one)
                          (IEEE.float_of_Z (_nClients w)) in
  let local := flat nodes in
  let delta := local ++ drop (L w) (_pDelta w) in
  ModelInit w nodes
  = set_pDelta
      (set_adaptor
         (set_pPCache
            (set_pPMatrixCache w (replicate (Z.to_nat (_nLocalCache w)) nodes))
            ((fun c => local ++ drop (L w) c) <$> _pPCache w))
         (mkAdaptor
            (calls (_adaptor w) ++ pushes w delta factor ++ [Barrier; pull w])
            (row_data (_adaptor w))))
      delta.
Proof.
  intros Hwf Hm Hrows Hrow factor local delta.
  pose proof (matches_total w nodes Hwf Hm) as HL. fold local in HL.
  pose proof (wf_slot0_length w Hwf) as Hslot0.
  pose proof (wf_delta w Hwf) as Hdelta.
  unfold ModelInit. rewrite <- Hrows.
  rewrite ModelInit_each_spec
    by (eapply Forall_impl; [exact Hrow|]; cbn; intros; lia).
  rewrite gather by done. fold local.
  assert ((fun row : list (Matrix ElemType) =>
             take 0 row ++ nodes ++ drop (0 + length nodes) row)
            <$> _pPMatrixCache w
          = replicate (length (_pPMatrixCache w)) nodes) as ->.
  { apply const_fmap. intros j row Hj.
    rewrite Forall_lookup in Hrow. specialize (Hrow _ _ Hj).
    rewrite take_0, drop_ge by (cbn; lia). cbn. apply app_nil_r. }
  cbv beta iota zeta. rewrite !Hrows.
  set (c0 := local ++ drop (L w) (slot (_pPCache w) 0)).
  assert (fold_left
            (fun c i => <[i := memcpy (slot c i) 0 (slot c 0) 0 (L w)]> c)
            (seq 1 (Z.to_nat (_nLocalCache w) - 1))
            (<[0%nat := c0]> (_pPCache w))
          = (fun c => local ++ drop (L w) c) <$> _pPCache w) as ->.
  { pose proof (wf_slots w Hwf) as Hn. pose proof (wf_slot w Hwf) as Hlen.
    rewrite (wf_nslots w Hwf) in *. unfold c0, slot.
    destruct (_isPipeline w), (_pPCache w) as [|s0 [|s1 [|s2 rest]]];
      cbn in Hn; try lia;
      change (Z.to_nat 2) with 2%nat; change (Z.to_nat 1) with 1%nat;
      cbn; [|reflexivity].
    f_equal. f_equal.
    inversion Hlen as [|? ? _ Hlen']; subst.
    inversion Hlen' as [|? ? Hs1 _]; subst.
    rewrite memcpy_payload by (rewrite ?length_app; lia).
    now rewrite payload_app. }
  assert (slot ((fun c => local ++ drop (L w) c) <$> _pPCache w) 0 = c0) as ->.
  { unfold slot, c0. rewrite list_lookup_fmap.
    pose proof (wf_slot0 w Hwf).
    destruct (_pPCache w); [cbn in *; lia|reflexivity]. }
  assert (payload w c0 = local) as Hpay
    by (unfold c0; apply payload_app; lia).
  assert (length c0 = S (L w)) as Hc0
    by (unfold c0; rewrite length_app, length_drop; lia).
  assert (length delta = S (L w)) as Hdelta'
    by (unfold delta; rewrite length_app, length_drop; lia).
  rewrite !(memcpy_payload w (_pDelta w) c0), Hpay by lia. fold delta.
  rewrite batch_load; [| exact Hwf | reflexivity | exact Hdelta'].
  rewrite memcpy_payload, Hpay;
    [| rewrite length_app, length_drop, length_pulled by done; lia | lia].
  rewrite drop_app_length' by (symmetry; now apply length_pulled).
  assert (local ++ drop (L w) delta = delta) as ->
    by (unfold delta; now rewrite drop_app_length' by lia).
  unfold record_call, Add_each_row, pushes. cbn [calls row_data].
  now rewrite <- !app_assoc.
Qed.
End ModelInitLemmas.

Section ModelInitInvariant.
Context {ElemType : Type} `{!Element ElemType}.
Implicit Types (w : MultiversoWrapper ElemType).
Implicit Types (nodes : list (Matrix ElemType)).

Local Abbreviation L w := (Z.to_nat (_lTotalLength w)).

Lemma wf_ModelInit w nodes :
  wf w -> matches w nodes ->
  length (_pPMatrixCache w) = Z.to_nat (_nLocalCache w) ->
  Forall (fun row => length row = length nodes) (_pPMatrixCache w) ->
  wf (ModelInit w nodes)
  /\ same_plan w (ModelInit w nodes)
  /\ device_ok (ModelInit w nodes)
  /\ _nCacheIdx (ModelInit w nodes) = _nCacheIdx w
  /\ _commCnt (ModelInit w nodes) = _commCnt w
  /\ _pThread (ModelInit w nodes) = _pThread w
  /\ _unjoined (ModelInit w nodes) = _unjoined w.
Proof.
  intros Hwf Hm Hrows Hrow.
  pose proof (matches_total w nodes Hwf Hm) as HL.
  pose proof (wf_delta w Hwf) as Hdelta.
  rewrite ModelInit_explicit by done.
  assert (same_plan w
    (set_pDelta
      (set_adaptor
         (set_pPCache
            (set_pPMatrixCache w (replicate (Z.to_nat (_nLocalCache w)) nodes))
            ((fun c => flat nodes ++ drop (L w) c) <$> _pPCache w))
         (mkAdaptor
            (calls (_adaptor w)
             ++ pushes w (flat nodes ++ drop (L w) (_pDelta w))
                  (IEEE.fdiv (IEEE.float_of_double IEEE.d_one)
                     (IEEE.float_of_Z (_nClients w)))
             ++ [Barrier; pull w])
            (row_data (_adaptor w))))
      (flat nodes ++ drop (L w) (_pDelta w)))) as Hplan
    by (unfold same_plan; cbn; tauto).
  split; [|split; [exact Hplan|split; [|cbn; auto]]].
  - eapply wf_frame; [exact Hwf | exact Hplan | ..]; cbn.
    + rewrite length_app, length_drop. lia.
    + apply (wf_server w Hwf).
    + apply (wf_local w Hwf).
    + now rewrite length_fmap.
    + rewrite Forall_fmap. eapply Forall_impl; [apply (wf_slot w Hwf)|].
      intros c Hc. cbn in *. unfold flat in *.
      rewrite length_app, length_drop. lia.
    + apply (wf_current w Hwf).
  - split; cbn.
    + now rewrite length_replicate.
    + apply Forall_replicate. exact Hm.
Qed.
End ModelInitInvariant.

(** ** From construction to the first round *)

Section AfterConstruction.
Context {ElemType : Type} `{!Element ElemType}.
Implicit Types (w : MultiversoWrapper ElemType).
Implicit Types (nodes : list (Matrix ElemType)).

Lemma device_rows_new w nodes n :
  _pPMatrixCache w = replicate n (replicate (length nodes) []) ->
  _nLocalCache w = Z.of_nat n ->
  length (_pPMatrixCache w) = Z.to_nat (_nLocalCache w)
  /\ Forall (fun row => length row = length nodes) (_pPMatrixCache w).
Proof.
  intros -> ->. rewrite length_replicate, Nat2Z.id. split; [done|].
  apply Forall_replicate, length_replicate.
Qed.

(** A wrapper that has been constructed and initialised with the model
    it was constructed for. *)
Lemma ready store nodes localWorkerNumber isPipeline momentumAdd elasticAdd
    adjusttype adjustcoef adjustnbmb w0 :
  MultiversoWrapper_new store nodes localWorkerNumber isPipeline
    momentumAdd elasticAdd adjusttype adjustcoef adjustnbmb = Returned w0 ->
  0 < localWorkerNumber <= INT_MAX ->
  Z.of_nat (length (flat nodes)) <= INT_MAX ->
  Z.of_nat (length nodes) <= INT_MAX ->
  let w := ModelInit w0 nodes in
  wf w /\ matches w nodes /\ device_ok w /\ same_plan w0 w
  /\ _isPipeline w = isPipeline /\ _elasticAdd w = elasticAdd
  /\ _nClients w = localWorkerNumber
  /\ _adjustlearningrateatbeginningtype w = adjusttype
  /\ _adjustcoefficient w = adjustcoef /\ _adjustnbmb w = adjustnbmb
  /\ _commCnt w = 0 /\ _nCacheIdx w = 0
  /\ _pThread w = not_joinable /\ _unjoined w = []
  /\ row_data (_adaptor w) = store.
Proof.
  intros Hnew Hn Hflat Hcount w.
  destruct (wf_new _ _ _ _ _ _ _ _ _ _ Hnew Hn Hflat Hcount)
    as (Hwf0 & Hm0 & Hp & He & Hc & Ht & Hco & Hnb & Hcnt & Hidx & Hth & Hun
        & Hrd & Hdev).
  destruct (device_rows_new w0 nodes _ Hdev) as [Hrows Hrow].
  { rewrite (wf_nslots w0 Hwf0), Hp. now destruct isPipeline. }
  destruct (wf_ModelInit w0 nodes Hwf0 Hm0 Hrows Hrow)
    as (Hwf & Hplan & Hdok & Hi' & Hc' & Ht' & Hu').
  fold w in Hwf, Hplan, Hdok, Hi', Hc', Ht', Hu'.
  pose proof Hplan as (_ & _ & _ & _ & Pc & _ & _ & _ & Pp & _ & Pe & Pr
                       & Pt & Pco & Pnb).
  split; [exact Hwf|]. split; [now apply (same_plan_matches w0)|].
  split; [exact Hdok|]. split; [exact Hplan|].
  repeat split; congruence.
Qed.

(** C4 (amended).  Called on a wrapper just constructed, [ModelInit]
    copies the local model to every cache slot, to every slot of the
    device cache and to the delta buffer; it then sends the store, for
    every partition, the delta buffer from the partition's offset with
    the factor [1 / workerCount], calls [Barrier], and calls [BatchLoad]
    once; the values that call brings are overwritten by one more copy
    of slot 0 to the delta buffer.  When it returns, every slot holds the
    local model: if all the local weights are one value, every slot
    holds that value throughout. *)
Theorem ModelInit_after_construction store nodes workerCount isPipeline
    momentumAdd elasticAdd adjusttype adjustcoef adjustnbmb w0 :
  MultiversoWrapper_new store nodes workerCount isPipeline
    momentumAdd elasticAdd adjusttype adjustcoef adjustnbmb = Returned w0 ->
  0 < workerCount <= INT_MAX ->
  Z.of_nat (length (flat nodes)) <= INT_MAX ->
  Z.of_nat (length nodes) <= INT_MAX ->
  let w := ModelInit w0 nodes in
  let factor := IEEE.fdiv IEEE.fone (IEEE.float_of_Z workerCount) in
  let slots := if isPipeline then 2%nat else 1%nat in
  calls (_adaptor w)
  = calls (_adaptor w0) ++ pushes w0 (_pDelta w) factor ++ [Barrier; pull w0]
  /\ length (pushes w0 (_pDelta w) factor) = Z.to_nat workerCount
  /\ (forall row, (row < Z.to_nat workerCount)%nat ->
        pushes w0 (_pDelta w) factor !! row
        = Some (Add 0 (Z.of_nat row)
                  (drop (Z.to_nat (at_index (_pIdxEachServer w0) row))
                        (_pDelta w))
                  factor))
  /\ payload w0 (_pDelta w) = flat nodes
  /\ length (_pPCache w) = slots
  /\ (forall j, (j < slots)%nat -> payload w0 (slot (_pPCache w) j) = flat nodes)
  /\ _pPMatrixCache w = replicate slots nodes
  /\ (forall z, Forall (Forall (eq z)) nodes ->
        forall j, (j < slots)%nat ->
        Forall (eq z) (payload w0 (slot (_pPCache w) j))).
Proof.
  intros Hnew Hn Hflat Hcount w factor slots.
  destruct (wf_new _ _ _ _ _ _ _ _ _ _ Hnew Hn Hflat Hcount)
    as (Hwf0 & Hm0 & Hp & He & Hc & _ & _ & _ & _ & _ & _ & _ & _ & Hdev).
  destruct (device_rows_new w0 nodes _ Hdev) as [Hrows Hrow].
  { rewrite (wf_nslots w0 Hwf0), Hp. now destruct isPipeline. }
  pose proof (matches_total w0 nodes Hwf0 Hm0) as HL.
  pose proof (wf_delta w0 Hwf0) as Hdelta.
  assert (Z.to_nat (_nLocalCache w0) = slots) as Hslots
    by (rewrite (wf_nslots w0 Hwf0), Hp; now destruct isPipeline).
  assert (length (_pPCache w0) = slots) as Hlen
    by now rewrite (wf_slots w0 Hwf0).
  pose proof (ModelInit_explicit w0 nodes Hwf0 Hm0 Hrows Hrow) as Hinit.
  cbv zeta in Hinit. fold w in Hinit. rewrite Hc, Hslots in Hinit.
  change (IEEE.float_of_double IEEE.d_one) with IEEE.fone in Hinit.
  fold factor in Hinit.
  assert (forall j, (j < slots)%nat ->
            payload w0 (slot (_pPCache w) j) = flat nodes) as Hslot.
  { intros j Hj. rewrite Hinit. cbn. unfold slot.
    rewrite list_lookup_fmap.
    destruct (lookup_lt_is_Some_2 (_pPCache w0) j ltac:(lia)) as [c ->].
    cbn. apply payload_app. lia. }
  assert (forall j, (j < slots)%nat ->
            payload w0
              (slot ((fun c => flat nodes
                               ++ drop (Z.to_nat (_lTotalLength w0)) c)
                     <$> _pPCache w0) j)
            = flat nodes) as Hslot'.
  { intros j Hj. specialize (Hslot j Hj). now rewrite Hinit in Hslot. }
  rewrite Hinit. cbn.
  repeat split; auto.
  - unfold pushes, add_rows. rewrite length_map, length_seq. now rewrite Hc.
  - intros row Hrow'. unfold pushes. apply lookup_add_rows.
    now rewrite Hc.
  - apply payload_app. lia.
  - now rewrite length_fmap.
  - intros z Hz j Hj. rewrite Hslot' by done. unfold flat.
    clear -Hz. induction Hz as [|mat mats Hmat _ IH]; cbn; [constructor|].
    apply Forall_app; auto.
Qed.
End AfterConstruction.

(** ** A round with pipeline *)

Section Pipeline.
Context {ElemType : Type} `{!Element ElemType}.
Implicit Types (w : MultiversoWrapper ElemType).
Implicit Types (nodes mats : list (Matrix ElemType)).
Implicit Types (cache : list (list (Matrix ElemType))).

Local Abbreviation L w := (Z.to_nat (_lTotalLength w)).
Local Abbreviation entered w := (ModelSync_rotate (ModelSync_enter w)).

Lemma set_matrix_lookup cache j i (m : Matrix ElemType) row :
  cache !! j = Some row ->
  set_matrix cache j i m = <[j := <[i := m]> row]> cache.
Proof.
  intros Hj. unfold set_matrix. apply list_eq. intros k.
  rewrite list_lookup_alter.
  destruct (decide (j = k)) as [<-|Hne].
  - rewrite Hj, list_lookup_insert_eq by (eapply lookup_lt_Some; eauto).
    reflexivity.
  - now rewrite list_lookup_insert_ne.
Qed.

Lemma matrix_at_lookup cache j i row (m : Matrix ElemType) :
  cache !! j = Some row -> row !! i = Some m -> matrix_at cache j i = m.
Proof. intros Hj Hi. unfold matrix_at. now rewrite Hj; cbn; rewrite Hi. Qed.

Lemma drop_cons_inv {X} (l : list X) i x xs :
  drop i l = x :: xs -> l !! i = Some x /\ drop (S i) l = xs.
Proof.
  intros Hd. split.
  - rewrite <- (Nat.add_0_r i), <- lookup_drop, Hd. reflexivity.
  - replace (S i) with (i + 1)%nat by lia.
    rewrite <- drop_drop, Hd. reflexivity.
Qed.

(** The loop of the pipelined branch, when the two slots differ and hold
    matrices of the tensors' sizes: slot [cur] receives the model and
    the model receives slot [partner]. *)
Lemma swap_each_spec cur partner mats : forall i cache rowc rowp,
  cur <> partner ->
  cache !! cur = Some rowc -> cache !! partner = Some rowp ->
  map length (drop i rowc) = map length mats ->
  map length (drop i rowp) = map length mats ->
  swap_each mats i cur partner cache
  = (<[cur := take i rowc ++ mats]> cache, drop i rowp).
Proof.
  induction mats as [|mat mats IH];
    intros i cache rowc rowp Hne Hc Hp Hlc Hlp.
  - apply map_eq_nil in Hlc, Hlp. cbn. rewrite Hlp.
    apply drop_nil_inv in Hlc. rewrite app_nil_r, take_ge by done.
    now rewrite list_insert_id.
  - cbn [map] in Hlc, Hlp.
    destruct (drop i rowc) as [|x xs] eqn:Hdc; [discriminate|].
    destruct (drop i rowp) as [|y ys] eqn:Hdp; [discriminate|].
    injection Hlc as Hx Hxs. injection Hlp as Hy Hys.
    apply drop_cons_inv in Hdc as [Hxi Hdc].
    apply drop_cons_inv in Hdp as [Hyi Hdp].
    cbn [swap_each].
    rewrite (matrix_at_lookup cache cur i rowc x) by done.
    assert (memcpy x 0 mat 0 (length mat) = mat) as ->
      by (rewrite <- Hx, memcpy_whole by lia; rewrite Hx; apply firstn_all).
    rewrite (set_matrix_lookup cache cur i mat rowc) by done.
    assert (<[cur := <[i := mat]> rowc]> cache !! partner = Some rowp) as Hp'
      by now rewrite list_lookup_insert_ne.
    assert (<[cur := <[i := mat]> rowc]> cache !! cur
            = Some (<[i := mat]> rowc)) as Hc'
      by (apply list_lookup_insert_eq; eapply lookup_lt_Some; eauto).
    rewrite (matrix_at_lookup _ partner i rowp y) by done.
    rewrite (IH (S i) _ (<[i := mat]> rowc) rowp Hne Hc' Hp');
      [| rewrite drop_insert_lt by lia; congruence | congruence].
    rewrite list_insert_insert_eq.
    rewrite (take_S_r _ i mat)
      by (apply list_lookup_insert_eq; eapply lookup_lt_Some; eauto).
    rewrite take_insert_ge, <- app_assoc by lia. cbn [app].
    assert (memcpy mat 0 y 0 (length mat) = y) as ->.
    { unfold memcpy.
      rewrite take_0, drop_0, Nat.add_0_l, drop_all, app_nil_r.
      cbn. apply take_ge. lia. }
    now rewrite Hdp.
Qed.

Lemma exchange_lengths w factor local gd (buf : list ElemType) :
  wf w -> length local = L w -> length gd = 1%nat ->
  length buf = S (L w) ->
  let x := exchange w factor (local ++ gd) buf in
  row_data x.1.1 = row_data (_adaptor w)
  /\ length x.1.2 = S (L w) /\ length x.2 = S (L w).
Proof.
  intros Hwf Hlocal Hgd Hcache.
  assert (forall before, length (pulled w before) = L w) as Hpulled
    by (intros; now apply length_pulled).
  assert (forall (a b : list ElemType), length a = L w -> length b = L w ->
            length (zip_with minus a b) = L w) as Hzip
    by (intros; rewrite length_zip_with; lia).
  assert (length (payload w buf) = L w) by (apply length_payload; lia).
  destruct (IEEE.le (_elasticAdd w) IEEE.dzero) eqn:He; cbv zeta.
  - rewrite exchange_delta by done. cbn.
    split; [reflexivity|].
    rewrite !length_app, length_drop, Hzip, Hpulled by done. lia.
  - rewrite exchange_elastic by done. cbn.
    split; [reflexivity|].
    rewrite !length_app, length_drop, !Hzip; auto. lia.
Qed.

Lemma device_row w j :
  wf w -> device_ok w -> (j < Z.to_nat (_nLocalCache w))%nat ->
  exists row, _pPMatrixCache w !! j = Some row
              /\ map GetNumElements row = _vTableLength w.
Proof.
  intros Hwf [Hlen Hrows] Hj.
  destruct (lookup_lt_is_Some_2 (_pPMatrixCache w) j ltac:(lia)) as [row Hrow].
  exists row. split; [done|].
  rewrite Forall_lookup in Hrows. eauto.
Qed.

Lemma same_sizes (row nodes : list (Matrix ElemType)) :
  map GetNumElements row = map GetNumElements nodes ->
  map length row = map length nodes.
Proof.
  revert nodes. induction row as [|r row IH]; intros [|n nodes] H;
    try discriminate; [done|].
  cbn in *. injection H as Hr Hrow. unfold GetNumElements in Hr.
  f_equal; [lia|auto].
Qed.

Lemma exchange_frame w (c : list (list (Matrix ElemType))) factor
    (delta buf : list ElemType) :
  exchange (set_pPMatrixCache w c) factor delta buf
  = exchange w factor delta buf.
Proof. reflexivity. Qed.

Lemma getUpdateCoefficient_frame w (c : list (list (Matrix ElemType))) :
  getUpdateCoefficient (set_pPMatrixCache w c) = getUpdateCoefficient w.
Proof. reflexivity. Qed.

Lemma thread_getUpdateCoefficient_frame w (c : list (list (Matrix ElemType)))
    late :
  thread_getUpdateCoefficient (set_pPMatrixCache w c) late
  = thread_getUpdateCoefficient w late.
Proof. reflexivity. Qed.

(** The round with pipeline, member by member, whenever the thread reads
    the round counter. *)
Lemma ModelSync_at_pipelined w nodes late :
  wf w -> device_ok w -> matches w nodes -> _isPipeline w = true ->
  let old := Z.to_nat (_nCacheIdx w) in
  let cur := (1 - old)%nat in
  let x := exchange (entered w) (thread_getUpdateCoefficient (entered w) late)
             (flat nodes ++ drop (L w) (_pDelta w))
             (slot (_pPCache w) cur) in
  let w' := fst (ModelSync_at w nodes late) in
  snd (ModelSync_at w nodes late) = default [] (_pPMatrixCache w !! old)
  /\ _nCacheIdx w' = Z.of_nat cur
  /\ _adaptor w' = x.1.1
  /\ _pDelta w' = x.1.2
  /\ _pPCache w' = <[cur := x.2]> (_pPCache w)
  /\ _pPMatrixCache w'
     = <[cur := shaped_like nodes
                 (payload w (write_back_source w x.1.2 x.2))]>
         (_pPMatrixCache w)
  /\ _pThread w' = started (Z.of_nat cur)
  /\ _unjoined w' = _unjoined w
  /\ _commCnt w' = to_size_t (_commCnt w + 1)
  /\ _pTempForServer w' = _pTempForServer w
  /\ _pTempForLocal w' = _pTempForLocal w
  /\ same_plan w w'.
Proof.
  intros Hwf Hdev Hm Hp old cur x w'.
  pose proof (wf_enter w Hwf) as Hwf1.
  pose proof (matches_enter w nodes Hm) as Hm1.
  pose proof (matches_total w nodes Hwf Hm) as HL.
  pose proof (wf_nslots w Hwf) as Hn. rewrite Hp in Hn.
  pose proof (wf_state w Hwf) as Hst. rewrite Hp in Hst.
  pose proof (wf_current w Hwf) as Hcur. rewrite Hn in Hcur.
  pose proof (wf_delta w Hwf) as Hdelta.
  assert ((old = 0 /\ cur = 1) \/ (old = 1 /\ cur = 0))%nat as Hcase
    by (unfold cur, old; lia).
  assert (Z.to_nat (_nCacheIdx (entered w)) = cur) as Hcur1.
  { rewrite enter_nCacheIdx, Hst. fold old.
    destruct Hcase as [[-> ->]|[-> ->]]; reflexivity. }
  assert (Z.to_nat (at_index (_pCacheState (entered w)) cur) = old) as Hold1.
  { rewrite enter_pCacheState, Hst.
    destruct Hcase as [[-> ->]|[-> ->]]; reflexivity. }
  assert (_nCacheIdx (entered w) = Z.of_nat cur) as Hcur1'.
  { rewrite enter_nCacheIdx, Hst. fold old.
    destruct Hcase as [[-> ->]|[-> ->]]; reflexivity. }
  destruct (device_row w cur Hwf Hdev) as (rowc & Hrowc & Hsc); [rewrite Hn; lia|].
  destruct (device_row w old Hwf Hdev) as (rowp & Hrowp & Hsp); [rewrite Hn; lia|].
  rewrite <- Hm in Hsc, Hsp. apply same_sizes in Hsc, Hsp.
  assert (length (slot (_pPCache w) cur) = S (L w)) as Hslot.
  { apply wf_slot_length; [done|]. rewrite (wf_slots w Hwf), Hn. lia. }
  assert (length nodes = Z.to_nat (_nTableCnt w)) as Hcnt.
  { rewrite (wf_count w Hwf), <- Hm, length_map. lia. }
  destruct (exchange_lengths (entered w) (thread_getUpdateCoefficient (entered w) late)
              (flat nodes) (drop (L w) (_pDelta w)) (slot (_pPCache w) cur))
    as (Hrd & Hxd & Hxc);
    autorewrite with enter; auto; [rewrite length_drop; lia|].
  fold x in Hrd, Hxd, Hxc. autorewrite with enter in Hrd, Hxd, Hxc.
  assert (ModelSync_at w nodes late
          = (set_pThread
               (set_unjoined
                  (set_pPMatrixCache
                     (set_pPCache
                        (set_pDelta (set_adaptor (entered w) x.1.1) x.1.2)
                        (<[cur := x.2]> (_pPCache w)))
                     (<[cur := shaped_like nodes
                                 (payload w (write_back_source w x.1.2 x.2))]>
                        (_pPMatrixCache w)))
                  (_unjoined w))
               (started (Z.of_nat cur)),
             rowp)) as Hround.
  { unfold ModelSync_at. rewrite enter_isPipeline, Hp. rewrite Hcur1, Hold1.
    rewrite enter_pPMatrixCache.
    rewrite (swap_each_spec cur old nodes 0 _ rowc rowp);
      [| lia | done | done | now rewrite drop_0 | now rewrite drop_0].
    rewrite take_0. cbn [app]. f_equal.
    unfold spawn_transfer_at, transfer_at.
    cbn [_pPMatrixCache _nCacheIdx _nTableCnt _vTableIdx _pDelta _pPCache
         set_pPMatrixCache].
    rewrite Hcur1, enter_nTableCnt, enter_vTableIdx, enter_pDelta,
      enter_pPCache.
    rewrite list_lookup_insert_eq by (eapply lookup_lt_Some; eauto).
    cbn [default]. rewrite <- Hcnt, firstn_all, drop_all.
    rewrite <- (enter_vTableIdx w), <- (enter_pDelta w).
    rewrite gather by (autorewrite with enter; auto).
    autorewrite with enter.
    rewrite exchange_frame, thread_getUpdateCoefficient_frame. unfold id. fold x.
    destruct x as [[a delta'] cache'] eqn:Hx. cbn [fst snd] in *.
    rewrite app_nil_r, <- (enter_vTableIdx w).
    rewrite scatter.
    2: exact Hwf1. 2: exact Hm1.
    2: { unfold write_back_source. autorewrite with enter.
         destruct (IEEE.le _ _); lia. }
    rewrite list_insert_insert_eq.
    cbn. rewrite enter_pThread by done. cbn.
    rewrite payload_enter, enter_unjoined, Hcur1'.
    unfold write_back_source.
    cbn [_elasticAdd set_pPMatrixCache]. rewrite enter_elasticAdd.
    reflexivity. }
  unfold w'. rewrite Hround. cbn. autorewrite with enter.
  rewrite Hrowp. cbn.
  repeat split; cbn; autorewrite with enter; auto.
  now rewrite <- enter_nCacheIdx.
Qed.

(** The round with pipeline whose thread reads the counter at once. *)
Lemma ModelSync_pipelined w nodes :
  wf w -> device_ok w -> matches w nodes -> _isPipeline w = true ->
  let old := Z.to_nat (_nCacheIdx w) in
  let cur := (1 - old)%nat in
  let x := exchange (entered w) (getUpdateCoefficient (entered w))
             (flat nodes ++ drop (L w) (_pDelta w))
             (slot (_pPCache w) cur) in
  let w' := fst (ModelSync w nodes) in
  snd (ModelSync w nodes) = default [] (_pPMatrixCache w !! old)
  /\ _nCacheIdx w' = Z.of_nat cur
  /\ _adaptor w' = x.1.1
  /\ _pDelta w' = x.1.2
  /\ _pPCache w' = <[cur := x.2]> (_pPCache w)
  /\ _pPMatrixCache w'
     = <[cur := shaped_like nodes
                 (payload w (write_back_source w x.1.2 x.2))]>
         (_pPMatrixCache w)
  /\ _pThread w' = started (Z.of_nat cur)
  /\ _unjoined w' = _unjoined w
  /\ _commCnt w' = to_size_t (_commCnt w + 1)
  /\ _pTempForServer w' = _pTempForServer w
  /\ _pTempForLocal w' = _pTempForLocal w
  /\ same_plan w w'.
Proof. exact (ModelSync_at_pipelined w nodes false). Qed.
End Pipeline.

(** ** The invariant and the written-back values, with pipeline *)

Section PipelineClaims.
Context {ElemType : Type} `{!Element ElemType}.
Implicit Types (w : MultiversoWrapper ElemType).
Implicit Types (nodes : list (Matrix ElemType)).

Local Abbreviation L w := (Z.to_nat (_lTotalLength w)).
Local Abbreviation entered w := (ModelSync_rotate (ModelSync_enter w)).

Lemma shaped_sizes w nodes (vals : list ElemType) :
  wf w -> matches w nodes -> (L w <= length vals)%nat ->
  map GetNumElements (shaped_like nodes vals) = _vTableLength w.
Proof.
  intros Hwf Hm Hlen. rewrite <- Hm. unfold GetNumElements, shaped_like.
  rewrite <- !(map_map length Z.of_nat). f_equal.
  apply length_reshape_each.
  rewrite (matches_sum_list w nodes) by done. lia.
Qed.

Lemma wf_ModelSync_at_pipelined w nodes late :
  wf w -> device_ok w -> matches w nodes -> _isPipeline w = true ->
  wf (fst (ModelSync_at w nodes late))
  /\ device_ok (fst (ModelSync_at w nodes late))
  /\ same_plan w (fst (ModelSync_at w nodes late)).
Proof.
  intros Hwf Hdev Hm Hp.
  destruct (ModelSync_at_pipelined w nodes late Hwf Hdev Hm Hp)
    as (_ & Hidx & _ & Hdelta & Hcache & Hdevice & _ & _ & _ & Hts & Htl
        & Hplan).
  pose proof (matches_total w nodes Hwf Hm) as HL.
  pose proof (wf_nslots w Hwf) as Hn. rewrite Hp in Hn.
  pose proof (wf_current w Hwf) as Hcur. rewrite Hn in Hcur.
  pose proof (wf_delta w Hwf) as Hd.
  set (cur := (1 - Z.to_nat (_nCacheIdx w))%nat) in *.
  assert (length (slot (_pPCache w) cur) = S (L w)) as Hslot.
  { apply wf_slot_length; [done|]. rewrite (wf_slots w Hwf), Hn. lia. }
  destruct (exchange_lengths (entered w) (thread_getUpdateCoefficient (entered w) late)
              (flat nodes) (drop (L w) (_pDelta w)) (slot (_pPCache w) cur))
    as (_ & Hxd & Hxc);
    autorewrite with enter; auto using wf_enter; [rewrite length_drop; lia|].
  autorewrite with enter in Hxd, Hxc.
  split; [|split; [|exact Hplan]].
  - eapply wf_frame; [exact Hwf | exact Hplan | ..].
    + now rewrite Hdelta.
    + rewrite Hts. apply (wf_server w Hwf).
    + rewrite Htl. apply (wf_local w Hwf).
    + now rewrite Hcache, length_insert.
    + rewrite Hcache. now apply Forall_insert_slot.
    + rewrite Hidx, Hn. lia.
  - destruct Hdev as [Hlen Hrows].
    pose proof Hplan as (Pl & _ & _ & _ & _ & _ & _ & Pn & _).
    split; rewrite Hdevice, ?Pl, ?Pn.
    + now rewrite length_insert.
    + apply Forall_insert; [done|].
      apply shaped_sizes; auto.
      unfold payload, write_back_source.
      rewrite length_take. destruct (IEEE.le _ _); lia.
Qed.

Lemma wf_ModelSync_pipelined w nodes :
  wf w -> device_ok w -> matches w nodes -> _isPipeline w = true ->
  wf (fst (ModelSync w nodes))
  /\ device_ok (fst (ModelSync w nodes))
  /\ same_plan w (fst (ModelSync w nodes)).
Proof. exact (wf_ModelSync_at_pipelined w nodes false). Qed.

Lemma ModelSync_at_sequential w nodes late :
  _isPipeline w = false -> ModelSync_at w nodes late = ModelSync w nodes.
Proof.
  intros Hp. unfold ModelSync, ModelSync_at.
  now rewrite enter_isPipeline, Hp.
Qed.

(** C3 (amended).  In a round of [ModelSync] under elastic averaging,
    with or without pipeline and whenever the thread of a round with
    pipeline reads the round counter, the exchange first calls
    [BatchLoad], which brings the merged snapshot into the cache slot of
    the round (slot 0 without pipeline, the slot the index has rotated
    to with pipeline), and only then calls [Add], once for each
    partition; what is pushed is the cache slot, which by then holds
    the local snapshot minus the merged snapshot, and the factor is
    [(float) _elasticAdd], whatever factor the coefficient policy
    gives; after the push the delta buffer holds the local snapshot minus
    the pushed difference, local - (local - merged), and these are the
    values written back: to the model by the same call without
    pipeline, and with pipeline to the slot of the device cache, from
    which the next call writes them to the model. *)
Theorem ModelSync_elastic_averaging w nodes late :
  wf w -> (_isPipeline w = true -> device_ok w) -> matches w nodes ->
  IEEE.le (_elasticAdd w) IEEE.dzero = false ->
  let w' := fst (ModelSync_at w nodes late) in
  let current := Z.to_nat (_nCacheIdx w') in
  let merged := pulled w (calls (_adaptor w)) in
  let diff := zip_with minus (flat nodes) merged in
  let residual := zip_with minus (flat nodes) diff in
  let factor := IEEE.float_of_double (_elasticAdd w) in
  current
  = (if _isPipeline w then (1 - Z.to_nat (_nCacheIdx w))%nat else 0%nat)
  /\ calls (_adaptor w')
     = calls (_adaptor w) ++ [pull w]
       ++ pushes w (slot (_pPCache w') current) factor
  /\ length (pushes w (slot (_pPCache w') current) factor)
     = Z.to_nat (_nClients w)
  /\ (forall row, (row < Z.to_nat (_nClients w))%nat ->
        pushes w (slot (_pPCache w') current) factor !! row
        = Some (Add 0 (Z.of_nat row)
                  (drop (Z.to_nat (at_index (_pIdxEachServer w) row))
                        (slot (_pPCache w') current))
                  factor))
  /\ payload w (slot (_pPCache w') current) = diff
  /\ payload w (_pDelta w') = residual
  /\ (_isPipeline w = false ->
        snd (ModelSync_at w nodes late) = shaped_like nodes residual)
  /\ (_isPipeline w = true ->
        _pPMatrixCache w' !! current = Some (shaped_like nodes residual)
        /\ forall nodes2 late2, matches w nodes2 ->
             snd (ModelSync_at w' nodes2 late2) = shaped_like nodes residual)
  /\ (forall f f' (delta cache : list ElemType),
        exchange w f delta cache = exchange w f' delta cache).
Proof.
  intros Hwf Hdev Hm He w' current merged diff residual factor.
  pose proof (matches_total w nodes Hwf Hm) as HL.
  pose proof (wf_nslots w Hwf) as Hn.
  pose proof (wf_slots w Hwf) as Hslots.
  pose proof (wf_current w Hwf) as Hcur.
  pose proof (wf_delta w Hwf) as Hd.
  assert (length merged = L w) as Hmerged by now apply length_pulled.
  assert (length diff = L w) as Hdiff
    by (unfold diff; rewrite length_zip_with; lia).
  assert (length residual = L w) as Hres
    by (unfold residual; rewrite length_zip_with; lia).
  assert (forall f f' (delta cache : list ElemType),
            exchange w f delta cache = exchange w f' delta cache) as Hany
    by (intros f f' delta cache; unfold exchange; now rewrite He).
  set (cur := if _isPipeline w then (1 - Z.to_nat (_nCacheIdx w))%nat
              else 0%nat).
  assert (current = cur
          /\ calls (_adaptor w')
             = calls (_adaptor w) ++ [pull w]
               ++ pushes w (diff ++ drop (L w) (slot (_pPCache w) cur)) factor
          /\ slot (_pPCache w') cur
             = diff ++ drop (L w) (slot (_pPCache w) cur)
          /\ _pDelta w' = residual ++ drop (L w) (_pDelta w)
          /\ (_isPipeline w = false ->
                snd (ModelSync_at w nodes late) = shaped_like nodes residual)
          /\ (_isPipeline w = true ->
                _pPMatrixCache w' !! cur = Some (shaped_like nodes residual)))
    as (Hcurrent & Hcalls & Hslot & Hdelta & Hseq & Hpipe).
  { unfold cur. destruct (_isPipeline w) eqn:Hp.
    - destruct (ModelSync_at_pipelined w nodes late Hwf (Hdev eq_refl) Hm Hp)
        as (_ & Hidx & Hadaptor & Hdelta & Hcache & Hdevice & _).
      fold w' in Hidx, Hadaptor, Hdelta, Hcache, Hdevice.
      set (c := (1 - Z.to_nat (_nCacheIdx w))%nat) in *.
      assert (c < length (_pPCache w))%nat as Hlt
        by (rewrite Hslots, Hn; unfold c; lia).
      assert (length (slot (_pPCache w) c) = S (L w)) as Hlen
        by now apply wf_slot_length.
      rewrite exchange_elastic in Hadaptor, Hdelta, Hcache, Hdevice;
        autorewrite with enter; auto using wf_enter.
      cbn [fst snd] in Hadaptor, Hdelta, Hcache, Hdevice.
      rewrite pushes_enter, pull_enter, pulled_enter in Hadaptor.
      rewrite pulled_enter in Hdelta, Hcache, Hdevice.
      autorewrite with enter in Hadaptor, Hdelta, Hcache, Hdevice.
      fold merged in Hadaptor, Hdelta, Hcache, Hdevice.
      fold diff in Hadaptor, Hdelta, Hcache, Hdevice.
      fold residual in Hdelta, Hdevice.
      split; [unfold current; rewrite Hidx; apply Nat2Z.id|].
      split; [now rewrite Hadaptor|].
      split; [rewrite Hcache; now apply slot_insert|].
      split; [exact Hdelta|]. split; [discriminate|]. intros _.
      rewrite Hdevice. unfold write_back_source. rewrite He.
      rewrite payload_app by done.
      apply list_lookup_insert_eq.
      destruct (Hdev eq_refl) as [Hrows _]. rewrite Hrows, Hn. unfold c. lia.
    - pose proof (ModelSync_sequential_elastic w nodes Hwf Hm Hp He) as Hround.
      cbv zeta in Hround. fold merged in Hround. fold diff in Hround.
      fold residual in Hround.
      unfold current, w'. rewrite ModelSync_at_sequential by done.
      rewrite Hround. cbn [fst snd].
      assert (0 < length (_pPCache w))%nat as H0
        by (rewrite Hslots, Hn; lia).
      split.
      { cbn. autorewrite with enter.
        pose proof (wf_state w Hwf) as Hst. rewrite Hp in Hst.
        rewrite Hst, Hn in *.
        replace (_nCacheIdx w) with 0 by lia. reflexivity. }
      split; [reflexivity|].
      split; [cbn; now apply slot_insert|].
      split; [reflexivity|]. split; [reflexivity|discriminate]. }
  fold cur. rewrite Hcurrent, Hslot.
  split; [reflexivity|]. split; [exact Hcalls|].
  split; [unfold pushes, add_rows; now rewrite length_map, length_seq|].
  split; [intros row Hrow; unfold pushes; now apply lookup_add_rows|].
  split; [now apply payload_app|].
  split; [rewrite Hdelta; now apply payload_app|].
  split; [exact Hseq|]. split; [|exact Hany].
  intros Hp. split; [exact (Hpipe Hp)|].
  intros nodes2 late2 Hm2.
  destruct (wf_ModelSync_at_pipelined w nodes late Hwf (Hdev Hp) Hm Hp)
    as (Hwf' & Hdev' & Hplan).
  fold w' in Hwf', Hdev', Hplan.
  destruct (same_plan_flags w w' Hplan) as [Hp' _]. rewrite Hp in Hp'.
  destruct (ModelSync_at_pipelined w' nodes2 late2 Hwf' Hdev'
              (same_plan_matches w w' nodes2 Hplan Hm2) Hp') as (Hsnd & _).
  rewrite Hsnd. fold current. rewrite Hcurrent, (Hpipe Hp). reflexivity.
Qed.

(** C9 (amended).  With pipeline, the values [ModelSync] writes to the
    model before it returns are those of the partner slot of the device
    cache, the slot of index (current + 1) mod 2 where current is the
    slot index after the rotation; in the first round after [ModelInit]
    they are the initial model that [ModelInit] mirrored.  Under delta
    accumulation the transfer of a round leaves in its slot the values
    its [BatchLoad] brought, so the next round writes back the merged
    result of the round before it.  Under elastic averaging the transfer
    leaves in its slot the delta buffer, local - (local - merged), and
    that is what the next round writes back. *)
Theorem ModelSync_pipelined_staleness w nodes nodes2 :
  wf w -> device_ok w -> matches w nodes -> matches w nodes2 ->
  _isPipeline w = true ->
  let w' := fst (ModelSync w nodes) in
  let current := Z.to_nat (_nCacheIdx w') in
  let partner := ((current + 1) mod 2)%nat in
  let factor :=
    updateCoefficient (_adjustlearningrateatbeginningtype w)
      (_adjustcoefficient w) (_adjustnbmb w) (to_size_t (_commCnt w + 1)) in
  snd (ModelSync w nodes) = default [] (_pPMatrixCache w !! partner)
  /\ (forall model0,
        _pPMatrixCache w = replicate 2 model0 ->
        snd (ModelSync w nodes) = model0)
  /\ (IEEE.le (_elasticAdd w) IEEE.dzero = true ->
        let before := calls (_adaptor w) ++ pushes w (_pDelta w') factor in
        calls (_adaptor w') = before ++ [pull w]
        /\ snd (ModelSync w' nodes2) = shaped_like nodes (pulled w before))
  /\ (IEEE.le (_elasticAdd w) IEEE.dzero = false ->
        let merged := pulled w (calls (_adaptor w)) in
        let diff := zip_with minus (flat nodes) merged in
        snd (ModelSync w' nodes2)
        = shaped_like nodes (zip_with minus (flat nodes) diff)).
Proof.
  intros Hwf Hdev Hm Hm2 Hp w' current partner factor.
  destruct (ModelSync_pipelined w nodes Hwf Hdev Hm Hp)
    as (Hsnd & Hidx & Hadaptor & Hdelta & Hcache & Hdevice & _).
  destruct (wf_ModelSync_pipelined w nodes Hwf Hdev Hm Hp)
    as (Hwf' & Hdev' & Hplan).
  fold w' in Hidx, Hadaptor, Hdelta, Hcache, Hdevice, Hwf', Hdev', Hplan.
  pose proof (matches_total w nodes Hwf Hm) as HL.
  pose proof (wf_nslots w Hwf) as Hn. rewrite Hp in Hn.
  pose proof (wf_current w Hwf) as Hcur. rewrite Hn in Hcur.
  pose proof (wf_delta w Hwf) as Hd.
  set (old := Z.to_nat (_nCacheIdx w)) in *.
  set (cur := (1 - old)%nat) in *.
  assert (current = cur) as Hcurrent
    by (unfold current; rewrite Hidx; apply Nat2Z.id).
  assert (partner = old) as Hpartner.
  { unfold partner. rewrite Hcurrent. unfold cur.
    assert (old = 0 \/ old = 1)%nat as [-> | ->] by (unfold old; lia);
      reflexivity. }
  assert (cur < length (_pPMatrixCache w))%nat as Hcurlt
    by (destruct Hdev as [-> _]; rewrite Hn; unfold cur; lia).
  assert (length (slot (_pPCache w) cur) = S (L w)) as Hslot.
  { apply wf_slot_length; [done|]. rewrite (wf_slots w Hwf), Hn.
    unfold cur. lia. }
  assert (getUpdateCoefficient (entered w) = factor) as Hfactor
    by (unfold getUpdateCoefficient; now autorewrite with enter).
  (* the next round writes back the slot this round's transfer filled *)
  assert (snd (ModelSync w' nodes2)
          = shaped_like nodes
              (payload w
                 (write_back_source w (_pDelta w')
                    (slot (_pPCache w') cur)))) as Hnext.
  { destruct (same_plan_flags _ _ Hplan) as [Hp' _].
    destruct (ModelSync_pipelined w' nodes2 Hwf' Hdev'
                (same_plan_matches w w' nodes2 Hplan Hm2)
                ltac:(congruence)) as (Hsnd' & _).
    rewrite Hsnd', Hidx, Nat2Z.id, Hdevice.
    rewrite list_lookup_insert_eq by done. cbn [default].
    rewrite Hdelta, Hcache, slot_insert; [reflexivity|].
    rewrite (wf_slots w Hwf), Hn. unfold cur. lia. }
  split; [now rewrite Hpartner|]. split; [|split].
  - intros model0 Hmirror. rewrite Hsnd, Hmirror.
    fold old. assert (old = 0 \/ old = 1)%nat as [-> | ->]
      by (unfold old; lia); reflexivity.
  - intros He before.
    pose proof (exchange_delta (entered w) factor (flat nodes)
                  (drop (L w) (_pDelta w)) (slot (_pPCache w) cur)) as Hx.
    cbv zeta in Hx. autorewrite with enter in Hx.
    rewrite pushes_enter, pull_enter, pulled_enter, payload_enter in Hx.
    specialize (Hx (wf_enter w Hwf) He (eq_sym HL) Hslot).
    rewrite Hfactor, Hx in Hadaptor, Hdelta, Hcache. cbn in Hadaptor, Hdelta, Hcache.
    assert (before
            = calls (_adaptor w)
              ++ pushes w
                   (zip_with minus (flat nodes)
                      (payload w (slot (_pPCache w) cur))
                    ++ drop (L w) (_pDelta w)) factor) as Hbefore
      by (unfold before; now rewrite Hdelta).
    split; [now rewrite Hadaptor, Hbefore|].
    rewrite Hnext. unfold write_back_source. rewrite He, Hcache.
    rewrite slot_insert
      by (rewrite (wf_slots w Hwf), Hn; unfold cur; lia).
    rewrite payload_app by now apply length_pulled.
    now rewrite Hbefore.
  - intros He merged diff.
    pose proof (exchange_elastic (entered w) factor (flat nodes)
                  (drop (L w) (_pDelta w)) (slot (_pPCache w) cur)) as Hx.
    cbv zeta in Hx. autorewrite with enter in Hx.
    rewrite pushes_enter, pull_enter, pulled_enter in Hx.
    specialize (Hx (wf_enter w Hwf) He (eq_sym HL) Hslot).
    rewrite Hfactor, Hx in Hdelta. cbn in Hdelta.
    rewrite Hnext. unfold write_back_source. rewrite He, Hdelta.
    rewrite payload_app; [reflexivity|].
    rewrite !length_zip_with, length_pulled by done. lia.
Qed.
End PipelineClaims.

(** ** Saving and restoring the local model *)

Section LoadClaims.
Context {ElemType : Type} `{!Element ElemType}.
Implicit Types (w : MultiversoWrapper ElemType).
Implicit Types (nodes : list (Matrix ElemType)).

(** C10.  For every tensor list (of the sizes the wrapper was constructed
    for), [ModelLoadServer] copies the local model to [_pTempForLocal]
    before it replaces the tensors by the snapshot that [BatchLoad]
    brings into [_pTempForServer], and [ModelLoadBack], called next,
    writes [_pTempForLocal] back: every tensor has again the values it
    had before [ModelLoadServer], and the wrapper is not changed by
    [ModelLoadBack]. *)
Theorem ModelLoadServer_ModelLoadBack w nodes :
  wf w -> matches w nodes ->
  let w1 := fst (ModelLoadServer w nodes) in
  let nodes1 := snd (ModelLoadServer w nodes) in
  payload w (_pTempForLocal w1) = flat nodes
  /\ calls (_adaptor w1) = calls (_adaptor w) ++ [pull w]
  /\ payload w (_pTempForServer w1) = pulled w (calls (_adaptor w))
  /\ nodes1 = shaped_like nodes (pulled w (calls (_adaptor w)))
  /\ snd (ModelLoadBack w1 nodes1) = nodes
  /\ fst (ModelLoadBack w1 nodes1) = w1.
Proof.
  intros Hwf Hm w1 nodes1.
  pose proof (matches_total w nodes Hwf Hm) as HL.
  pose proof (matches_sum_list w nodes Hwf Hm) as HS.
  pose proof (wf_local w Hwf) as Hlocal.
  pose proof (wf_server w Hwf) as Hserver.
  assert (length (pulled w (calls (_adaptor w))) = Z.to_nat (_lTotalLength w))
    as Hpulled by now apply length_pulled.
  assert (ModelLoadServer w nodes
          = (set_pTempForServer
               (set_adaptor
                  (set_pTempForLocal w
                     (flat nodes
                      ++ drop (Z.to_nat (_lTotalLength w)) (_pTempForLocal w)))
                  (record_call (_adaptor w) (pull w)))
               (pulled w (calls (_adaptor w))
                ++ drop (Z.to_nat (_lTotalLength w)) (_pTempForServer w)),
             shaped_like nodes (pulled w (calls (_adaptor w))))) as Hload.
  { unfold ModelLoadServer.
    rewrite gather, batch_load by done.
    rewrite scatter by (auto; rewrite length_app; lia).
    now rewrite payload_app. }
  unfold w1, nodes1. rewrite Hload. cbn [fst snd].
  repeat split; cbn.
  - apply payload_app. lia.
  - now apply payload_app.
  - apply scatter_gathered; [done | |].
    + apply shaped_sizes; auto. lia.
    + symmetry. apply length_reshape_each. lia.
Qed.
End LoadClaims.

(** ** Transfers in flight *)

Section InFlight.
Context {ElemType : Type} `{!Element ElemType}.
Implicit Types (w : MultiversoWrapper ElemType).
Implicit Types (nodes : list (Matrix ElemType)).

Lemma orderly_new store nodes localWorkerNumber isPipeline momentumAdd
    elasticAdd adjusttype adjustcoef adjustnbmb w :
  MultiversoWrapper_new store nodes localWorkerNumber isPipeline
    momentumAdd elasticAdd adjusttype adjustcoef adjustnbmb = Returned w ->
  orderly w.
Proof.
  unfold MultiversoWrapper_new. destruct (IEEE.ne _ _); [discriminate|].
  intros [= <-]. split; cbn; [reflexivity|discriminate].
Qed.

Lemma ModelInit_threads w nodes :
  _pThread (ModelInit w nodes) = _pThread w
  /\ _unjoined (ModelInit w nodes) = _unjoined w
  /\ _isPipeline (ModelInit w nodes) = _isPipeline w.
Proof.
  unfold ModelInit. destruct (ModelInit_each _ _ _ _ _ _) as [c b].
  cbn. auto.
Qed.

Lemma transfer_threads w late :
  _pThread (transfer_at w late) = _pThread w
  /\ _unjoined (transfer_at w late) = _unjoined w
  /\ _isPipeline (transfer_at w late) = _isPipeline w
  /\ _nCacheIdx (transfer_at w late) = _nCacheIdx w.
Proof.
  unfold transfer_at. destruct (exchange _ _ _ _) as [[a d] c]. cbn. auto.
Qed.

Lemma ModelSync_at_threads w nodes late :
  orderly w ->
  let w' := fst (ModelSync_at w nodes late) in
  _isPipeline w' = _isPipeline w
  /\ _unjoined w' = []
  /\ (if _isPipeline w then _pThread w' = started (_nCacheIdx w')
      else _pThread w' = _pThread w).
Proof.
  intros [Hun Hjoin] w'. unfold w', ModelSync_at.
  rewrite enter_isPipeline.
  destruct (_isPipeline w) eqn:Hp.
  - destruct (swap_each _ _ _ _ _) as [cache nodes'].
    cbn [fst]. unfold spawn_transfer_at.
    set (w2 := set_pPMatrixCache _ cache).
    destruct (transfer_threads w2 late) as (Ht & Hu & Hi & Hc).
    cbn. rewrite Ht, Hu, Hi. unfold w2. cbn.
    rewrite enter_pThread, enter_unjoined, enter_isPipeline by done.
    cbn. rewrite Hp, Hun. auto.
  - destruct (exchange _ _ _ _) as [[a d] c]. cbn.
    rewrite enter_unjoined, enter_isPipeline.
    repeat split; auto.
    unfold ModelSync_rotate, ModelSync_enter, join_previous. cbn.
    rewrite Hp. reflexivity.
Qed.

Lemma ModelSync_threads w nodes :
  orderly w ->
  let w' := fst (ModelSync w nodes) in
  _isPipeline w' = _isPipeline w
  /\ _unjoined w' = []
  /\ (if _isPipeline w then _pThread w' = started (_nCacheIdx w')
      else _pThread w' = _pThread w).
Proof. exact (ModelSync_at_threads w nodes false). Qed.

Lemma orderly_reachable w : reachable w -> orderly w.
Proof.
  induction 1 as [? ? ? ? ? ? ? ? ? w Hnew | w nodes _ IH | w nodes late _ IH
                  | w nodes _ IH | w nodes _ IH].
  - eapply orderly_new; eauto.
  - destruct (ModelInit_threads w nodes) as (Ht & Hu & Hp).
    unfold orderly. rewrite Ht, Hu, Hp. exact IH.
  - destruct (ModelSync_at_threads w nodes late IH) as (Hp & Hu & Ht).
    split; [exact Hu|]. rewrite Hp.
    destruct (_isPipeline w) eqn:E; [auto|].
    rewrite Ht. intros Hj. rewrite <- E. now apply IH.
  - exact IH.
  - exact IH.
Qed.

End InFlight.

(** ** Comparisons of floating-point numbers *)

Section Comparisons.
Implicit Types (a b x : spec_float).

Lemma lt_le a b : IEEE.lt a b = true -> IEEE.le a b = true.
Proof.
  unfold IEEE.lt, IEEE.le, SFltb, SFleb.
  now destruct (SFcompare a b) as [[]|].
Qed.

Lemma compare_cont_Eq_antisym (p q : positive) :
  Pos.compare_cont Eq q p = CompOpp (Pos.compare_cont Eq p q).
Proof. now rewrite Pos.compare_cont_antisym. Qed.

Lemma SFcompare_antisym a b c :
  SFcompare a b = Some c -> SFcompare b a = Some (CompOpp c).
Proof.
  destruct a as [sa|sa| |sa ma ea], b as [sb|sb| |sb mb eb]; cbn;
    try discriminate;
    try (destruct sa; intros [= <-]; reflexivity);
    try (destruct sb; intros [= <-]; reflexivity);
    try (destruct sa, sb; intros [= <-]; reflexivity).
  intros [= <-]. f_equal.
  destruct sa, sb; try reflexivity;
    rewrite (Z.compare_antisym ea eb);
    destruct (ea ?= eb); cbn; try reflexivity;
    rewrite (compare_cont_Eq_antisym ma mb);
    now rewrite ?CompOpp_involutive.
Qed.

Lemma SFcompare_refl a : IEEE.is_nan a = false -> SFcompare a a = Some Eq.
Proof.
  destruct a as [s|s| |s m e]; cbn; try discriminate; intros _;
    try (now destruct s).
  f_equal. destruct s; rewrite Z.compare_refl, Pos.compare_cont_refl;
    reflexivity.
Qed.

Lemma SFcompare_total a b :
  IEEE.is_nan a = false -> IEEE.is_nan b = false ->
  exists c, SFcompare a b = Some c.
Proof.
  destruct a as [sa|sa| |sa ma ea], b as [sb|sb| |sb mb eb]; cbn;
    try discriminate; eauto.
Qed.

Lemma SFcompare_zero_Eq x :
  SFcompare IEEE.fzero x = Some Eq -> exists s, x = S754_zero s.
Proof.
  destruct x as [s|s| |s m e]; cbn; try discriminate; eauto;
    destruct s; discriminate.
Qed.

(** [min(1, max(0, x))] lies in [[0, 1]], whatever [x] is. *)
Lemma min_max_in_unit_interval x :
  in_unit_interval (IEEE.min IEEE.fone (IEEE.max IEEE.fzero x)).
Proof.
  unfold in_unit_interval, IEEE.min, IEEE.max.
  destruct (IEEE.lt IEEE.fzero x) eqn:H0.
  - destruct (IEEE.lt x IEEE.fone) eqn:H1.
    + split; now apply lt_le.
    + split; reflexivity.
  - change (IEEE.lt IEEE.fzero IEEE.fone) with true. cbn iota.
    split; reflexivity.
Qed.

(** On a NaN the source's clamp gives 0. *)
Lemma min_max_nan x :
  IEEE.is_nan x = true -> IEEE.min IEEE.fone (IEEE.max IEEE.fzero x) = IEEE.fzero.
Proof. destruct x; try discriminate. reflexivity. Qed.

(** On a number the source's clamp is the clamp to [[0, 1]]. *)
Lemma min_max_clamp x :
  IEEE.is_nan x = false ->
  same_number (IEEE.min IEEE.fone (IEEE.max IEEE.fzero x))
              (clamp x IEEE.fzero IEEE.fone).
Proof.
  intros Hx.
  unfold same_number, clamp, IEEE.min, IEEE.max, IEEE.lt, SFltb, SFeqb.
  pose proof (eq_refl : SFcompare IEEE.fzero IEEE.fone = Some Lt) as F1.
  pose proof (eq_refl : SFcompare IEEE.fone IEEE.fone = Some Eq) as F2.
  assert (forall s, SFcompare (S754_zero s) IEEE.fone = Some Lt) as F3
    by (intros []; reflexivity).
  destruct (SFcompare_total IEEE.fzero x eq_refl Hx) as [c0 H0].
  destruct (SFcompare_total x IEEE.fone Hx eq_refl) as [c1 H1].
  pose proof (SFcompare_antisym _ _ _ H0) as H0'.
  pose proof (SFcompare_antisym _ _ _ H1) as H1'.
  pose proof (SFcompare_refl x Hx) as Hxx.
  remember IEEE.fone as one eqn:Hone. clear Hone.
  rewrite H0, H0'.
  destruct c0; cbn [CompOpp].
  - (* x is a zero *)
    destruct (SFcompare_zero_Eq x H0) as [s ->].
    rewrite F1. rewrite F3 in H1. injection H1 as <-.
    rewrite H1'. cbn [CompOpp]. now destruct s.
  - rewrite H1, H1'. destruct c1; cbn [CompOpp].
    + now rewrite H1'.
    + now rewrite Hxx.
    + now rewrite F2.
  - (* x is negative *)
    now rewrite F1.
Qed.
End Comparisons.

(** ** The coefficient policy *)

Section Policy.
Context {ElemType : Type} `{!Element ElemType}.
Implicit Types (w : MultiversoWrapper ElemType).

(** C6 (amended).  For every round index the coefficient policy returns
    a scalar in [[0, 1]] ([_adjustnbmb] being nonzero under [Staircase],
    where the source divides by it): the constant 1.0 for [None]; for
    [Linearly], the clamp to [[0, 1]] of
    [adjustCoefficient + (1-adjustCoefficient)/rampRounds * roundIndex],
    and 0 when that value is a NaN; for [Staircase], the same of
    [adjustCoefficient * (floor(roundIndex/rampRounds) + 1)] as long as
    [floor(roundIndex/rampRounds) + 1] is a [size_t].  The result is a
    function of the round counter and of the three configuration
    members only. *)
Theorem getUpdateCoefficient_policy w :
  (_adjustlearningrateatbeginningtype w = AdjustLearningRateatBeginning.Staircase ->
   0 < _adjustnbmb w) ->
  let f := getUpdateCoefficient w in
  let a := _adjustcoefficient w in
  let n := _adjustnbmb w in
  let r := _commCnt w in
  in_unit_interval f
  /\ (_adjustlearningrateatbeginningtype w = AdjustLearningRateatBeginning.None ->
        f = IEEE.fone)
  /\ (_adjustlearningrateatbeginningtype w = AdjustLearningRateatBeginning.Linearly ->
        (IEEE.is_nan (Linearly_ramp a n r) = false ->
           same_number f (clamp (Linearly_ramp a n r) IEEE.fzero IEEE.fone))
        /\ (IEEE.is_nan (Linearly_ramp a n r) = true -> f = IEEE.fzero))
  /\ (_adjustlearningrateatbeginningtype w = AdjustLearningRateatBeginning.Staircase ->
        0 <= r -> r / n + 1 < size_t_modulus ->
        (IEEE.is_nan (Staircase_ramp a n r) = false ->
           same_number f (clamp (Staircase_ramp a n r) IEEE.fzero IEEE.fone))
        /\ (IEEE.is_nan (Staircase_ramp a n r) = true -> f = IEEE.fzero))
  /\ (forall w' : MultiversoWrapper ElemType,
        _adjustlearningrateatbeginningtype w' = _adjustlearningrateatbeginningtype w ->
        _adjustcoefficient w' = a -> _adjustnbmb w' = n -> _commCnt w' = r ->
        getUpdateCoefficient w' = f).
Proof.
  intros Hn f a n r. unfold f, getUpdateCoefficient. fold a n r.
  split; [|split; [|split; [|split]]].
  - unfold updateCoefficient.
    destruct (_adjustlearningrateatbeginningtype w);
      [split; reflexivity | apply min_max_in_unit_interval..].
  - now intros ->.
  - intros ->. cbn [updateCoefficient]. fold (Linearly_ramp a n r).
    split; [apply min_max_clamp | apply min_max_nan].
  - intros Ht Hr Hwrap. specialize (Hn Ht). rewrite Ht.
    cbn [updateCoefficient].
    assert (0 <= r / n) by (apply Z.div_pos; lia).
    rewrite to_size_t_small by lia. fold (Staircase_ramp a n r).
    split; [apply min_max_clamp | apply min_max_nan].
  - intros w' -> -> -> ->. reflexivity.
Qed.
End Policy.

(** * Rounding is monotone

    Every operation of [SpecFloat] ends in [binary_round_aux], which
    shifts an exact mantissa to the exponent of the format and rounds it
    to the nearest even.  This part shows, on integers only, that the
    result is a number of the format and that it does not decrease when
    the exact value increases; the ramp policy inherits its monotonicity
    from that. *)

(** ** Binary digits *)

Section Digits.
Implicit Types (m j k : Z).

Lemma pow2_pos k : 0 <= k -> 0 < 2 ^ k.
Proof. intros. apply Z.pow_pos_nonneg; lia. Qed.

Lemma digits2_pos_size p : digits2_pos p = Pos.size p.
Proof. induction p; simpl; congruence. Qed.

Lemma Zdigits2_log2 m : 0 < m -> Zdigits2 m = Z.log2 m + 1.
Proof.
  destruct m as [|p|p]; try lia. intros _.
  simpl Zdigits2. rewrite digits2_pos_size.
  destruct p; simpl; lia.
Qed.

Lemma Zdigits2_nonneg m : 0 <= Zdigits2 m.
Proof. destruct m; simpl; lia. Qed.

Lemma Zdigits2_pos m : 0 < m -> 0 < Zdigits2 m.
Proof. destruct m; simpl; lia. Qed.

Lemma Zdigits2_upper m : 0 <= m -> m < 2 ^ Zdigits2 m.
Proof.
  intros Hm. destruct (Z.eq_dec m 0) as [->|]; [reflexivity|].
  rewrite Zdigits2_log2 by lia. apply Z.log2_spec. lia.
Qed.

Lemma Zdigits2_lower m : 0 < m -> 2 ^ (Zdigits2 m - 1) <= m.
Proof.
  intros Hm. rewrite Zdigits2_log2 by lia.
  replace (Z.log2 m + 1 - 1) with (Z.log2 m) by lia.
  now apply Z.log2_spec.
Qed.

Lemma Zdigits2_le_of_lt_pow m j : 0 <= m -> 0 <= j -> m < 2 ^ j -> Zdigits2 m <= j.
Proof.
  intros Hm Hj H. destruct (Z.eq_dec m 0) as [->|]; [exact Hj|].
  rewrite Zdigits2_log2 by lia.
  apply Z.log2_lt_pow2 in H; lia.
Qed.

Lemma Zdigits2_gt_of_ge_pow m j : 0 <= j -> 2 ^ j <= m -> j < Zdigits2 m.
Proof.
  intros Hj H.
  assert (0 < m) by (pose proof (Z.pow_pos_nonneg 2 j); lia).
  rewrite Zdigits2_log2 by lia.
  apply Z.log2_le_pow2 in H; lia.
Qed.

Lemma Zdigits2_mono m1 m2 : 0 <= m1 <= m2 -> Zdigits2 m1 <= Zdigits2 m2.
Proof.
  intros H. destruct (Z.eq_dec m1 0) as [->|]; [apply Zdigits2_nonneg|].
  rewrite !Zdigits2_log2 by lia.
  pose proof (Z.log2_le_mono m1 m2). lia.
Qed.

Lemma Zdigits2_mul_pow m j : 0 < m -> 0 <= j -> Zdigits2 (m * 2 ^ j) = Zdigits2 m + j.
Proof.
  intros Hm Hj.
  assert (0 < m * 2 ^ j) by (pose proof (Z.pow_pos_nonneg 2 j); nia).
  rewrite !Zdigits2_log2, Z.log2_mul_pow2 by lia. lia.
Qed.

Lemma Zdigits2_div_pow m k :
  0 <= m -> 0 <= k -> Zdigits2 (m / 2 ^ k) = Z.max 0 (Zdigits2 m - k).
Proof.
  intros Hm Hk.
  assert (0 < 2 ^ k) as Hp by (apply Z.pow_pos_nonneg; lia).
  destruct (Z.lt_ge_cases m (2 ^ k)) as [H|H].
  - rewrite Z.div_small by lia.
    pose proof (Zdigits2_le_of_lt_pow m k Hm Hk H). simpl. lia.
  - assert (0 < m / 2 ^ k) by (apply Z.div_str_pos; lia).
    pose proof (Zdigits2_gt_of_ge_pow m k Hk H).
    rewrite (Zdigits2_log2 (m / 2 ^ k)) by lia.
    rewrite <- Z.shiftr_div_pow2, Z.log2_shiftr by lia.
    rewrite (Zdigits2_log2 m) in * by lia. lia.
Qed.

Lemma Zdigits2_mul m1 m2 :
  0 < m1 -> 0 < m2 -> Zdigits2 m1 + Zdigits2 m2 - 1 <= Zdigits2 (m1 * m2).
Proof.
  intros H1 H2. assert (0 < m1 * m2) by nia.
  rewrite (Zdigits2_log2 m1), (Zdigits2_log2 m2), (Zdigits2_log2 (m1 * m2)) by lia.
  pose proof (Z.log2_mul_below m1 m2 H1 H2). lia.
Qed.

Lemma Zdigits2_div a b :
  0 <= a -> 0 < b ->
  Zdigits2 a - Zdigits2 b <= Zdigits2 (a / b) <= Z.max 0 (Zdigits2 a - Zdigits2 b + 1).
Proof.
  intros Ha Hb.
  assert (0 <= a / b) as Hq by (apply Z.div_pos; lia).
  pose proof (Zdigits2_nonneg (a / b)) as Hd.
  pose proof (Zdigits2_upper b ltac:(lia)) as Hbu.
  pose proof (Zdigits2_lower b Hb) as Hbl.
  pose proof (Zdigits2_pos b Hb) as Hbd.
  pose proof (Zdigits2_upper a Ha) as Hau.
  pose proof (Z.mul_div_le a b Hb) as Hmul.
  split.
  - destruct (Z.le_gt_cases (Zdigits2 a - Zdigits2 b) 0) as [|Hj]; [lia|].
    set (j := Zdigits2 a - 1 - Zdigits2 b).
    assert (0 < a) as Ha' by (destruct (Z.eq_dec a 0) as [->|]; [simpl in Hj|]; lia).
    pose proof (Zdigits2_lower a Ha') as Hal.
    assert (2 ^ j <= a / b) as Hlow.
    { apply Z.div_le_lower_bound; [exact Hb|].
      pose proof (pow2_pos j ltac:(lia)).
      replace (Zdigits2 a - 1) with (Zdigits2 b + j) in Hal by lia.
      rewrite Z.pow_add_r in Hal by lia. nia. }
    pose proof (Zdigits2_gt_of_ge_pow (a / b) j ltac:(lia) Hlow). lia.
  - set (J := Zdigits2 a - Zdigits2 b + 1).
    destruct (Z.le_gt_cases 0 J) as [HJ|HJ].
    + assert (a / b < 2 ^ J) as Hup.
      { destruct (Z.lt_ge_cases (a / b) (2 ^ J)) as [|Hge]; [assumption|exfalso].
        replace (Zdigits2 a) with (J + (Zdigits2 b - 1)) in Hau by lia.
        rewrite Z.pow_add_r in Hau by lia.
        pose proof (pow2_pos J HJ). nia. }
      pose proof (Zdigits2_le_of_lt_pow (a / b) J Hq HJ Hup). lia.
    + assert (a / b = 0) as ->; [|simpl; lia].
      destruct (Z.eq_dec (a / b) 0) as [|Hne]; [assumption|exfalso].
      pose proof (Z.pow_le_mono_r 2 (Zdigits2 a) (Zdigits2 b - 1) ltac:(lia) ltac:(lia)).
      nia.
Qed.

Lemma Zdigits2_pow j : 0 <= j -> Zdigits2 (2 ^ j) = j + 1.
Proof.
  intros Hj. replace (2 ^ j) with (1 * 2 ^ j) by lia.
  rewrite Zdigits2_mul_pow by lia. change (Zdigits2 1) with 1. lia.
Qed.

End Digits.

(** ** Rounding to nearest even by shifting *)

Section Shift.
Implicit Types (m k j : Z).

Lemma rne_shift_0 m : rne_shift m 0 = m.
Proof. unfold rne_shift. rewrite Z.pow_0_r, Z.mod_1_r, Z.div_1_r. reflexivity. Qed.

Lemma rne_shift_mono m1 m2 k :
  0 <= k -> m1 <= m2 -> rne_shift m1 k <= rne_shift m2 k.
Proof.
  intros Hk H. pose proof (pow2_pos k Hk) as Hp.
  unfold rne_shift.
  pose proof (Z.div_mod m1 (2 ^ k) ltac:(lia)) as E1.
  pose proof (Z.div_mod m2 (2 ^ k) ltac:(lia)) as E2.
  pose proof (Z.mod_pos_bound m1 (2 ^ k) Hp) as B1.
  pose proof (Z.mod_pos_bound m2 (2 ^ k) Hp) as B2.
  pose proof (Z.div_le_mono m1 m2 (2 ^ k) Hp H) as Hq.
  set (q1 := m1 / 2 ^ k) in *. set (q2 := m2 / 2 ^ k) in *.
  set (r1 := m1 mod 2 ^ k) in *. set (r2 := m2 mod 2 ^ k) in *.
  destruct (Z.eq_dec q1 q2) as [Heq|Hne].
  - rewrite <- Heq in *.
    destruct (Z.compare_spec (2 * r1) (2 ^ k)), (Z.compare_spec (2 * r2) (2 ^ k));
      destruct (Z.even q1); lia.
  - destruct (Z.compare_spec (2 * r1) (2 ^ k)), (Z.compare_spec (2 * r2) (2 ^ k));
      destruct (Z.even q1), (Z.even q2); lia.
Qed.

Lemma rne_shift_scale m k j :
  0 <= k -> 0 <= j -> rne_shift (m * 2 ^ j) (k + j) = rne_shift m k.
Proof.
  intros Hk Hj. pose proof (pow2_pos k Hk). pose proof (pow2_pos j Hj).
  unfold rne_shift.
  rewrite Z.pow_add_r, Z.div_mul_cancel_r, Z.mul_mod_distr_r by lia.
  replace (2 * (m mod 2 ^ k * 2 ^ j)) with (2 * (m mod 2 ^ k) * 2 ^ j) by ring.
  assert ((2 * (m mod 2 ^ k) * 2 ^ j ?= 2 ^ k * 2 ^ j) = (2 * (m mod 2 ^ k) ?= 2 ^ k)) as ->.
  { destruct (Z.compare_spec (2 * (m mod 2 ^ k)) (2 ^ k)) as [E|E|E].
    - rewrite E. apply Z.compare_refl.
    - apply Z.compare_lt_iff. nia.
    - apply Z.compare_gt_iff. nia. }
  reflexivity.
Qed.

(** *** The shift register of [SpecFloat] *)

Lemma iter_pos_nat {A} (f : A -> A) p x :
  SpecFloat.iter_pos f p x = Nat.iter (Pos.to_nat p) f x.
Proof.
  revert x. induction p as [p IH|p IH|]; intros x; simpl SpecFloat.iter_pos.
  - rewrite !IH, Pos2Nat.inj_xI, <- Nat.iter_add, <- Nat.iter_succ_r.
    f_equal. lia.
  - rewrite !IH, Pos2Nat.inj_xO, <- Nat.iter_add. f_equal. lia.
  - reflexivity.
Qed.

Lemma shr_1_nonneg m r s :
  0 <= m ->
  shr_1 {| shr_m := m; shr_r := r; shr_s := s |}
  = {| shr_m := m / 2; shr_r := Z.odd m; shr_s := r || s |}.
Proof.
  intros Hm. rewrite <- Z.div2_div.
  destruct m as [|[p|p|]|]; try lia; reflexivity.
Qed.

Lemma shr_m_iter n rec :
  0 <= shr_m rec ->
  shr_m (Nat.iter n shr_1 rec) = shr_m rec / 2 ^ Z.of_nat n.
Proof.
  intros Hm. induction n as [|n IH].
  - simpl. now rewrite Z.div_1_r.
  - simpl Nat.iter. destruct (Nat.iter n shr_1 rec) as [q r s].
    simpl in IH. subst q.
    pose proof (pow2_pos (Z.of_nat n) ltac:(lia)).
    rewrite shr_1_nonneg by (apply Z.div_pos; lia).
    simpl shr_m. rewrite Z.div_div, Nat2Z.inj_succ, Z.pow_succ_r by lia.
    f_equal. lia.
Qed.

(** Shifting an exact record [n] times leaves the quotient by [2^n] and
    the position of the remainder with respect to the half. *)
Lemma shr_iter_exact n m :
  0 <= m ->
  let rec := Nat.iter n shr_1 {| shr_m := m; shr_r := false; shr_s := false |} in
  let k := Z.of_nat n in
  shr_m rec = m / 2 ^ k
  /\ loc_of_shr_record rec
     = if m mod 2 ^ k =? 0 then loc_Exact
       else loc_Inexact (2 * (m mod 2 ^ k) ?= 2 ^ k).
Proof.
  intros Hm. induction n as [|n IH]; cbv zeta in *.
  - simpl. rewrite Z.div_1_r, Z.mod_1_r. auto.
  - simpl Nat.iter. destruct (Nat.iter n shr_1 _) as [q r s].
    destruct IH as [Hq Hl]. simpl in Hq. subst q.
    pose proof (pow2_pos (Z.of_nat n) ltac:(lia)) as Hp.
    rewrite shr_1_nonneg by (apply Z.div_pos; lia).
    rewrite Nat2Z.inj_succ, Z.pow_succ_r by lia.
    split.
    + simpl shr_m. rewrite Z.div_div by lia. f_equal. lia.
    + rewrite (Z.mul_comm 2 (2 ^ Z.of_nat n)), Z.rem_mul_r by lia.
      rewrite Zmod_odd.
      pose proof (Z.mod_pos_bound m (2 ^ Z.of_nat n) Hp) as B.
      set (rem := m mod 2 ^ Z.of_nat n) in *.
      set (P := 2 ^ Z.of_nat n) in *.
      destruct (Z.odd (m / P)); simpl loc_of_shr_record in *.
      * destruct (Z.eqb_spec (rem + P * 1) 0) as [E|E]; [lia|].
        destruct (Z.eqb_spec rem 0) as [E0|E0].
        -- destruct r, s; try discriminate. cbn [orb].
           replace (2 * (rem + P * 1) ?= P * 2) with Eq; [reflexivity|].
           symmetry. apply Z.compare_eq_iff. lia.
        -- assert (r || s = true) as -> by (destruct r, s; try discriminate; reflexivity).
           replace (2 * (rem + P * 1) ?= P * 2) with Gt; [reflexivity|].
           symmetry. apply Z.compare_gt_iff. lia.
      * replace (rem + P * 0) with rem by lia.
        destruct (Z.eqb_spec rem 0) as [E0|E0].
        -- destruct r, s; try discriminate. reflexivity.
        -- assert (r || s = true) as -> by (destruct r, s; try discriminate; reflexivity).
           replace (2 * rem ?= P * 2) with Lt; [reflexivity|].
           symmetry. apply Z.compare_lt_iff. lia.
Qed.

Lemma round_nearest_even_bounds q l :
  q <= round_nearest_even q l <= q + 1.
Proof. destruct l as [|[]]; simpl; try destruct (Z.even q); lia. Qed.

End Shift.

(** ** Exact values *)

Section Dyadic.
Implicit Types (m e : Z).

Lemma dyadic_le_iff m1 e1 m2 e2 E :
  E <= e1 -> E <= e2 ->
  dyadic_le m1 e1 m2 e2 <-> m1 * 2 ^ (e1 - E) <= m2 * 2 ^ (e2 - E).
Proof.
  intros H1 H2. unfold dyadic_le. set (M := Z.min e1 e2).
  replace (e1 - E) with ((e1 - M) + (M - E)) by lia.
  replace (e2 - E) with ((e2 - M) + (M - E)) by lia.
  rewrite !Z.pow_add_r, !Z.mul_assoc by lia.
  apply Z.mul_le_mono_pos_r, pow2_pos. lia.
Qed.

Lemma dyadic_le_digits m1 e1 m2 e2 :
  0 < m1 -> 0 < m2 -> dyadic_le m1 e1 m2 e2 ->
  Zdigits2 m1 + e1 <= Zdigits2 m2 + e2.
Proof.
  intros H1 H2 H. unfold dyadic_le in H. set (M := Z.min e1 e2) in *.
  pose proof (pow2_pos (e1 - M) ltac:(lia)).
  pose proof (Zdigits2_mono (m1 * 2 ^ (e1 - M)) (m2 * 2 ^ (e2 - M)) ltac:(nia)) as Hd.
  rewrite !Zdigits2_mul_pow in Hd by lia. lia.
Qed.

Lemma iter_xO (m d : positive) : Z.pos (Pos.iter xO m d) = Z.pos m * 2 ^ Z.pos d.
Proof.
  induction d as [|d IH] using Pos.peano_ind.
  - simpl. lia.
  - rewrite Pos.iter_succ, Pos2Z.inj_xO, IH, Pos2Z.inj_succ, Z.pow_succ_r by lia.
    ring.
Qed.

Lemma shl_align_spec (m : positive) e e' :
  snd (shl_align m e e') = Z.min e e'
  /\ Z.pos (fst (shl_align m e e')) = Z.pos m * 2 ^ (e - Z.min e e').
Proof.
  unfold shl_align. destruct (e' - e) as [|d|d] eqn:E; cbn [fst snd].
  - replace (Z.min e e') with e by lia. rewrite Z.sub_diag. lia.
  - replace (Z.min e e') with e by lia. rewrite Z.sub_diag. lia.
  - replace (Z.min e e') with e' by lia.
    replace (e - e') with (Z.pos d) by lia. split; [reflexivity|apply iter_xO].
Qed.

End Dyadic.

(** ** Rounding to a format *)

Section Format.
Variables prec emax : Z.
Hypothesis Hprec : 0 < prec.
Hypothesis Hemax : prec < emax.

Local Abbreviation fexp := (SpecFloat.fexp prec emax).
Local Abbreviation emin := (SpecFloat.emin prec emax).
Local Abbreviation binary_round_aux := (SpecFloat.binary_round_aux prec emax).
Local Abbreviation binary_round := (SpecFloat.binary_round prec emax).
Local Abbreviation packed := (pack prec emax).
Local Abbreviation normal := (normal_form prec emax).
Local Abbreviation valid := (nonneg_valid prec emax).
Local Abbreviation is_rounded := (rounded prec emax).

Implicit Types (m e k t N : Z) (s : bool) (l : location).

Local Ltac fexp_lia := unfold SpecFloat.fexp, SpecFloat.emin in *; lia.

Lemma pow2_prec : 2 ^ prec = 2 * 2 ^ (prec - 1) /\ 0 < 2 ^ (prec - 1).
Proof.
  split; [|apply pow2_pos; lia].
  rewrite <- Z.pow_succ_r by lia. f_equal. lia.
Qed.

Lemma shr_record_of_loc_m m l : shr_m (shr_record_of_loc m l) = m.
Proof. now destruct l as [|[]]. Qed.

Lemma shr_fexp_spec m e l :
  0 <= m ->
  let k := Z.max 0 (fexp (Zdigits2 m + e) - e) in
  exists rec,
    shr_fexp prec emax m e l = (rec, e + k)
    /\ shr_m rec = m / 2 ^ k
    /\ (l = loc_Exact ->
        round_nearest_even (shr_m rec) (loc_of_shr_record rec) = rne_shift m k).
Proof.
  intros Hm k. unfold shr_fexp, shr. subst k.
  destruct (fexp (Zdigits2 m + e) - e) as [|p|p] eqn:E.
  - exists (shr_record_of_loc m l). rewrite Z.add_0_r.
    split; [reflexivity|]. rewrite shr_record_of_loc_m.
    change (Z.max 0 0) with 0. rewrite Z.pow_0_r, Z.div_1_r.
    split; [reflexivity|]. intros ->. simpl. now rewrite rne_shift_0.
  - exists (SpecFloat.iter_pos shr_1 p (shr_record_of_loc m l)).
    replace (Z.max 0 (Z.pos p)) with (Z.pos p) by lia.
    split; [reflexivity|].
    rewrite iter_pos_nat.
    split.
    + rewrite shr_m_iter by now rewrite shr_record_of_loc_m.
      now rewrite shr_record_of_loc_m, positive_nat_Z.
    + intros ->. simpl shr_record_of_loc.
      destruct (shr_iter_exact (Pos.to_nat p) m Hm) as [Hq Hl].
      rewrite Hq, Hl, positive_nat_Z. unfold rne_shift.
      pose proof (pow2_pos (Z.pos p) ltac:(lia)).
      destruct (Z.eqb_spec (m mod 2 ^ Z.pos p) 0) as [E0|E0].
      * rewrite E0. change (2 * 0) with 0.
        destruct (Z.compare_spec 0 (2 ^ Z.pos p)); [lia|reflexivity|lia].
      * reflexivity.
  - exists (shr_record_of_loc m l). rewrite Z.add_0_r.
    split; [reflexivity|]. rewrite shr_record_of_loc_m.
    change (Z.max 0 (Z.neg p)) with 0. rewrite Z.pow_0_r, Z.div_1_r.
    split; [reflexivity|]. intros ->. simpl. now rewrite rne_shift_0.
Qed.

(** The second shift of [binary_round_aux] only renormalises. *)
Lemma renormalise s N t :
  is_rounded N t ->
  (let '(mrs, e) := shr_fexp prec emax N t loc_Exact in
   match shr_m mrs with
   | Z0 => S754_zero s
   | Zpos p => if e <=? emax - prec then S754_finite s p e else S754_infinity s
   | Zneg _ => S754_nan
   end) = normal s N t.
Proof.
  intros ([HN0 HN] & Ht & Hn).
  destruct (shr_fexp_spec N t loc_Exact HN0) as (rec & -> & Hq & _).
  rewrite Hq. clear Hq rec. fold (packed s (N / 2 ^ Z.max 0 (fexp (Zdigits2 N + t) - t))
                                       (t + Z.max 0 (fexp (Zdigits2 N + t) - t))).
  destruct pow2_prec as [E2 Hpos].
  unfold normal_form.
  destruct (Z.ltb_spec N (2 ^ prec)) as [Hlt|Hge].
  - pose proof (Zdigits2_le_of_lt_pow N prec HN0 ltac:(lia) Hlt).
    replace (Z.max 0 (fexp (Zdigits2 N + t) - t)) with 0 by fexp_lia.
    now rewrite Z.pow_0_r, Z.div_1_r, Z.add_0_r.
  - assert (N = 2 ^ prec) as -> by lia.
    rewrite Zdigits2_pow by lia.
    replace (Z.max 0 (fexp (prec + 1 + t) - t)) with 1 by fexp_lia.
    rewrite Z.pow_1_r. f_equal.
    rewrite E2, Z.mul_comm. apply Z.div_mul. lia.
Qed.

(** [binary_round_aux] on a nonnegative mantissa whose exponent is at
    most the one of its format. *)
Lemma binary_round_aux_normal_form s m e l :
  0 <= m -> e <= fexp (Zdigits2 m + e) ->
  let t := fexp (Zdigits2 m + e) in
  exists N,
    m / 2 ^ (t - e) <= N <= m / 2 ^ (t - e) + 1
    /\ (l = loc_Exact -> N = rne_shift m (t - e))
    /\ is_rounded N t
    /\ binary_round_aux s m e l = normal s N t.
Proof.
  intros Hm He t.
  destruct (shr_fexp_spec m e l Hm) as (rec & E1 & Hq & HN).
  replace (Z.max 0 (fexp (Zdigits2 m + e) - e)) with (t - e) in * by (subst t; lia).
  replace (e + (t - e)) with t in E1 by lia.
  set (N := round_nearest_even (shr_m rec) (loc_of_shr_record rec)) in *.
  pose proof (round_nearest_even_bounds (shr_m rec) (loc_of_shr_record rec)) as HB.
  fold N in HB. rewrite Hq in HB.
  assert (is_rounded N t) as HR.
  { pose proof (pow2_pos (t - e) ltac:(lia)) as Hp.
    assert (0 <= m / 2 ^ (t - e)) as Hq0 by (apply Z.div_pos; lia).
    pose proof (Zdigits2_div_pow m (t - e) Hm ltac:(lia)) as Hd.
    pose proof (Zdigits2_upper _ Hq0) as Hup.
    pose proof (Zdigits2_nonneg (m / 2 ^ (t - e))) as Hd0.
    assert (Zdigits2 (m / 2 ^ (t - e)) <= prec) as Hdp by (subst t; fexp_lia).
    pose proof (Z.pow_le_mono_r 2 _ prec ltac:(lia) Hdp) as Hpw.
    split; [lia|]. split; [subst t; fexp_lia|].
    intros Hnormal.
    assert (Zdigits2 (m / 2 ^ (t - e)) = prec) as Hdq by (subst t; fexp_lia).
    assert (0 < m / 2 ^ (t - e)) as Hqpos.
    { destruct (Z.eq_dec (m / 2 ^ (t - e)) 0) as [E0|]; [|lia].
      rewrite E0 in Hdq. simpl in Hdq. lia. }
    pose proof (Zdigits2_lower _ Hqpos) as Hlow. rewrite Hdq in Hlow. lia. }
  exists N. split; [exact HB|]. split; [exact HN|]. split; [exact HR|].
  unfold SpecFloat.binary_round_aux. rewrite E1. fold N.
  now apply renormalise.
Qed.

(** *** Comparing what rounding returns *)

Lemma SFleb_finite (p1 p2 : positive) e1 e2 :
  SFleb (S754_finite false p1 e1) (S754_finite false p2 e2) = true
  <-> e1 < e2 \/ (e1 = e2 /\ Z.pos p1 <= Z.pos p2).
Proof.
  unfold SFleb, SFcompare. fold (Pos.compare p1 p2).
  destruct (Z.compare_spec e1 e2); [destruct (Pos.compare_spec p1 p2)| |];
    split; intros; try reflexivity; try discriminate; lia.
Qed.

Lemma SFleb_pack N1 t1 N2 t2 :
  0 <= N1 -> 0 <= N2 ->
  N1 = 0 \/ (0 < N2 /\ (t1 < t2 \/ (t1 = t2 /\ N1 <= N2))) ->
  SFleb (packed false N1 t1) (packed false N2 t2) = true.
Proof.
  intros H1 H2 H. unfold pack.
  destruct N1 as [|p1|p1], N2 as [|p2|p2]; try lia;
    repeat match goal with
    | |- context [?a <=? ?b] => destruct (Z.leb_spec a b)
    end; try reflexivity; try lia.
  apply SFleb_finite. lia.
Qed.

Lemma normal_form_mono N1 t1 N2 t2 :
  is_rounded N1 t1 -> is_rounded N2 t2 ->
  t1 < t2 \/ (t1 = t2 /\ N1 <= N2) ->
  SFleb (normal false N1 t1) (normal false N2 t2) = true.
Proof.
  intros ([? ?] & ? & ?) ([? ?] & ? & ?) Horder.
  destruct pow2_prec as [E2 Hpos].
  unfold normal_form.
  destruct (Z.ltb_spec N1 (2 ^ prec)), (Z.ltb_spec N2 (2 ^ prec));
    apply SFleb_pack; lia.
Qed.

Lemma normal_form_valid N t :
  is_rounded N t -> valid (normal false N t) = true.
Proof.
  intros ([HN0 HN] & Ht & Hn).
  destruct pow2_prec as [E2 Hpos].
  unfold normal_form, pack, nonneg_valid, bounded, canonical_mantissa.
  destruct (Z.ltb_spec N (2 ^ prec)) as [Hlt|Hge].
  - destruct N as [|p|p]; [reflexivity| |lia].
    destruct (Z.leb_spec t (emax - prec)) as [Hle|Hgt]; [|reflexivity].
    cbn [negb andb]. apply andb_true_intro. split; [|now apply Z.leb_le].
    apply Z.eqb_eq.
    pose proof (Zdigits2_le_of_lt_pow (Z.pos p) prec ltac:(lia) ltac:(lia) Hlt) as Hd.
    change (Zdigits2 (Z.pos p)) with (Z.pos (digits2_pos p)) in Hd.
    destruct (Z.eq_dec t emin) as [->|]; [fexp_lia|].
    pose proof (Zdigits2_gt_of_ge_pow (Z.pos p) (prec - 1) ltac:(lia) ltac:(lia)) as Hd'.
    change (Zdigits2 (Z.pos p)) with (Z.pos (digits2_pos p)) in Hd'.
    fexp_lia.
  - destruct (2 ^ (prec - 1)) as [|p|p] eqn:Ep; try lia.
    destruct (Z.leb_spec (t + 1) (emax - prec)) as [Hle|Hgt]; [|reflexivity].
    cbn [negb andb]. apply andb_true_intro. split; [|now apply Z.leb_le].
    apply Z.eqb_eq.
    change (Z.pos (digits2_pos p)) with (Zdigits2 (Z.pos p)).
    rewrite <- Ep, Zdigits2_pow by lia. fexp_lia.
Qed.

Lemma normal_form_finite s N t :
  0 <= N -> t + 1 <= emax - prec ->
  match normal s N t with
  | S754_zero _ | S754_finite _ _ _ => True
  | _ => False
  end.
Proof.
  intros HN Ht. destruct pow2_prec as [E2 Hpos].
  unfold normal_form, pack.
  destruct (N <? 2 ^ prec).
  - destruct N; [exact I| |lia].
    destruct (Z.leb_spec t (emax - prec)); [exact I|lia].
  - destruct (2 ^ (prec - 1)); try lia.
    destruct (Z.leb_spec (t + 1) (emax - prec)); [exact I|lia].
Qed.

Implicit Types (x y a c : spec_float).

(** *** Rounding does not decrease when the value increases *)

Lemma binary_round_aux_mono m1 e1 m2 e2 :
  0 < m1 -> 0 < m2 ->
  e1 <= fexp (Zdigits2 m1 + e1) -> e2 <= fexp (Zdigits2 m2 + e2) ->
  dyadic_le m1 e1 m2 e2 ->
  SFleb (binary_round_aux false m1 e1 loc_Exact)
        (binary_round_aux false m2 e2 loc_Exact) = true.
Proof.
  intros H1 H2 He1 He2 Hle.
  destruct (binary_round_aux_normal_form false m1 e1 loc_Exact
              ltac:(lia) He1) as (N1 & _ & HN1 & HR1 & ->).
  destruct (binary_round_aux_normal_form false m2 e2 loc_Exact
              ltac:(lia) He2) as (N2 & _ & HN2 & HR2 & ->).
  specialize (HN1 eq_refl). specialize (HN2 eq_refl).
  pose proof (dyadic_le_digits _ _ _ _ H1 H2 Hle) as Hd.
  set (t1 := fexp (Zdigits2 m1 + e1)) in *.
  set (t2 := fexp (Zdigits2 m2 + e2)) in *.
  apply normal_form_mono; trivial.
  destruct (Z.eq_dec t1 t2) as [Et|Et]; [right|left; subst t1 t2; fexp_lia].
  split; [exact Et|]. subst N1 N2. rewrite <- Et.
  set (E := Z.min e1 e2).
  rewrite <- (rne_shift_scale m1 (t1 - e1) (e1 - E)) by lia.
  rewrite <- (rne_shift_scale m2 (t1 - e2) (e2 - E)) by lia.
  replace (t1 - e1 + (e1 - E)) with (t1 - E) by lia.
  replace (t1 - e2 + (e2 - E)) with (t1 - E) by lia.
  apply rne_shift_mono; [lia|exact Hle].
Qed.

(** [binary_round] first brings the exponent down to the one of the
    format, which does not change the number. *)
Lemma binary_round_aligned s (m : positive) e :
  let e' := Z.min e (fexp (Zdigits2 (Z.pos m) + e)) in
  let m' := Z.pos m * 2 ^ (e - e') in
  0 < m' /\ e' <= fexp (Zdigits2 m' + e')
  /\ Zdigits2 m' + e' = Zdigits2 (Z.pos m) + e
  /\ binary_round s m e = binary_round_aux s m' e' loc_Exact.
Proof.
  intros e' m'.
  pose proof (pow2_pos (e - e') ltac:(lia)).
  assert (Zdigits2 m' + e' = Zdigits2 (Z.pos m) + e) as Hd.
  { subst m'. rewrite Zdigits2_mul_pow by lia. lia. }
  split; [subst m'; nia|]. split; [rewrite Hd; subst e'; lia|]. split; [exact Hd|].
  unfold SpecFloat.binary_round.
  change (Z.pos (digits2_pos m)) with (Zdigits2 (Z.pos m)).
  destruct (shl_align_spec m e (fexp (Zdigits2 (Z.pos m) + e))) as [E1 E2].
  destruct (shl_align m e _) as [mz ez]. cbn [fst snd] in E1, E2.
  fold e' in E1, E2. fold m' in E2. now rewrite E1, E2.
Qed.

Lemma binary_round_mono (m1 m2 : positive) e1 e2 :
  dyadic_le (Z.pos m1) e1 (Z.pos m2) e2 ->
  SFleb (binary_round false m1 e1) (binary_round false m2 e2) = true.
Proof.
  intros Hle.
  destruct (binary_round_aligned false m1 e1) as (H1 & He1 & _ & ->).
  destruct (binary_round_aligned false m2 e2) as (H2 & He2 & _ & ->).
  apply binary_round_aux_mono; trivial.
  set (e1' := Z.min e1 _) in *. set (e2' := Z.min e2 _) in *.
  set (E := Z.min e1' e2').
  apply (dyadic_le_iff _ _ _ _ E); [lia|lia|].
  apply (dyadic_le_iff _ _ _ _ E) in Hle; [|lia|lia].
  rewrite <- !Z.mul_assoc, <- !Z.pow_add_r by lia.
  replace (e1 - e1' + (e1' - E)) with (e1 - E) by lia.
  replace (e2 - e2' + (e2' - E)) with (e2 - E) by lia.
  exact Hle.
Qed.

Lemma binary_round_valid (m : positive) e :
  valid (binary_round false m e) = true.
Proof.
  destruct (binary_round_aligned false m e) as (H1 & He1 & _ & ->).
  destruct (binary_round_aux_normal_form false _ _ loc_Exact
              (Z.lt_le_incl _ _ H1) He1) as (N & _ & _ & HR & ->).
  now apply normal_form_valid.
Qed.

Lemma canonical_digits (m : positive) e :
  canonical_mantissa prec emax m e = true ->
  fexp (Zdigits2 (Z.pos m) + e) = e.
Proof. unfold canonical_mantissa. now intros H%Z.eqb_eq. Qed.

Lemma bounded_canonical (m : positive) e :
  bounded prec emax m e = true ->
  fexp (Zdigits2 (Z.pos m) + e) = e /\ e <= emax - prec.
Proof.
  unfold bounded. intros [H1 H2]%andb_prop.
  split; [now apply canonical_digits|now apply Z.leb_le].
Qed.

(** A number of the format rounds to itself. *)
Lemma binary_round_id s (m : positive) e :
  bounded prec emax m e = true -> binary_round s m e = S754_finite s m e.
Proof.
  intros [Hc Hb]%bounded_canonical.
  destruct (binary_round_aligned s m e) as (H1 & He1 & _ & ->).
  rewrite Hc in *. replace (Z.min e e) with e in * by lia.
  rewrite Z.sub_diag, Z.pow_0_r, Z.mul_1_r in *.
  destruct (binary_round_aux_normal_form s _ _ loc_Exact
              (Z.lt_le_incl _ _ H1) He1) as (N & _ & HN & HR & ->).
  specialize (HN eq_refl). rewrite Hc, Z.sub_diag, rne_shift_0 in HN. subst N.
  rewrite Hc. unfold normal_form, pack.
  pose proof (Zdigits2_upper (Z.pos m) ltac:(lia)) as Hup.
  assert (Zdigits2 (Z.pos m) <= prec) as Hd by fexp_lia.
  pose proof (Z.pow_le_mono_r 2 _ prec ltac:(lia) Hd).
  destruct (Z.ltb_spec (Z.pos m) (2 ^ prec)); [|lia].
  destruct (Z.leb_spec e (emax - prec)); [reflexivity|lia].
Qed.

(** On numbers of the format, the comparison of [SpecFloat] is the
    comparison of the numbers. *)
Lemma SFleb_dyadic (m1 m2 : positive) e1 e2 :
  canonical_mantissa prec emax m1 e1 = true ->
  canonical_mantissa prec emax m2 e2 = true ->
  SFleb (S754_finite false m1 e1) (S754_finite false m2 e2) = true ->
  dyadic_le (Z.pos m1) e1 (Z.pos m2) e2.
Proof.
  intros H1%canonical_digits H2%canonical_digits Hle%SFleb_finite.
  unfold dyadic_le. destruct Hle as [Hlt|[-> Hm]].
  - replace (Z.min e1 e2) with e1 by lia.
    rewrite Z.sub_diag, Z.pow_0_r, Z.mul_1_r.
    destruct pow2_prec as [E2 Hpos].
    assert (Zdigits2 (Z.pos m2) = prec) as Hd2 by fexp_lia.
    assert (Zdigits2 (Z.pos m1) <= prec) as Hd1 by fexp_lia.
    pose proof (Zdigits2_lower (Z.pos m2) ltac:(lia)) as Hlow. rewrite Hd2 in Hlow.
    pose proof (Zdigits2_upper (Z.pos m1) ltac:(lia)) as Hup.
    pose proof (Z.pow_le_mono_r 2 _ prec ltac:(lia) Hd1).
    pose proof (Z.pow_le_mono_r 2 1 (e2 - e1) ltac:(lia) ltac:(lia)) as Hp.
    rewrite Z.pow_1_r in Hp. nia.
  - replace (Z.min e2 e2) with e2 by lia.
    rewrite Z.sub_diag, Z.pow_0_r. lia.
Qed.

(** *** The nonnegative numbers of the format *)

Lemma valid_finite s (p : positive) e :
  valid (S754_finite s p e) = true -> s = false /\ bounded prec emax p e = true.
Proof. simpl. destruct s; [discriminate|]. auto. Qed.

Lemma bounded_mantissa (p : positive) e :
  bounded prec emax p e = true -> canonical_mantissa prec emax p e = true.
Proof. unfold bounded. now intros [H _]%andb_prop. Qed.

Lemma SFleb_zero_l s x : valid x = true -> SFleb (S754_zero s) x = true.
Proof. destruct x as [?|[]| |[] ? ?]; try discriminate; reflexivity. Qed.

Lemma SFleb_inf_r x : valid x = true -> SFleb x (S754_infinity false) = true.
Proof. destruct x as [?|[]| |[] ? ?]; try discriminate; reflexivity. Qed.

Lemma SFleb_refl_valid x : valid x = true -> SFleb x x = true.
Proof.
  destruct x as [?|[]| |[] p e]; try discriminate; try reflexivity.
  intros _. apply SFleb_finite. lia.
Qed.

(** *** [binary_normalize] *)

Lemma binary_normalize_valid m e :
  0 <= m -> valid (binary_normalize prec emax m e false) = true.
Proof.
  destruct m as [|p|p]; try lia; intros _; [reflexivity|].
  now apply binary_round_valid.
Qed.

Lemma binary_normalize_mono m1 e1 m2 e2 :
  0 <= m1 -> 0 <= m2 -> dyadic_le m1 e1 m2 e2 ->
  SFleb (binary_normalize prec emax m1 e1 false)
        (binary_normalize prec emax m2 e2 false) = true.
Proof.
  intros H1 H2 Hle.
  destruct m1 as [|p1|p1]; try lia.
  - apply SFleb_zero_l. now apply binary_normalize_valid.
  - destruct m2 as [|p2|p2]; try lia.
    + unfold dyadic_le in Hle.
      pose proof (pow2_pos (e1 - Z.min e1 e2) ltac:(lia)). nia.
    + now apply binary_round_mono.
Qed.

(** *** Multiplication by a positive number of the format *)

Lemma dyadic_le_mul mc ec m1 e1 m2 e2 :
  0 < mc -> dyadic_le m1 e1 m2 e2 ->
  dyadic_le (mc * m1) (ec + e1) (mc * m2) (ec + e2).
Proof.
  unfold dyadic_le. intros Hc H.
  rewrite Z.add_min_distr_l.
  replace (ec + e1 - (ec + Z.min e1 e2)) with (e1 - Z.min e1 e2) by lia.
  replace (ec + e2 - (ec + Z.min e1 e2)) with (e2 - Z.min e1 e2) by lia.
  rewrite <- !Z.mul_assoc. apply Z.mul_le_mono_nonneg_l; lia.
Qed.

Lemma mul_exponent (mc m : positive) ec e :
  bounded prec emax mc ec = true -> bounded prec emax m e = true ->
  ec + e <= fexp (Zdigits2 (Z.pos (mc * m)) + (ec + e)).
Proof.
  intros [Hc _]%bounded_canonical [Hx _]%bounded_canonical.
  rewrite Pos2Z.inj_mul.
  pose proof (Zdigits2_mul (Z.pos mc) (Z.pos m) ltac:(lia) ltac:(lia)).
  pose proof (Zdigits2_pos (Z.pos mc) ltac:(lia)).
  pose proof (Zdigits2_pos (Z.pos m) ltac:(lia)).
  fexp_lia.
Qed.

Lemma SFmul_finite (mc m : positive) ec e :
  SFmul prec emax (S754_finite false mc ec) (S754_finite false m e)
  = binary_round_aux false (Z.pos (mc * m)) (ec + e) loc_Exact.
Proof. reflexivity. Qed.

Lemma SFmul_valid c x :
  valid c = true -> valid x = true ->
  (exists mc ec, c = S754_finite false mc ec) ->
  valid (SFmul prec emax c x) = true.
Proof.
  intros Hc Hx (mc & ec & ->). apply valid_finite in Hc as [_ Hc].
  destruct x as [?|[]| |[] m e]; try discriminate; try reflexivity.
  apply valid_finite in Hx as [_ Hx].
  rewrite SFmul_finite.
  destruct (binary_round_aux_normal_form false _ _ loc_Exact
              (Pos2Z.is_nonneg (mc * m)) (mul_exponent mc m ec e Hc Hx))
    as (N & _ & _ & HR & ->).
  now apply normal_form_valid.
Qed.

Lemma SFmul_mono c x y :
  valid c = true -> valid x = true -> valid y = true ->
  (exists mc ec, c = S754_finite false mc ec) ->
  SFleb x y = true ->
  SFleb (SFmul prec emax c x) (SFmul prec emax c y) = true.
Proof.
  intros Hc Hx Hy Hfin Hle.
  pose proof (SFmul_valid c y Hc Hy Hfin) as Hvy.
  destruct Hfin as (mc & ec & ->).
  destruct x as [?|[]| |[] m1 e1]; try discriminate.
  - now apply SFleb_zero_l.
  - destruct y as [?|[]| |[] m2 e2]; try discriminate. reflexivity.
  - destruct y as [?|[]| |[] m2 e2]; try discriminate.
    + apply SFleb_inf_r. now apply SFmul_valid; eauto.
    + apply valid_finite in Hc as [_ Hc].
      apply valid_finite in Hx as [_ Hx]. apply valid_finite in Hy as [_ Hy].
      rewrite !SFmul_finite.
      apply binary_round_aux_mono; trivial; try lia;
        try (now apply mul_exponent).
      rewrite !Pos2Z.inj_mul. apply dyadic_le_mul; [lia|].
      apply SFleb_dyadic; trivial;
        now apply bounded_mantissa.
Qed.

(** *** Addition to a nonnegative number of the format *)

Lemma SFadd_finite (ma m : positive) ea e :
  SFadd prec emax (S754_finite false ma ea) (S754_finite false m e)
  = binary_normalize prec emax
      (Z.pos ma * 2 ^ (ea - Z.min ea e) + Z.pos m * 2 ^ (e - Z.min ea e))
      (Z.min ea e) false.
Proof.
  unfold SFadd, cond_Zopp.
  destruct (shl_align_spec ma ea (Z.min ea e)) as [_ ->].
  destruct (shl_align_spec m e (Z.min ea e)) as [_ ->].
  replace (Z.min ea (Z.min ea e)) with (Z.min ea e) by lia.
  replace (Z.min e (Z.min ea e)) with (Z.min ea e) by lia.
  reflexivity.
Qed.

Lemma sum_nonneg (ma m : positive) ea e :
  0 <= Z.pos ma * 2 ^ (ea - Z.min ea e) + Z.pos m * 2 ^ (e - Z.min ea e).
Proof.
  pose proof (pow2_pos (ea - Z.min ea e) ltac:(lia)).
  pose proof (pow2_pos (e - Z.min ea e) ltac:(lia)). nia.
Qed.

Lemma SFadd_valid a x :
  valid a = true -> valid x = true -> valid (SFadd prec emax a x) = true.
Proof.
  intros Ha Hx.
  destruct a as [[]|[]| |[] ma ea], x as [[]|[]| |[] m e];
    try discriminate; try reflexivity; try exact Ha; try exact Hx.
  rewrite SFadd_finite. apply binary_normalize_valid, sum_nonneg.
Qed.

(** [a <= a + x]. *)
Lemma SFadd_above a x :
  valid a = true -> valid x = true ->
  SFleb a (SFadd prec emax a x) = true.
Proof.
  intros Ha Hx.
  destruct a as [sa|[]| |[] ma ea]; try discriminate.
  - apply SFleb_zero_l. now apply SFadd_valid.
  - destruct x as [?|[]| |[] ? ?]; try discriminate; reflexivity.
  - destruct x as [?|[]| |[] m e]; try discriminate.
    + now apply SFleb_refl_valid.
    + reflexivity.
    + rewrite SFadd_finite.
      apply valid_finite in Ha as [_ Ha].
      rewrite <- (binary_round_id false ma ea Ha).
      change (binary_round false ma ea)
        with (binary_normalize prec emax (Z.pos ma) ea false).
      apply binary_normalize_mono; [lia|apply sum_nonneg|].
      apply (dyadic_le_iff _ _ _ _ (Z.min ea e)); [lia|lia|].
      rewrite Z.sub_diag, Z.pow_0_r, Z.mul_1_r.
      pose proof (pow2_pos (e - Z.min ea e) ltac:(lia)). nia.
Qed.

Lemma dyadic_le_sum ma ea m1 e1 m2 e2 :
  dyadic_le m1 e1 m2 e2 ->
  dyadic_le (ma * 2 ^ (ea - Z.min ea e1) + m1 * 2 ^ (e1 - Z.min ea e1)) (Z.min ea e1)
            (ma * 2 ^ (ea - Z.min ea e2) + m2 * 2 ^ (e2 - Z.min ea e2)) (Z.min ea e2).
Proof.
  intros H.
  set (E := Z.min ea (Z.min e1 e2)).
  apply (dyadic_le_iff _ _ _ _ E) in H; [|lia|lia].
  apply (dyadic_le_iff _ _ _ _ E); [lia|lia|].
  rewrite !Z.mul_add_distr_r, <- !Z.mul_assoc, <- !Z.pow_add_r by lia.
  replace (ea - Z.min ea e1 + (Z.min ea e1 - E)) with (ea - E) by lia.
  replace (ea - Z.min ea e2 + (Z.min ea e2 - E)) with (ea - E) by lia.
  replace (e1 - Z.min ea e1 + (Z.min ea e1 - E)) with (e1 - E) by lia.
  replace (e2 - Z.min ea e2 + (Z.min ea e2 - E)) with (e2 - E) by lia.
  lia.
Qed.

Lemma SFadd_mono a x y :
  valid a = true -> valid x = true -> valid y = true ->
  finite_or_zero a = true ->
  SFleb x y = true ->
  SFleb (SFadd prec emax a x) (SFadd prec emax a y) = true.
Proof.
  intros Ha Hx Hy Hfin Hle.
  destruct a as [sa|[]| |[] ma ea]; try discriminate.
  - (* a is a zero *)
    destruct x as [sx|[]| |[] m1 e1], y as [sy|[]| |[] m2 e2];
      try discriminate; try exact Hle; try reflexivity;
      try (destruct sa, sx; reflexivity);
      try (destruct sa, sx, sy; reflexivity).
  - destruct x as [sx|[]| |[] m1 e1]; try discriminate.
    + (* x is a zero *)
      change (SFadd prec emax (S754_finite false ma ea) (S754_zero sx))
        with (S754_finite false ma ea).
      now apply SFadd_above.
    + destruct y as [?|[]| |[] ? ?]; try discriminate. reflexivity.
    + destruct y as [?|[]| |[] m2 e2]; try discriminate.
      * apply SFleb_inf_r. now apply SFadd_valid.
      * rewrite !SFadd_finite.
        apply binary_normalize_mono; try apply sum_nonneg.
        apply dyadic_le_sum.
        apply valid_finite in Hx as [_ Hx]. apply valid_finite in Hy as [_ Hy].
        apply SFleb_dyadic; trivial;
          now apply bounded_mantissa.
Qed.

(** *** Order on the nonnegative numbers of the format *)

Lemma SFleb_trans x y z :
  valid x = true -> valid y = true -> valid z = true ->
  SFleb x y = true -> SFleb y z = true -> SFleb x z = true.
Proof.
  intros Hx Hy Hz Hxy Hyz.
  destruct x as [?|[]| |[] p1 e1]; try discriminate;
    try (now apply SFleb_zero_l);
    destruct y as [?|[]| |[] p2 e2]; try discriminate;
    destruct z as [?|[]| |[] p3 e3]; try discriminate; try reflexivity.
  apply SFleb_finite in Hxy, Hyz. apply SFleb_finite. lia.
Qed.

Lemma SFleb_total x y :
  valid x = true -> valid y = true ->
  SFltb x y = false -> SFleb y x = true.
Proof.
  intros Hx Hy.
  destruct x as [?|[]| |[] p1 e1]; try discriminate;
    destruct y as [?|[]| |[] p2 e2]; try discriminate; try reflexivity.
  unfold SFltb, SFleb, SFcompare. fold (Pos.compare p1 p2) (Pos.compare p2 p1).
  rewrite (Z.compare_antisym e1 e2), (Pos.compare_antisym p1 p2).
  destruct (e1 ?= e2); [destruct (p1 ?= p2)%positive| |]; cbn; congruence.
Qed.

(** *** Subtraction from a number of the format *)

Lemma SFsub_finite (mx ma : positive) ex ea :
  SFsub prec emax (S754_finite false mx ex) (S754_finite false ma ea)
  = binary_normalize prec emax
      (Z.pos mx * 2 ^ (ex - Z.min ex ea) - Z.pos ma * 2 ^ (ea - Z.min ex ea))
      (Z.min ex ea) false.
Proof.
  unfold SFsub, cond_Zopp.
  destruct (shl_align_spec mx ex (Z.min ex ea)) as [_ ->].
  destruct (shl_align_spec ma ea (Z.min ex ea)) as [_ ->].
  replace (Z.min ex (Z.min ex ea)) with (Z.min ex ea) by lia.
  replace (Z.min ea (Z.min ex ea)) with (Z.min ex ea) by lia.
  reflexivity.
Qed.

(** For [0 <= a <= x], the difference [x - a] lies in [[0, x]]. *)
Lemma SFsub_below x a :
  valid x = true -> valid a = true ->
  (exists mx ex, x = S754_finite false mx ex) ->
  SFleb a x = true ->
  valid (SFsub prec emax x a) = true
  /\ SFleb (SFsub prec emax x a) x = true.
Proof.
  intros Hx Ha (mx & ex & ->) Hle.
  destruct a as [?|[]| |[] ma ea]; try discriminate.
  - split; [exact Hx|now apply SFleb_refl_valid].
  - rewrite SFsub_finite.
    apply valid_finite in Hx as [_ Hx]. apply valid_finite in Ha as [_ Ha].
    pose proof (SFleb_dyadic ma mx ea ex (bounded_mantissa _ _ Ha)
                  (bounded_mantissa _ _ Hx) Hle) as Hd.
    unfold dyadic_le in Hd. rewrite (Z.min_comm ea ex) in Hd.
    set (S := Z.pos mx * 2 ^ (ex - Z.min ex ea) - Z.pos ma * 2 ^ (ea - Z.min ex ea)).
    assert (0 <= S) as HS by (subst S; lia).
    split; [now apply binary_normalize_valid|].
    rewrite <- (binary_round_id false mx ex Hx).
    change (binary_round false mx ex)
      with (binary_normalize prec emax (Z.pos mx) ex false).
    apply binary_normalize_mono; [exact HS|lia|].
    apply (dyadic_le_iff _ _ _ _ (Z.min ex ea)); [lia|lia|].
    rewrite Z.sub_diag, Z.pow_0_r, Z.mul_1_r. subst S.
    pose proof (pow2_pos (ea - Z.min ex ea) ltac:(lia)). nia.
Qed.

(** *** Division of positive numbers *)

Lemma SFdiv_core_binary_spec (m1 m2 : positive) e1 e2 :
  let G := Zdigits2 (Z.pos m1) + e1 - (Zdigits2 (Z.pos m2) + e2) in
  exists q e' l,
    SFdiv_core_binary prec emax (Z.pos m1) e1 (Z.pos m2) e2 = (q, e', l)
    /\ 0 <= q
    /\ e' <= fexp (Zdigits2 q + e')
    /\ fexp (Zdigits2 q + e') <= fexp (G + 1).
Proof.
  intros G. unfold SFdiv_core_binary.
  fold G. set (e' := Z.min (fexp G) (e1 - e2)).
  set (s := e1 - e2 - e').
  assert (0 <= s) as Hs by (subst s e'; lia).
  set (m' := match s with
             | 0 => Z.pos m1 | Z.pos _ => Z.shiftl (Z.pos m1) s | Z.neg _ => 0
             end).
  assert (m' = Z.pos m1 * 2 ^ s) as Hm'.
  { subst m'. destruct s as [|p|p] eqn:E; [lia| |lia].
    now rewrite Z.shiftl_mul_pow2 by lia. }
  pose proof (pow2_pos s Hs) as Hp.
  assert (0 < m') as Hm'pos by nia.
  destruct (Z.div_eucl m' (Z.pos m2)) as [q r] eqn:E.
  assert (q = m' / Z.pos m2) as Hq by (unfold Z.div; now rewrite E).
  exists q, e', (new_location (Z.pos m2) r).
  split; [reflexivity|].
  assert (0 <= q) as Hq0 by (subst q; apply Z.div_pos; lia).
  split; [exact Hq0|].
  pose proof (Zdigits2_div m' (Z.pos m2) ltac:(lia) ltac:(lia)) as Hd.
  rewrite <- Hq in Hd.
  assert (Zdigits2 m' = Zdigits2 (Z.pos m1) + s) as Hdm
    by (rewrite Hm'; apply Zdigits2_mul_pow; lia).
  rewrite Hdm in Hd.
  assert (Zdigits2 (Z.pos m1) + s - Zdigits2 (Z.pos m2) + e' = G) as HG
    by (subst G s; lia).
  assert (e' <= fexp G) as He' by (subst e'; lia).
  pose proof (Zdigits2_nonneg q).
  split; fexp_lia.
Qed.

Lemma SFdiv_valid (m1 m2 : positive) e1 e2 :
  Zdigits2 (Z.pos m1) + e1 - (Zdigits2 (Z.pos m2) + e2) + 2 <= emax ->
  let c := SFdiv prec emax (S754_finite false m1 e1) (S754_finite false m2 e2) in
  valid c = true /\ finite_or_zero c = true.
Proof.
  intros HG c. subst c. unfold SFdiv.
  destruct (SFdiv_core_binary_spec m1 m2 e1 e2) as (q & e' & l & -> & Hq & He' & Ht).
  cbn [xorb].
  destruct (binary_round_aux_normal_form false q e' l Hq He')
    as (N & _ & _ & HR & ->).
  split; [now apply normal_form_valid|].
  pose proof (normal_form_finite false N (fexp (Zdigits2 q + e'))
                ltac:(destruct HR as [[? _] _]; assumption)) as Hf.
  destruct (normal_form prec emax false N _); try reflexivity;
    exfalso; apply Hf; fexp_lia.
Qed.

End Format.

(** ** Conversion between two formats *)

Section Conversion.
Variables prec1 emax1 prec2 emax2 : Z.
Hypothesis Hprec1 : 0 < prec1.
Hypothesis Hprec2 : 0 < prec2.
Hypothesis Hemax2 : prec2 < emax2.

Lemma convert_valid x :
  nonneg_valid prec1 emax1 x = true -> nonneg_valid prec2 emax2 (convert prec2 emax2 x) = true.
Proof.
  destruct x as [?|[]| |[] m e]; try discriminate; try reflexivity.
  intros _. now apply binary_round_valid.
Qed.

Lemma convert_mono x y :
  nonneg_valid prec1 emax1 x = true -> nonneg_valid prec1 emax1 y = true ->
  SFleb x y = true -> SFleb (convert prec2 emax2 x) (convert prec2 emax2 y) = true.
Proof.
  intros Hx Hy Hle.
  pose proof (convert_valid y Hy) as Hvy.
  destruct x as [?|[]| |[] m1 e1]; try discriminate.
  - now apply (SFleb_zero_l prec2 emax2).
  - destruct y as [?|[]| |[] ? ?]; try discriminate. reflexivity.
  - destruct y as [?|[]| |[] m2 e2]; try discriminate.
    + apply (SFleb_inf_r prec2 emax2). now apply binary_round_valid.
    + apply binary_round_mono; trivial.
      apply valid_finite in Hx as [_ Hx]. apply valid_finite in Hy as [_ Hy].
      apply (SFleb_dyadic prec1 emax1 Hprec1); trivial;
        now apply bounded_mantissa.
Qed.

End Conversion.

(** * The ramp is monotone *)

Section Ramp.
Implicit Types (a x y : spec_float) (n r : Z).

Local Abbreviation dvalid := (nonneg_valid IEEE.dprec IEEE.demax).
Local Abbreviation fvalid := (nonneg_valid IEEE.fprec IEEE.femax).

Lemma dprec_pos : 0 < IEEE.dprec.
Proof. reflexivity. Qed.

Lemma dprec_demax : IEEE.dprec < IEEE.demax.
Proof. reflexivity. Qed.

Lemma fprec_pos : 0 < IEEE.fprec.
Proof. reflexivity. Qed.

Lemma fprec_femax : IEEE.fprec < IEEE.femax.
Proof. reflexivity. Qed.

Lemma d_one_eq : IEEE.d_one = S754_finite false 4503599627370496 (-52).
Proof. reflexivity. Qed.

Lemma d_one_canonical :
  canonical_mantissa IEEE.dprec IEEE.demax 4503599627370496 (-52) = true.
Proof. reflexivity. Qed.

(** A [double] that is at least 0 is a nonnegative value of the format. *)
Lemma is_double_nonneg a :
  IEEE.is_double a = true -> IEEE.le IEEE.dzero a = true -> dvalid a = true.
Proof.
  destruct a as [?|[]| |[] m e]; try discriminate; try reflexivity.
  intros H _. exact H.
Qed.

(** ** Counters as [double]s *)

Lemma double_of_Z_valid r : 0 <= r -> dvalid (IEEE.double_of_Z r) = true.
Proof. apply (binary_normalize_valid _ _ dprec_pos dprec_demax). Qed.

Lemma double_of_Z_mono r1 r2 :
  0 <= r1 <= r2 -> IEEE.le (IEEE.double_of_Z r1) (IEEE.double_of_Z r2) = true.
Proof.
  intros H. apply (binary_normalize_mono _ _ dprec_pos dprec_demax); try lia.
  unfold dyadic_le. change (0 - Z.min 0 0) with 0. rewrite Z.pow_0_r. lia.
Qed.

Lemma double_of_Z_finite r :
  0 <= r <= size_t_modulus -> finite_or_zero (IEEE.double_of_Z r) = true.
Proof.
  intros H. pose proof (double_of_Z_valid r ltac:(lia)) as Hv.
  pose proof (double_of_Z_mono r size_t_modulus ltac:(lia)) as Hle.
  destruct (IEEE.double_of_Z r) as [?|[]| |? ? ?]; try discriminate; reflexivity.
Qed.

Lemma double_of_Z_positive r :
  1 <= r <= size_t_modulus ->
  exists m e, IEEE.double_of_Z r = S754_finite false m e.
Proof.
  intros H. pose proof (double_of_Z_valid r ltac:(lia)) as Hv.
  pose proof (double_of_Z_finite r ltac:(lia)) as Hf.
  pose proof (double_of_Z_mono 1 r ltac:(lia)) as Hle.
  destruct (IEEE.double_of_Z r) as [?|[]| |[] m e]; try discriminate; eauto.
Qed.

(** ** The clamp to [[0, 1]] *)

Lemma SFltb_asym x y : SFltb x y = true -> SFleb y x = false.
Proof.
  unfold SFltb, SFleb. destruct (SFcompare x y) as [c|] eqn:E; [|discriminate].
  rewrite (SFcompare_antisym _ _ _ E). now destruct c.
Qed.

Lemma max_zero x :
  fvalid x = true ->
  fvalid (IEEE.max IEEE.fzero x) = true
  /\ IEEE.le x (IEEE.max IEEE.fzero x) = true
  /\ IEEE.le (IEEE.max IEEE.fzero x) x = true.
Proof.
  destruct x as [?|[]| |[] m e]; try discriminate; intros H; cbn;
    repeat split; trivial; apply SFleb_finite; lia.
Qed.

Lemma clamp_mono x y :
  fvalid x = true -> fvalid y = true -> IEEE.le x y = true ->
  IEEE.le (IEEE.min IEEE.fone (IEEE.max IEEE.fzero x))
          (IEEE.min IEEE.fone (IEEE.max IEEE.fzero y)) = true.
Proof.
  intros Hx Hy Hle.
  destruct (max_zero x Hx) as (Hx' & Hx1 & Hx2).
  destruct (max_zero y Hy) as (Hy' & Hy1 & Hy2).
  set (x' := IEEE.max IEEE.fzero x) in *. set (y' := IEEE.max IEEE.fzero y) in *.
  assert (IEEE.le x' y' = true) as Hle'.
  { apply (SFleb_trans IEEE.fprec IEEE.femax x' x y'); trivial.
    apply (SFleb_trans IEEE.fprec IEEE.femax x y y'); trivial. }
  assert (fvalid IEEE.fone = true) as H1 by reflexivity.
  unfold IEEE.min, IEEE.lt.
  destruct (SFltb x' IEEE.fone) eqn:Ex, (SFltb y' IEEE.fone) eqn:Ey.
  - exact Hle'.
  - now apply lt_le.
  - apply (SFleb_total IEEE.fprec IEEE.femax) in Ex; trivial.
    apply SFltb_asym in Ey.
    now rewrite (SFleb_trans IEEE.fprec IEEE.femax IEEE.fone x' y') in Ey.
  - reflexivity.
Qed.

Lemma clamp_above a x :
  fvalid a = true -> fvalid x = true ->
  IEEE.le a x = true -> IEEE.le a IEEE.fone = true ->
  IEEE.le a (IEEE.min IEEE.fone (IEEE.max IEEE.fzero x)) = true.
Proof.
  intros Ha Hx Hle H1.
  destruct (max_zero x Hx) as (Hx' & Hx1 & Hx2).
  unfold IEEE.min, IEEE.lt.
  destruct (SFltb (IEEE.max IEEE.fzero x) IEEE.fone); [|exact H1].
  now apply (SFleb_trans IEEE.fprec IEEE.femax a x).
Qed.

(** ** The slope of the linear ramp *)

(** For [0 <= a <= 1] and a nonzero [size_t] [n], [(1 - a) / n] is a
    nonnegative number of the format. *)
Lemma slope_valid a n :
  dvalid a = true -> IEEE.le a IEEE.d_one = true ->
  0 < n < size_t_modulus ->
  let c := IEEE.ddiv (IEEE.dsub IEEE.d_one a) (IEEE.double_of_Z n) in
  dvalid c = true /\ finite_or_zero c = true.
Proof.
  intros Ha Hle Hn c. subst c.
  destruct (SFsub_below _ _ dprec_pos dprec_demax IEEE.d_one a eq_refl Ha
              ltac:(rewrite d_one_eq; eauto) Hle) as [HD HD1].
  destruct (double_of_Z_positive n ltac:(unfold size_t_modulus in *; lia))
    as (mN & eN & EN).
  pose proof (double_of_Z_valid n ltac:(lia)) as HN.
  pose proof (double_of_Z_mono 1 n ltac:(lia)) as HN1.
  fold IEEE.d_one in HN1.
  unfold IEEE.ddiv, IEEE.dsub in *. rewrite EN in *.
  destruct (SFsub IEEE.dprec IEEE.demax IEEE.d_one a) as [?|[]| |[] mD eD];
    try discriminate.
  - split; reflexivity.
  - apply (SFdiv_valid _ _ dprec_pos dprec_demax).
    apply valid_finite in HD as [_ HD]. apply valid_finite in HN as [_ HN].
    rewrite d_one_eq in HD1, HN1.
    pose proof (SFleb_dyadic _ _ dprec_pos _ _ _ _
                  (bounded_mantissa _ _ _ _ HD) d_one_canonical HD1) as H1.
    pose proof (SFleb_dyadic _ _ dprec_pos _ _ _ _
                  d_one_canonical (bounded_mantissa _ _ _ _ HN) HN1) as H2.
    apply dyadic_le_digits in H1; [|lia|lia].
    apply dyadic_le_digits in H2; [|lia|lia].
    change (Zdigits2 (Z.pos 4503599627370496) + -52) with 1 in H1, H2.
    unfold IEEE.demax. lia.
Qed.

(** ** The value that is clamped *)

Lemma Linearly_ramp_mono a n r1 r2 :
  dvalid a = true -> IEEE.le a IEEE.d_one = true ->
  0 < n < size_t_modulus -> 0 <= r1 <= r2 -> r2 < size_t_modulus ->
  fvalid (Linearly_ramp a n r1) = true
  /\ fvalid (Linearly_ramp a n r2) = true
  /\ IEEE.le (Linearly_ramp a n r1) (Linearly_ramp a n r2) = true
  /\ IEEE.le (IEEE.float_of_double a) (Linearly_ramp a n r1) = true.
Proof.
  intros Ha Hle Hn Hr Hr2.
  destruct (slope_valid a n Ha Hle Hn) as [Hc Hcf]. cbv zeta in Hc, Hcf.
  unfold Linearly_ramp.
  set (c := IEEE.ddiv (IEEE.dsub IEEE.d_one a) (IEEE.double_of_Z n)) in *.
  assert (finite_or_zero a = true) as Haf
    by (destruct a as [?|[]| |? ? ?]; try discriminate; reflexivity).
  (* the products *)
  assert (forall r, 0 <= r < size_t_modulus ->
            dvalid (IEEE.dmul c (IEEE.double_of_Z r)) = true) as HP.
  { intros r Hr'. pose proof (double_of_Z_valid r ltac:(lia)) as HR.
    pose proof (double_of_Z_finite r ltac:(lia)) as HRf.
    destruct c as [sc|[]| |[] mc ec]; try discriminate.
    - destruct (IEEE.double_of_Z r) as [?|?| |? ? ?]; try discriminate; reflexivity.
    - apply (SFmul_valid _ _ dprec_pos dprec_demax); eauto. }
  assert (IEEE.le (IEEE.dmul c (IEEE.double_of_Z r1))
                  (IEEE.dmul c (IEEE.double_of_Z r2)) = true) as HPle.
  { pose proof (double_of_Z_valid r1 ltac:(lia)) as HR1.
    pose proof (double_of_Z_valid r2 ltac:(lia)) as HR2.
    pose proof (double_of_Z_finite r1 ltac:(lia)) as HRf1.
    pose proof (double_of_Z_finite r2 ltac:(lia)) as HRf2.
    pose proof (double_of_Z_mono r1 r2 Hr) as HRle.
    destruct c as [sc|[]| |[] mc ec]; try discriminate.
    - destruct (IEEE.double_of_Z r1) as [?|?| |? ? ?]; try discriminate;
        destruct (IEEE.double_of_Z r2) as [?|?| |? ? ?]; try discriminate;
        reflexivity.
    - apply (SFmul_mono _ _ dprec_pos dprec_demax); eauto. }
  pose proof (HP r1 ltac:(lia)) as HP1. pose proof (HP r2 ltac:(lia)) as HP2.
  set (P1 := IEEE.dmul c (IEEE.double_of_Z r1)) in *.
  set (P2 := IEEE.dmul c (IEEE.double_of_Z r2)) in *.
  pose proof (SFadd_valid _ _ dprec_pos dprec_demax a P1 Ha HP1) as HQ1.
  pose proof (SFadd_valid _ _ dprec_pos dprec_demax a P2 Ha HP2) as HQ2.
  pose proof (SFadd_mono _ _ dprec_pos dprec_demax a P1 P2 Ha HP1 HP2 Haf HPle) as HQle.
  pose proof (SFadd_above _ _ dprec_pos dprec_demax a P1 Ha HP1) as HQa.
  change IEEE.float_of_double with (convert IEEE.fprec IEEE.femax).
  split; [|split; [|split]].
  - exact (convert_valid _ _ _ _ fprec_pos fprec_femax _ HQ1).
  - exact (convert_valid _ _ _ _ fprec_pos fprec_femax _ HQ2).
  - exact (convert_mono _ _ _ _ dprec_pos fprec_pos fprec_femax _ _ HQ1 HQ2 HQle).
  - exact (convert_mono _ _ _ _ dprec_pos fprec_pos fprec_femax _ _ Ha HQ1 HQa).
Qed.

Lemma float_of_double_le_one a :
  dvalid a = true -> IEEE.le a IEEE.d_one = true ->
  fvalid (IEEE.float_of_double a) = true
  /\ IEEE.le (IEEE.float_of_double a) IEEE.fone = true.
Proof.
  intros Ha Hle. change IEEE.float_of_double with (convert IEEE.fprec IEEE.femax).
  split; [exact (convert_valid _ _ _ _ fprec_pos fprec_femax _ Ha)|].
  exact (convert_mono _ _ _ _ dprec_pos fprec_pos fprec_femax a IEEE.d_one Ha eq_refl Hle).
Qed.

Lemma Staircase_ramp_mono a n r1 r2 :
  dvalid a = true -> 0 < n -> 0 <= r1 <= r2 -> r2 / n + 1 < size_t_modulus ->
  fvalid (Staircase_ramp a n r1) = true
  /\ fvalid (Staircase_ramp a n r2) = true
  /\ IEEE.le (Staircase_ramp a n r1) (Staircase_ramp a n r2) = true.
Proof.
  intros Ha Hn Hr Hk.
  assert (0 <= r1 / n <= r2 / n) as Hq.
  { split; [apply Z.div_pos; lia|apply Z.div_le_mono; lia]. }
  unfold Staircase_ramp.
  set (k1 := r1 / n + 1) in *. set (k2 := r2 / n + 1) in *.
  pose proof (double_of_Z_valid k1 ltac:(lia)) as HK1.
  pose proof (double_of_Z_valid k2 ltac:(lia)) as HK2.
  pose proof (double_of_Z_mono k1 k2 ltac:(lia)) as HKle.
  destruct (double_of_Z_positive k1 ltac:(lia)) as (m1 & e1 & E1).
  destruct (double_of_Z_positive k2 ltac:(lia)) as (m2 & e2 & E2).
  rewrite E1, E2 in *.
  change IEEE.float_of_double with (convert IEEE.fprec IEEE.femax).
  destruct a as [sa|[]| |[] ma ea]; try discriminate.
  - repeat split; reflexivity.
  - repeat split; reflexivity.
  - pose proof (SFmul_valid _ _ dprec_pos dprec_demax _ _ Ha HK1 ltac:(eauto)) as HP1.
    pose proof (SFmul_valid _ _ dprec_pos dprec_demax _ _ Ha HK2 ltac:(eauto)) as HP2.
    pose proof (SFmul_mono _ _ dprec_pos dprec_demax _ _ _ Ha HK1 HK2 ltac:(eauto) HKle) as HPle.
    split; [|split].
    + exact (convert_valid _ _ _ _ fprec_pos fprec_femax _ HP1).
    + exact (convert_valid _ _ _ _ fprec_pos fprec_femax _ HP2).
    + exact (convert_mono _ _ _ _ dprec_pos fprec_pos fprec_femax _ _ HP1 HP2 HPle).
Qed.

Lemma same_step n r : 0 < n -> 0 <= r -> (r + 1) mod n <> 0 -> (r + 1) / n = r / n.
Proof.
  intros Hn Hr Hm.
  pose proof (Z.div_mod (r + 1) n ltac:(lia)) as E.
  pose proof (Z.mod_pos_bound (r + 1) n Hn) as B.
  apply (Z.div_unique r n ((r + 1) / n) ((r + 1) mod n - 1)); lia.
Qed.

(** C7 (amended).  Let [adjustCoefficient] be a [double] that is at
    least 0, [rampRounds] a nonzero [size_t] and [r1 <= r2] two round
    indices.  If [adjustCoefficient <= 1], the [Linearly] factor at [r1]
    is at most the one at [r2], and it lies between
    [(float) adjustCoefficient] and 1.  As long as
    [floor(r2/rampRounds) + 1] is a [size_t], the [Staircase] factor at
    [r1] is at most the one at [r2], and the two are equal when
    [floor(r1/rampRounds) = floor(r2/rampRounds)]; the factor at
    [r1 + 1] differs from the one at [r1] only if [r1 + 1] is a multiple
    of [rampRounds]. *)
Theorem updateCoefficient_monotone (a : IEEE.double) n r1 r2 :
  IEEE.is_double a = true -> IEEE.le IEEE.dzero a = true ->
  0 < n < size_t_modulus -> 0 <= r1 <= r2 -> r2 < size_t_modulus ->
  let Linearly :=
    updateCoefficient AdjustLearningRateatBeginning.Linearly a n in
  let Staircase :=
    updateCoefficient AdjustLearningRateatBeginning.Staircase a n in
  (IEEE.le a IEEE.d_one = true ->
     IEEE.le (Linearly r1) (Linearly r2) = true
     /\ IEEE.le (IEEE.float_of_double a) (Linearly r1) = true
     /\ IEEE.le (Linearly r1) IEEE.fone = true)
  /\ (r2 / n + 1 < size_t_modulus ->
      IEEE.le (Staircase r1) (Staircase r2) = true
      /\ (r1 / n = r2 / n -> Staircase r1 = Staircase r2))
  /\ (Staircase (r1 + 1) <> Staircase r1 -> (r1 + 1) mod n = 0).
Proof.
  intros Hd H0 Hn Hr Hr2 Linearly Staircase.
  pose proof (is_double_nonneg a Hd H0) as Ha.
  split; [|split].
  - intros H1. subst Linearly. unfold updateCoefficient.
    fold (Linearly_ramp a n r1) (Linearly_ramp a n r2).
    destruct (Linearly_ramp_mono a n r1 r2 Ha H1 Hn Hr Hr2)
      as (Hv1 & Hv2 & Hle & Habove).
    destruct (float_of_double_le_one a Ha H1) as [Hva Ha1].
    split; [now apply clamp_mono|].
    split; [now apply clamp_above|].
    apply min_max_in_unit_interval.
  - intros Hk. subst Staircase. unfold updateCoefficient.
    assert (0 <= r1 / n <= r2 / n) as Hq.
    { split; [apply Z.div_pos; lia|apply Z.div_le_mono; lia]. }
    split.
    + rewrite !to_size_t_small by lia.
      fold (Staircase_ramp a n r1) (Staircase_ramp a n r2).
      destruct (Staircase_ramp_mono a n r1 r2 Ha ltac:(lia) Hr Hk)
        as (Hv1 & Hv2 & Hle).
      now apply clamp_mono.
    + now intros ->.
  - intros Hne. destruct (Z.eq_dec ((r1 + 1) mod n) 0) as [|Hm]; [assumption|].
    exfalso. apply Hne. subst Staircase. unfold updateCoefficient.
    now rewrite same_step by lia.
Qed.

End Ramp.

(** * The configuration check of the constructor *)

Section Configuration.
Context {ElemType : Type} `{!Element ElemType}.

Lemma MultiversoWrapper_new_check
    (store : list (Call ElemType) -> Z -> nat -> ElemType)
    (nodes : list (Matrix ElemType)) localWorkerNumber isPipeline
    momentumAdd elasticAdd adjusttype adjustcoef adjustnbmb :
  if IEEE.ne (IEEE.dmul momentumAdd elasticAdd) (IEEE.double_of_Z 0)
  then MultiversoWrapper_new store nodes localWorkerNumber isPipeline
         momentumAdd elasticAdd adjusttype adjustcoef adjustnbmb
       = InvalidArgument Please_choose
  else exists w,
      MultiversoWrapper_new store nodes localWorkerNumber isPipeline
        momentumAdd elasticAdd adjusttype adjustcoef adjustnbmb
      = Returned w.
Proof.
  unfold MultiversoWrapper_new.
  destruct (IEEE.ne _ _); [reflexivity|eauto].
Qed.

(** The product of two numbers of the format is not a zero when their
    magnitudes leave it above the smallest exponent. *)
Lemma dmul_nonzero x y :
  IEEE.is_double x = true -> IEEE.is_double y = true ->
  finite_nonzero x = true -> finite_nonzero y = true ->
  SpecFloat.emin IEEE.dprec IEEE.demax < magnitude x + magnitude y - 1 ->
  IEEE.ne (IEEE.dmul x y) (IEEE.double_of_Z 0) = true.
Proof.
  destruct x as [?|?| |s1 m1 e1], y as [?|?| |s2 m2 e2]; try discriminate.
  intros H1 H2 _ _ Hmag. cbn [magnitude] in Hmag.
  unfold IEEE.dmul, SFmul.
  pose proof (mul_exponent _ _ dprec_demax m1 m2 e1 e2 H1 H2) as He.
  destruct (binary_round_aux_normal_form _ _ dprec_pos
              (xorb s1 s2) _ _ loc_Exact (Pos2Z.is_nonneg (m1 * m2)) He)
    as (N & [HN _] & _ & HR & ->).
  pose proof (Zdigits2_mul (Z.pos m1) (Z.pos m2) ltac:(lia) ltac:(lia)) as Hd.
  rewrite <- Pos2Z.inj_mul in Hd.
  assert (0 < Z.pos (m1 * m2)) as Hm by lia.
  set (m := Z.pos (m1 * m2)) in *. clearbody m.
  set (t := SpecFloat.fexp IEEE.dprec IEEE.demax (Zdigits2 m + (e1 + e2))) in *.
  assert (t - (e1 + e2) < Zdigits2 m) as Hk.
  { subst t.
    unfold SpecFloat.fexp, SpecFloat.emin, IEEE.dprec, IEEE.demax in *. lia. }
  assert (0 < N) as HNpos.
  { pose proof (Zdigits2_div_pow m (t - (e1 + e2)) ltac:(lia) ltac:(lia)) as Hq.
    destruct (Z.eq_dec (m / 2 ^ (t - (e1 + e2))) 0) as [E0|];
      [rewrite E0 in Hq; simpl in Hq; lia|].
    assert (0 <= m / 2 ^ (t - (e1 + e2)))
      by (apply Z.div_pos; [lia|apply pow2_pos; lia]).
    lia. }
  destruct (pow2_prec IEEE.dprec dprec_pos) as [E2 Hpos].
  unfold normal_form, pack.
  destruct (N <? 2 ^ IEEE.dprec).
  - destruct N; try lia. now destruct (_ <=? _), s1, s2.
  - destruct (2 ^ (IEEE.dprec - 1)); try lia. now destruct (_ <=? _), s1, s2.
Qed.

Lemma dmul_zero x y :
  finite_or_zero x = true -> finite_or_zero y = true ->
  is_zero x || is_zero y = true ->
  IEEE.ne (IEEE.dmul x y) (IEEE.double_of_Z 0) = false.
Proof.
  destruct x as [?|?| |? ? ?], y as [?|?| |? ? ?]; try discriminate;
    reflexivity.
Qed.

(** C8.  The constructor throws exactly when the [double] product
    [_momentumAdd * _elasticAdd] compares unequal to 0.  It does so for
    0.3 and 0.5, and for every two nonzero finite coefficients whose
    magnitudes keep the product from underflowing.  It returns a wrapper
    when one coefficient is a zero and the other is finite.  It also
    returns one for the two nonzero coefficients 2^-600 and 2^-600,
    whose product underflows to 0; and it throws for 0 and infinity,
    whose product is a NaN, although one coefficient is zero. *)
Theorem MultiversoWrapper_new_exclusivity
    (store : list (Call ElemType) -> Z -> nat -> ElemType)
    (nodes : list (Matrix ElemType)) localWorkerNumber isPipeline
    adjusttype adjustcoef adjustnbmb :
  let new := fun momentumAdd elasticAdd =>
    MultiversoWrapper_new store nodes localWorkerNumber isPipeline
      momentumAdd elasticAdd adjusttype adjustcoef adjustnbmb in
  let tiny := double_pow2 (-600) in
  new (IEEE.double_lit 3 10) (IEEE.double_lit 5 10)
  = InvalidArgument Please_choose
  /\ (forall momentumAdd elasticAdd,
        IEEE.is_double momentumAdd = true -> IEEE.is_double elasticAdd = true ->
        finite_nonzero momentumAdd = true -> finite_nonzero elasticAdd = true ->
        SpecFloat.emin IEEE.dprec IEEE.demax
        < magnitude momentumAdd + magnitude elasticAdd - 1 ->
        new momentumAdd elasticAdd = InvalidArgument Please_choose)
  /\ (forall momentumAdd elasticAdd,
        finite_or_zero momentumAdd = true -> finite_or_zero elasticAdd = true ->
        is_zero momentumAdd || is_zero elasticAdd = true ->
        exists w, new momentumAdd elasticAdd = Returned w)
  /\ (IEEE.is_double tiny = true
      /\ IEEE.ne tiny IEEE.dzero = true
      /\ exists w, new tiny tiny = Returned w)
  /\ new IEEE.dzero (S754_infinity false) = InvalidArgument Please_choose.
Proof.
  intros new tiny. split; [|split; [|split; [|split; [split; [|split]|]]]].
  - exact (MultiversoWrapper_new_check store nodes localWorkerNumber isPipeline
             (IEEE.double_lit 3 10) (IEEE.double_lit 5 10)
             adjusttype adjustcoef adjustnbmb).
  - intros m e Hm He Hfm Hfe Hmag.
    pose proof (MultiversoWrapper_new_check store nodes localWorkerNumber
                  isPipeline m e adjusttype adjustcoef adjustnbmb) as H.
    now rewrite (dmul_nonzero m e Hm He Hfm Hfe Hmag) in H.
  - intros m e Hfm Hfe Hz.
    pose proof (MultiversoWrapper_new_check store nodes localWorkerNumber
                  isPipeline m e adjusttype adjustcoef adjustnbmb) as H.
    now rewrite (dmul_zero m e Hfm Hfe Hz) in H.
  - reflexivity.
  - reflexivity.
  - exact (MultiversoWrapper_new_check store nodes localWorkerNumber isPipeline
             tiny tiny adjusttype adjustcoef adjustnbmb).
  - exact (MultiversoWrapper_new_check store nodes localWorkerNumber isPipeline
             IEEE.dzero (S754_infinity false)
             adjusttype adjustcoef adjustnbmb).
Qed.
End Configuration.

(** * More on the layout that [Init] plans *)

Section Layout.
Context {ElemType : Type} `{!Element ElemType}.
Implicit Types (w : MultiversoWrapper ElemType).
Implicit Types (nodes : list (Matrix ElemType)).

Lemma offsets_from_lookup (lens : list Z) : forall b i len,
  lens !! i = Some len ->
  offsets_from b lens !! i = Some (b + fold_right Z.add 0 (take i lens)).
Proof.
  induction lens as [|x lens IH]; intros b i len Hi; [discriminate|].
  destruct i as [|i]; cbn.
  - f_equal. lia.
  - cbn in Hi. rewrite (IH _ _ _ Hi). f_equal. lia.
Qed.

Lemma sum_take_le (lens : list Z) : forall i len,
  Forall (fun x => 0 <= x) lens -> lens !! i = Some len ->
  fold_right Z.add 0 (take i lens) + len <= fold_right Z.add 0 lens.
Proof.
  induction lens as [|x lens IH]; intros i len Hpos Hi; [discriminate|].
  inversion Hpos as [|? ? Hx Hrest]; subst.
  destruct i as [|i]; cbn in *.
  - injection Hi as ->.
    assert (0 <= fold_right Z.add 0 lens); [|lia].
    clear IH Hpos. induction Hrest; cbn; lia.
  - specialize (IH _ _ Hrest Hi). lia.
Qed.

(** X1.  The layout of a constructed wrapper: one table entry for each
    tensor, the offset of a tensor is the number of elements of the
    tensors before it, every tensor ends inside [[0, _lTotalLength]], and
    [_lTotalLength] is the number of elements of the model.  Tensors
    copied to their offsets fill the array from 0 with their values in
    order, and reading the tensors back from the array returns them. *)
Theorem Init_layout store nodes workerCount isPipeline momentumAdd elasticAdd
    adjusttype adjustcoef adjustnbmb w :
  MultiversoWrapper_new store nodes workerCount isPipeline
    momentumAdd elasticAdd adjusttype adjustcoef adjustnbmb = Returned w ->
  0 < workerCount <= INT_MAX ->
  Z.of_nat (length (flat nodes)) <= INT_MAX ->
  Z.of_nat (length nodes) <= INT_MAX ->
  _nTableCnt w = Z.of_nat (length nodes)
  /\ _lTotalLength w = Z.of_nat (length (flat nodes))
  /\ (forall i mat, nodes !! i = Some mat ->
        _vTableLength w !! i = Some (Z.of_nat (length mat))
        /\ _vTableIdx w !! i = Some (elements_before nodes i)
        /\ elements_before nodes i + Z.of_nat (length mat) <= _lTotalLength w)
  /\ (forall values buf,
        map length values = map length nodes ->
        length buf = S (Z.to_nat (_lTotalLength w)) ->
        let buf' := CopyToArray_each values 0 (_vTableIdx w) buf in
        buf' = flat values ++ drop (Z.to_nat (_lTotalLength w)) buf
        /\ SetValue_each nodes 0 (_vTableIdx w) buf' = values).
Proof.
  intros Hnew Hn Hflat Hcount.
  destruct (wf_new _ _ _ _ _ _ _ _ _ _ Hnew Hn Hflat Hcount)
    as (Hwf & Hm & _).
  pose proof (wf_count w Hwf) as Hc. pose proof (wf_total w Hwf) as Ht.
  pose proof (wf_idx w Hwf) as Hi.
  unfold matches in Hm.
  assert (length (_vTableLength w) = length nodes) as Hlen
    by (rewrite <- Hm; apply length_map).
  split; [now rewrite Hc, Hlen|].
  split; [now rewrite Ht, <- Hm, sum_GetNumElements|].
  split.
  - intros i mat Hmat.
    assert (_vTableLength w !! i = Some (Z.of_nat (length mat))) as Hl
      by (rewrite <- Hm, list_lookup_fmap, Hmat; reflexivity).
    assert (fold_right Z.add 0 (take i (_vTableLength w))
            = elements_before nodes i) as Hbefore.
    { unfold elements_before. rewrite <- sum_GetNumElements, <- Hm.
      now rewrite <- fmap_take. }
    split; [exact Hl|]. split.
    + rewrite Hi, (offsets_from_lookup _ 0 i _ Hl), Hbefore. f_equal.
    + rewrite <- Hbefore, Ht.
      apply sum_take_le; [apply (wf_lens w Hwf)|exact Hl].
  - intros values buf Hshape Hbuf buf'.
    assert (matches w values) as Hmv.
    { unfold matches, GetNumElements. rewrite <- Hm. unfold GetNumElements.
      rewrite <- !(map_map length Z.of_nat). now f_equal. }
    assert (matches w nodes) as Hmn by exact Hm.
    subst buf'. rewrite (gather w values buf Hwf Hmv Hbuf).
    split; [reflexivity|].
    now apply scatter_gathered.
Qed.

(** ** The total length *)

Lemma to_int_add_to_int a b : to_int (to_int a + b) = to_int (a + b).
Proof.
  unfold to_int, int_modulus.
  replace (((a + 2 ^ 31) mod 2 ^ 32 - 2 ^ 31 + b + 2 ^ 31))
    with ((a + 2 ^ 31) mod 2 ^ 32 + b) by lia.
  rewrite Zplus_mod_idemp_l. f_equal. f_equal. lia.
Qed.

Lemma to_int_to_size_t z : to_int (to_size_t z) = to_int z.
Proof.
  unfold to_int, to_size_t, int_modulus, size_t_modulus.
  f_equal.
  rewrite (Z.div_mod z (2 ^ 64)) at 2 by lia.
  replace (2 ^ 64 * (z / 2 ^ 64) + z mod 2 ^ 64 + 2 ^ 31)
    with (z mod 2 ^ 64 + 2 ^ 31 + (2 ^ 32 * (z / 2 ^ 64)) * 2 ^ 32) by lia.
  now rewrite Z_mod_plus_full.
Qed.

Lemma to_int_add_to_size_t a b : to_int (to_size_t a + b) = to_int (a + b).
Proof.
  unfold to_int, to_size_t, int_modulus, size_t_modulus.
  f_equal.
  rewrite (Z.div_mod a (2 ^ 64)) at 2 by lia.
  replace (2 ^ 64 * (a / 2 ^ 64) + a mod 2 ^ 64 + b + 2 ^ 31)
    with (a mod 2 ^ 64 + b + 2 ^ 31 + (2 ^ 32 * (a / 2 ^ 64)) * 2 ^ 32) by lia.
  now rewrite Z_mod_plus_full.
Qed.

(** The accumulator of [accumulate] is an [int]: the result is the sum
    reduced to 32 bits. *)
Lemma accumulate_wraps (lens : list Z) : forall acc,
  to_int acc = acc ->
  accumulate lens acc = to_int (acc + fold_right Z.add 0 lens).
Proof.
  unfold accumulate.
  induction lens as [|x lens IH]; intros acc Hacc; cbn.
  - now rewrite Z.add_0_r.
  - rewrite IH.
    + rewrite to_int_add_to_int, to_int_add_to_size_t, <- Z.add_assoc.
      now rewrite to_int_add_to_size_t.
    + rewrite to_int_to_size_t, to_int_add_to_size_t.
      unfold to_int at 1. unfold to_int, int_modulus.
      set (y := (acc + x + 2 ^ 31) mod 2 ^ 32).
      pose proof (Z.mod_pos_bound (acc + x + 2 ^ 31) (2 ^ 32) ltac:(lia)).
      fold y in H. replace (y - 2 ^ 31 + 2 ^ 31) with y by lia.
      now rewrite Z.mod_small by lia.
Qed.

(** X2.  [_lTotalLength] is computed with an [int] accumulator: it is the
    number of elements of the model reduced to a 32-bit signed integer
    and converted to [size_t].  It is the number of elements when that
    is at most [INT_MAX]; for a model of more than [INT_MAX] and fewer
    than 2^32 elements it is 2^64 - 2^32 more. *)
Theorem Init_total_length store nodes workerCount isPipeline
    momentumAdd elasticAdd adjusttype adjustcoef adjustnbmb w :
  MultiversoWrapper_new store nodes workerCount isPipeline
    momentumAdd elasticAdd adjusttype adjustcoef adjustnbmb = Returned w ->
  let elements := Z.of_nat (length (flat nodes)) in
  _lTotalLength w = to_size_t (to_int elements)
  /\ (elements <= INT_MAX -> _lTotalLength w = elements)
  /\ (INT_MAX < elements < 2 ^ 32 ->
        _lTotalLength w = elements + (2 ^ 64 - 2 ^ 32)
        /\ _lTotalLength w <> elements).
Proof.
  unfold MultiversoWrapper_new.
  destruct (IEEE.ne _ _); [discriminate|].
  intros Hnew. injection Hnew as <-.
  unfold Init. cbn [_vTableLength _lTotalLength app].
  rewrite accumulate_wraps by reflexivity.
  rewrite Z.add_0_l, sum_GetNumElements.
  set (elements := Z.of_nat (length (flat nodes))).
  split; [reflexivity|].
  assert (0 <= elements) by (unfold elements; lia).
  unfold INT_MAX. split.
  - intros Hle. rewrite to_int_small by (unfold INT_MAX; lia).
    apply to_size_t_small. unfold size_t_modulus. lia.
  - intros [Hlo Hhi].
    assert (to_int elements = elements - 2 ^ 32) as ->.
    { unfold to_int, int_modulus.
      replace (elements + 2 ^ 31) with (elements - 2 ^ 31 + 1 * 2 ^ 32) by lia.
      rewrite Z_mod_plus_full, Z.mod_small by lia. lia. }
    assert (to_size_t (elements - 2 ^ 32) = elements + (2 ^ 64 - 2 ^ 32)) as ->.
    { unfold to_size_t, size_t_modulus.
      replace (elements - 2 ^ 32)
        with (elements + (2 ^ 64 - 2 ^ 32) + (-1) * 2 ^ 64) by lia.
      rewrite Z_mod_plus_full, Z.mod_small by lia. reflexivity. }
    split; [reflexivity|lia].
Qed.

(** ** The table and the partitions *)

Lemma chained_sum (pm : list (Z * Z)) : forall a b,
  chained a pm b -> fold_right Z.add 0 (map snd pm) = b - a.
Proof.
  induction pm as [|[idx size] pm IH]; intros a b; cbn.
  - lia.
  - intros (-> & Hs & Hrest). rewrite (IH _ _ Hrest). lia.
Qed.

Lemma new_fields store nodes workerCount isPipeline momentumAdd elasticAdd
    adjusttype adjustcoef adjustnbmb w :
  MultiversoWrapper_new store nodes workerCount isPipeline
    momentumAdd elasticAdd adjusttype adjustcoef adjustnbmb = Returned w ->
  _pSizeEachServer w = map snd (PartitionMap (_lTotalLength w) workerCount)
  /\ _pIdxEachServer w = map fst (PartitionMap (_lTotalLength w) workerCount)
  /\ calls (_adaptor w)
     = [SetTable 0 workerCount
          (to_size_t (_lTotalLength w / to_size_t workerCount + 1))
          (if is_single then "float" else "double")].
Proof.
  unfold MultiversoWrapper_new.
  destruct (IEEE.ne _ _); [discriminate|]. intros [= <-].
  repeat split; reflexivity.
Qed.

(** X3.  The one call the constructor makes to the store declares a
    table of one row for each worker and of
    [_lTotalLength / workerCount + 1] columns; every partition has at
    most that many elements, so each row that [Add] sends and
    [BatchLoad] receives fits a row of the table, and the sizes add up
    to [_lTotalLength]. *)
Theorem Init_table store nodes workerCount isPipeline momentumAdd elasticAdd
    adjusttype adjustcoef adjustnbmb w :
  MultiversoWrapper_new store nodes workerCount isPipeline
    momentumAdd elasticAdd adjusttype adjustcoef adjustnbmb = Returned w ->
  0 < workerCount <= INT_MAX ->
  Z.of_nat (length (flat nodes)) <= INT_MAX ->
  Z.of_nat (length nodes) <= INT_MAX ->
  let columns := _lTotalLength w / workerCount + 1 in
  calls (_adaptor w)
  = [SetTable 0 workerCount columns (if is_single then "float" else "double")]
  /\ length (_pSizeEachServer w) = Z.to_nat workerCount
  /\ length (_pIdxEachServer w) = Z.to_nat workerCount
  /\ Forall (fun size => 0 <= size <= columns) (_pSizeEachServer w)
  /\ fold_right Z.add 0 (_pSizeEachServer w) = _lTotalLength w.
Proof.
  intros Hnew Hn Hflat Hcount columns.
  destruct (wf_new _ _ _ _ _ _ _ _ _ _ Hnew Hn Hflat Hcount)
    as (Hwf & Hm & _ & _ & Hcl & _).
  pose proof (wf_parts w Hwf) as Hparts. rewrite Hcl in Hparts.
  pose proof (wf_total_nonneg w Hwf) as H0.
  pose proof (wf_total_range w Hwf) as Hr.
  assert (workerCount < size_t_modulus) as Hn'
    by (unfold INT_MAX, size_t_modulus in *; lia).
  assert (_lTotalLength w = Z.of_nat (length (flat nodes))) as HL.
  { rewrite (wf_total w Hwf). unfold matches in Hm.
    now rewrite <- Hm, sum_GetNumElements. }
  destruct (new_fields _ _ _ _ _ _ _ _ _ _ Hnew) as (Hsize & Hidx & Hcalls).
  split.
  { rewrite Hcalls. unfold columns.
    rewrite (to_size_t_small workerCount) by lia.
    rewrite to_size_t_small; [reflexivity|].
    assert (0 <= _lTotalLength w / workerCount <= _lTotalLength w).
    { split; [apply Z.div_pos; lia|].
      apply Z.div_le_upper_bound; nia. }
    unfold INT_MAX, size_t_modulus in *. lia. }
  assert (length (PartitionMap (_lTotalLength w) workerCount)
          = Z.to_nat workerCount) as Hlen
    by apply partition_loop_length.
  split; [now rewrite Hsize, length_map|].
  split; [now rewrite Hidx, length_map|].
  split.
  - rewrite Hsize. apply Forall_forall. intros size Hin.
    apply list_elem_of_fmap in Hin as ([idx size'] & -> & Hin).
    apply list_elem_of_lookup in Hin as [k Hk].
    destruct (PartitionMap_lookup_inv (_lTotalLength w) workerCount k idx size'
                (conj H0 Hr) (conj (proj1 Hn) Hn') Hk) as (_ & _ & ->).
    cbn. subst columns.
    assert (0 <= _lTotalLength w / workerCount) by (apply Z.div_pos; lia).
    destruct (_ <? _); lia.
  - pose proof (PartitionMap_chained (_lTotalLength w) workerCount
                  ltac:(lia) ltac:(lia)) as Hch.
    rewrite Hsize, (chained_sum _ _ _ Hch). lia.
Qed.

(** ** Fewer elements than workers *)

(** X4.  With fewer elements than workers the first [totalLength]
    partitions have one element each and every other partition is the
    empty range at offset [totalLength]; with no element at all every
    partition is the empty range at offset 0. *)
Theorem PartitionMap_fewer_elements_than_workers totalLength workerCount i :
  0 <= totalLength < workerCount ->
  workerCount <= INT_MAX ->
  (i < Z.to_nat workerCount)%nat ->
  PartitionMap totalLength workerCount !! i
  = Some (Z.min (Z.of_nat i) totalLength,
          if Z.of_nat i <? totalLength then 1 else 0).
Proof.
  intros HL Hn Hi.
  assert (workerCount < size_t_modulus)
    by (unfold INT_MAX, size_t_modulus in *; lia).
  rewrite PartitionMap_lookup by (unfold size_t_modulus in *; lia).
  rewrite Z.div_small, Z.mod_small by lia.
  unfold partition_offset.
  rewrite Z.div_small, Z.mod_small by lia.
  f_equal. f_equal; lia.
Qed.

(** X5.  The constructor accepts an empty list of tensors: with the two
    coefficients zero it throws nothing and returns a wrapper whose
    model has no element, whose partitions are all empty and whose
    arrays have the one element that [Init] always adds. *)
Theorem MultiversoWrapper_new_without_tensors
    (store : list (Call ElemType) -> Z -> nat -> ElemType)
    workerCount isPipeline adjusttype adjustcoef adjustnbmb :
  0 < workerCount <= INT_MAX ->
  exists w,
    MultiversoWrapper_new store [] workerCount isPipeline
      IEEE.dzero IEEE.dzero adjusttype adjustcoef adjustnbmb = Returned w
    /\ _nTableCnt w = 0 /\ _lTotalLength w = 0
    /\ _vTableLength w = [] /\ _vTableIdx w = []
    /\ _pIdxEachServer w = replicate (Z.to_nat workerCount) 0
    /\ _pSizeEachServer w = replicate (Z.to_nat workerCount) 0
    /\ _pDelta w = [indeterminate]
    /\ calls (_adaptor w)
       = [SetTable 0 workerCount 1 (if is_single then "float" else "double")].
Proof.
  intros Hn. eexists. split; [reflexivity|].
  assert (workerCount < size_t_modulus)
    by (unfold INT_MAX, size_t_modulus in *; lia).
  unfold Init. cbn [_nTableCnt _lTotalLength _vTableLength _vTableIdx
    _pIdxEachServer _pSizeEachServer _pDelta _adaptor calls _nClients
    app map length table_offsets].
  change (accumulate [] 0) with 0. change (to_size_t 0) with 0.
  assert (PartitionMap 0 workerCount
          = replicate (Z.to_nat workerCount) (0, 0)) as ->.
  { apply list_eq. intros i.
    destruct (decide (i < Z.to_nat workerCount)%nat) as [Hi|Hi].
    - rewrite PartitionMap_lookup by (unfold size_t_modulus in *; lia).
      rewrite Z.div_0_l, Z.mod_0_l by lia.
      unfold partition_offset. rewrite Z.div_0_l, Z.mod_0_l by lia.
      rewrite lookup_replicate_2 by lia.
      f_equal. f_equal; [lia|]. now destruct (Z.of_nat i <? 0) eqn:E; [lia|].
    - rewrite (proj1 (lookup_replicate_None _ _ _)) by lia.
      apply lookup_ge_None_2.
      unfold PartitionMap. rewrite partition_loop_length. lia. }
  rewrite !fmap_replicate. cbn [fst snd].
  rewrite (to_size_t_small workerCount) by lia.
  rewrite Z.div_0_l by lia.
  repeat split; reflexivity.
Qed.

End Layout.

(** * More on the rounds *)

Section MoreRounds.
Context {ElemType : Type} `{!Element ElemType}.
Implicit Types (w : MultiversoWrapper ElemType).
Implicit Types (nodes : list (Matrix ElemType)).

Local Abbreviation L w := (Z.to_nat (_lTotalLength w)).
Local Abbreviation entered w := (ModelSync_rotate (ModelSync_enter w)).

(** ** What no method changes *)

Lemma exchange_row_data w factor (delta cache : list ElemType) :
  row_data (exchange w factor delta cache).1.1 = row_data (_adaptor w).
Proof.
  unfold exchange, BatchLoad_into. now destruct (IEEE.le _ _).
Qed.

Lemma transfer_same_plan w late : same_plan w (transfer_at w late).
Proof.
  unfold transfer_at.
  pose proof (exchange_row_data w (thread_getUpdateCoefficient w late)
                (CopyToArray_each
                   (take (Z.to_nat (_nTableCnt w))
                      (default [] (_pPMatrixCache w !! Z.to_nat (_nCacheIdx w))))
                   0 (_vTableIdx w) (_pDelta w))
                (slot (_pPCache w) (Z.to_nat (_nCacheIdx w)))) as Hrd.
  destruct (exchange _ _ _ _) as [[a d] c]. cbn in Hrd.
  unfold same_plan. cbn. repeat split; auto.
Qed.

Lemma ModelSync_at_same_plan w nodes late :
  same_plan w (fst (ModelSync_at w nodes late)).
Proof.
  unfold ModelSync_at. rewrite enter_isPipeline.
  destruct (_isPipeline w) eqn:Hp.
  - destruct (swap_each _ _ _ _ _) as [cache nodes'].
    cbn [fst]. unfold spawn_transfer_at.
    set (w2 := set_pPMatrixCache _ cache).
    pose proof (transfer_same_plan w2 late) as Hplan.
    unfold same_plan in *. cbn.
    destruct Hplan as (H1&H2&H3&H4&H5&H6&H7&H8&H9&H10&H11&H12&H13&H14&H15).
    rewrite H1, H2, H3, H4, H5, H6, H7, H8, H9, H10, H11, H12, H13, H14, H15.
    unfold w2. cbn. autorewrite with enter. repeat split; reflexivity.
  - pose proof (exchange_row_data (entered w) (getUpdateCoefficient (entered w))
                  (CopyToArray_each nodes 0 (_vTableIdx (entered w))
                     (_pDelta (entered w)))
                  (slot (_pPCache (entered w)) 0)) as Hrd.
    destruct (exchange _ _ _ _) as [[a d] c]. cbn in Hrd.
    unfold same_plan. cbn. rewrite Hrd.
    autorewrite with enter. repeat split; reflexivity.
Qed.

Lemma ModelSync_same_plan w nodes : same_plan w (fst (ModelSync w nodes)).
Proof. exact (ModelSync_at_same_plan w nodes false). Qed.

Lemma ModelInit_same_plan w nodes : same_plan w (ModelInit w nodes).
Proof.
  unfold ModelInit. destruct (ModelInit_each _ _ _ _ _ _) as [c b].
  unfold same_plan, BatchLoad_into. cbn. repeat split; reflexivity.
Qed.

Lemma same_plan_trans w1 w2 w3 :
  same_plan w1 w2 -> same_plan w2 w3 -> same_plan w1 w3.
Proof.
  unfold same_plan.
  intros (?&?&?&?&?&?&?&?&?&?&?&?&?&?&?) (?&?&?&?&?&?&?&?&?&?&?&?&?&?&?).
  repeat split; congruence.
Qed.

Lemma same_plan_refl w : same_plan w w.
Proof. unfold same_plan. repeat split. Qed.

Lemma ModelSync_rounds_same_plan models : forall w,
  same_plan w (ModelSync_rounds w models).
Proof.
  induction models as [|m models IH]; intros w; cbn [ModelSync_rounds].
  - apply same_plan_refl.
  - eapply same_plan_trans; [apply ModelSync_same_plan|apply IH].
Qed.

(** ** The round counter and the slot index *)

Lemma transfer_counters w late :
  _commCnt (transfer_at w late) = _commCnt w
  /\ _pCacheState (transfer_at w late) = _pCacheState w.
Proof.
  unfold transfer_at. destruct (exchange _ _ _ _) as [[a d] c]. cbn. auto.
Qed.

Lemma ModelSync_counters w nodes :
  let w' := fst (ModelSync w nodes) in
  _commCnt w' = to_size_t (_commCnt w + 1)
  /\ _nCacheIdx w' = at_index (_pCacheState w) (Z.to_nat (_nCacheIdx w))
  /\ _pCacheState w' = _pCacheState w
  /\ _isPipeline w' = _isPipeline w.
Proof.
  intros w'. unfold w', ModelSync, ModelSync_at.
  rewrite enter_isPipeline.
  destruct (_isPipeline w) eqn:Hp.
  - destruct (swap_each _ _ _ _ _) as [cache nodes'].
    cbn [fst]. unfold spawn_transfer, spawn_transfer_at.
    set (w2 := set_pPMatrixCache _ cache).
    destruct (transfer_threads w2 false) as (_ & _ & Hi & Hc).
    destruct (transfer_counters w2 false) as (Hn & Hs).
    cbn. rewrite Hn, Hs, Hi, Hc. unfold w2. cbn.
    now autorewrite with enter.
  - destruct (exchange _ _ _ _) as [[a d] c]. cbn.
    now autorewrite with enter.
Qed.

Lemma ModelInit_counters w nodes :
  _commCnt (ModelInit w nodes) = _commCnt w
  /\ _nCacheIdx (ModelInit w nodes) = _nCacheIdx w
  /\ _pCacheState (ModelInit w nodes) = _pCacheState w
  /\ _isPipeline (ModelInit w nodes) = _isPipeline w.
Proof.
  unfold ModelInit. destruct (ModelInit_each _ _ _ _ _ _) as [c b].
  cbn. auto.
Qed.

Lemma ModelSync_rounds_counters models : forall w c i,
  _pCacheState w = (if _isPipeline w then [1; 0] else [0]) ->
  _commCnt w = c mod size_t_modulus ->
  _nCacheIdx w = (if _isPipeline w then i mod 2 else 0) ->
  let w' := ModelSync_rounds w models in
  let k := Z.of_nat (length models) in
  _commCnt w' = (c + k) mod size_t_modulus
  /\ _nCacheIdx w' = (if _isPipeline w then (i + k) mod 2 else 0)
  /\ _isPipeline w' = _isPipeline w.
Proof.
  induction models as [|nodes models IH]; intros w c i Hs Hc Hi; cbn zeta.
  - cbn [ModelSync_rounds length]. rewrite !Z.add_0_r. auto.
  - cbn [ModelSync_rounds length].
    destruct (ModelSync_counters w nodes) as (Hc' & Hi' & Hs' & Hp').
    specialize (IH (fst (ModelSync w nodes)) (c + 1) (i + 1)).
    rewrite Hp', Hs' in IH.
    destruct IH as (IHc & IHi & IHp).
    + exact Hs.
    + rewrite Hc', Hc. unfold to_size_t. now rewrite Zplus_mod_idemp_l.
    + rewrite Hi', Hi, Hs.
      destruct (_isPipeline w); [|reflexivity].
      pose proof (Z.mod_pos_bound i 2 ltac:(lia)) as Hb.
      rewrite <- (Zplus_mod_idemp_l i 1 2).
      assert (i mod 2 = 0 \/ i mod 2 = 1) as [-> | ->] by lia; reflexivity.
    + rewrite Nat2Z.inj_succ.
      replace (c + Z.succ (Z.of_nat (length models)))
        with (c + 1 + Z.of_nat (length models)) by lia.
      replace (i + Z.succ (Z.of_nat (length models)))
        with (i + 1 + Z.of_nat (length models)) by lia.
      auto.
Qed.

(** X6.  On a constructed wrapper, after [ModelInit] and [k] calls of
    [ModelSync], whatever the tensors, the round counter is [k] modulo
    2^64, and the slot index is [k mod 2] with pipeline and 0 without:
    the counter counts the calls of [ModelSync] only, and the two slots
    alternate. *)
Theorem ModelSync_rounds_counter_and_slot store nodes workerCount isPipeline
    momentumAdd elasticAdd adjusttype adjustcoef adjustnbmb w0 models :
  MultiversoWrapper_new store nodes workerCount isPipeline
    momentumAdd elasticAdd adjusttype adjustcoef adjustnbmb = Returned w0 ->
  let w := ModelSync_rounds (ModelInit w0 nodes) models in
  let k := Z.of_nat (length models) in
  _commCnt w = k mod size_t_modulus
  /\ _nCacheIdx w = (if isPipeline then k mod 2 else 0)
  /\ (k < size_t_modulus -> getUpdateCoefficient w
        = updateCoefficient adjusttype adjustcoef adjustnbmb k).
Proof.
  intros Hnew w k.
  assert (_pCacheState w0 = (if isPipeline then [1; 0] else [0])
          /\ _commCnt w0 = 0 /\ _nCacheIdx w0 = 0
          /\ _isPipeline w0 = isPipeline
          /\ _adjustlearningrateatbeginningtype w0 = adjusttype
          /\ _adjustcoefficient w0 = adjustcoef
          /\ _adjustnbmb w0 = adjustnbmb)
    as (Hs & Hc & Hi & Hp & Ht & Hco & Hnb).
  { revert Hnew. unfold MultiversoWrapper_new.
    destruct (IEEE.ne _ _); [discriminate|]. intros [= <-].
    cbn. now destruct isPipeline. }
  destruct (ModelInit_counters w0 nodes) as (Hc1 & Hi1 & Hs1 & Hp1).
  destruct (ModelSync_rounds_counters models (ModelInit w0 nodes) 0 0)
    as (Hc' & Hi' & Hp').
  - now rewrite Hs1, Hp1, Hs, Hp.
  - now rewrite Hc1, Hc.
  - rewrite Hi1, Hi, Hp1. now destruct (_isPipeline w0).
  - fold w in Hc', Hi', Hp'. rewrite Hp1, Hp in Hi'.
    rewrite Z.add_0_l in Hc', Hi'. fold k in Hc', Hi'.
    split; [exact Hc'|]. split; [exact Hi'|].
    intros Hk. unfold getUpdateCoefficient. rewrite Hc'.
    rewrite Z.mod_small by (unfold k in *; lia).
    assert (same_plan (ModelInit w0 nodes) w) as Hplan
      by apply ModelSync_rounds_same_plan.
    assert (same_plan w0 (ModelInit w0 nodes)) as Hplan0
      by apply ModelInit_same_plan.
    unfold same_plan in Hplan, Hplan0.
    destruct Hplan as (_&_&_&_&_&_&_&_&_&_&_&_&Ht'&Hco'&Hnb').
    destruct Hplan0 as (_&_&_&_&_&_&_&_&_&_&_&_&Ht0&Hco0&Hnb0).
    congruence.
Qed.

(** ** The calls of a round *)

Lemma exchange_calls w factor (delta cache : list ElemType) :
  exists buf,
    calls (exchange w factor delta cache).1.1
    = calls (_adaptor w)
      ++ (if IEEE.le (_elasticAdd w) IEEE.dzero
          then pushes w buf factor ++ [pull w]
          else [pull w]
               ++ pushes w buf (IEEE.float_of_double (_elasticAdd w))).
Proof.
  unfold exchange, BatchLoad_into, pushes, pull.
  destruct (IEEE.le _ _); cbn; eexists;
    rewrite <- ?app_assoc; reflexivity.
Qed.

Lemma transfer_calls w late :
  exists buf,
    calls (_adaptor (transfer_at w late))
    = calls (_adaptor w)
      ++ (if IEEE.le (_elasticAdd w) IEEE.dzero
          then pushes w buf (thread_getUpdateCoefficient w late) ++ [pull w]
          else [pull w]
               ++ pushes w buf (IEEE.float_of_double (_elasticAdd w))).
Proof.
  unfold transfer_at.
  destruct (exchange_calls w (thread_getUpdateCoefficient w late)
              (CopyToArray_each
                 (take (Z.to_nat (_nTableCnt w))
                    (default [] (_pPMatrixCache w !! Z.to_nat (_nCacheIdx w))))
                 0 (_vTableIdx w) (_pDelta w))
              (slot (_pPCache w) (Z.to_nat (_nCacheIdx w)))) as [buf Hc].
  destruct (exchange _ _ _ _) as [[a d] c]. cbn in Hc. cbn.
  now exists buf.
Qed.

(** X7.  Every call of [ModelSync], with or without pipeline and
    whatever the tensors, adds to the calls made to the store one [Add]
    for each worker's row, rows 0 to [_nClients - 1] of table 0 in that
    order and all with one factor, and one [BatchLoad], and nothing
    else; the calls made before are left as they were.  Under elastic
    averaging the [BatchLoad] comes first and the factor is
    [(float) _elasticAdd].  Under delta accumulation the [Add]s come
    first, and the factor is the one of the coefficient policy at the
    value of the round counter that is read: without pipeline the
    counter just incremented; with pipeline the thread reads the counter
    when it runs, so it is the counter just incremented or, when the
    caller's next [ModelSync] has counted before the thread read
    ([late]), one more.  With no ramp configured the factor of delta
    accumulation is 1.0 whenever the counter is read. *)
Theorem ModelSync_calls w nodes late :
  let w' := fst (ModelSync_at w nodes late) in
  let counted := to_size_t (_commCnt w + 1) in
  let read :=
    if _isPipeline w && late then to_size_t (counted + 1) else counted in
  let factor :=
    if IEEE.le (_elasticAdd w) IEEE.dzero
    then updateCoefficient (_adjustlearningrateatbeginningtype w)
           (_adjustcoefficient w) (_adjustnbmb w) read
    else IEEE.float_of_double (_elasticAdd w) in
  (exists buf,
     calls (_adaptor w')
     = calls (_adaptor w)
       ++ (if IEEE.le (_elasticAdd w) IEEE.dzero
           then pushes w buf factor ++ [pull w]
           else [pull w] ++ pushes w buf factor)
     /\ length (pushes w buf factor) = Z.to_nat (_nClients w)
     /\ (forall row, (row < Z.to_nat (_nClients w))%nat ->
           exists src, pushes w buf factor !! row
                       = Some (Add 0 (Z.of_nat row) src factor)))
  /\ length (calls (_adaptor w'))
     = (length (calls (_adaptor w)) + Z.to_nat (_nClients w) + 1)%nat
  /\ (_adjustlearningrateatbeginningtype w = AdjustLearningRateatBeginning.None ->
      IEEE.le (_elasticAdd w) IEEE.dzero = true -> factor = IEEE.fone).
Proof.
  intros w' counted read factor.
  assert (getUpdateCoefficient (entered w)
          = updateCoefficient (_adjustlearningrateatbeginningtype w)
              (_adjustcoefficient w) (_adjustnbmb w) counted) as Hf
    by (unfold getUpdateCoefficient; now autorewrite with enter).
  assert (forall c, thread_getUpdateCoefficient
                      (set_pPMatrixCache (entered w) c) late
          = updateCoefficient (_adjustlearningrateatbeginningtype w)
              (_adjustcoefficient w) (_adjustnbmb w)
              (if late then to_size_t (counted + 1) else counted)) as Hthread.
  { intros c. unfold thread_getUpdateCoefficient, thread_commCnt.
    cbn [_adjustlearningrateatbeginningtype _adjustcoefficient _adjustnbmb
         _commCnt set_pPMatrixCache].
    autorewrite with enter. now destruct late. }
  assert (exists buf,
            calls (_adaptor w')
            = calls (_adaptor w)
              ++ (if IEEE.le (_elasticAdd w) IEEE.dzero
                  then pushes w buf factor ++ [pull w]
                  else [pull w] ++ pushes w buf factor)) as [buf Hcalls].
  { unfold w', ModelSync_at. rewrite enter_isPipeline.
    unfold factor, read.
    destruct (_isPipeline w) eqn:Hp; cbn [andb].
    - destruct (swap_each _ _ _ _ _) as [cache nodes'].
      cbn [fst]. unfold spawn_transfer_at.
      set (w2 := set_pPMatrixCache _ cache).
      destruct (transfer_calls w2 late) as [buf Hc].
      exists buf. cbn. rewrite Hc. unfold w2.
      rewrite Hthread.
      unfold pushes, pull. cbn. autorewrite with enter.
      now destruct (IEEE.le _ _).
    - destruct (exchange_calls (entered w) (getUpdateCoefficient (entered w))
                  (CopyToArray_each nodes 0 (_vTableIdx (entered w))
                     (_pDelta (entered w)))
                  (slot (_pPCache (entered w)) 0)) as [buf Hc].
      destruct (exchange _ _ _ _) as [[a d] c]. cbn in Hc.
      exists buf. cbn. rewrite Hc, Hf.
      rewrite pushes_enter, pull_enter.
      autorewrite with enter. rewrite ?pushes_enter.
      now destruct (IEEE.le _ _). }
  assert (length (pushes w buf factor) = Z.to_nat (_nClients w)) as Hlen
    by (unfold pushes, add_rows; now rewrite length_map, length_seq).
  split; [|split].
  - exists buf. split; [exact Hcalls|]. split; [exact Hlen|].
    intros row Hrow. eexists. unfold pushes.
    now rewrite lookup_add_rows.
  - rewrite Hcalls.
    destruct (IEEE.le _ _); rewrite !length_app, Hlen; cbn; lia.
  - intros Hnone He. unfold factor. now rewrite He, Hnone.
Qed.

(** ** Threads *)

(** X8.  A wrapper constructed without pipeline never starts a thread:
    whatever methods are called on it, [_pThread] is not joinable and no
    transfer is in flight. *)
Theorem no_thread_without_pipeline w :
  reachable w -> _isPipeline w = false ->
  _pThread w = not_joinable /\ in_flight w = [].
Proof.
  intros [Hun Hjoin]%orderly_reachable Hp.
  assert (_pThread w = not_joinable) as Ht.
  { destruct (_pThread w); [reflexivity|].
    specialize (Hjoin eq_refl). congruence. }
  split; [exact Ht|]. unfold in_flight. now rewrite Ht, Hun.
Qed.

(** X9.  The destructor waits for the transfer of the last round: after
    it no transfer is in flight, whatever methods were called before.
    It then releases [_pCacheState], every slot of [_pPCache] once and
    [_pPCache], and shuts the store down with [FinishTrain] and
    [Close(false)], in that order. *)
Theorem MultiversoWrapper_delete_joins w :
  reachable w ->
  let w' := fst (MultiversoWrapper_delete w) in
  let released := snd (MultiversoWrapper_delete w) in
  in_flight w' = []
  /\ same_plan w w'
  /\ (forall i, cudaFreeHost_pPCache i ∈ released
                <-> 0 <= i < (if _isPipeline w then 2 else 1))
  /\ NoDup released
  /\ drop (length released - 2) released = [FinishTrain; Close false].
Proof.
  intros Hreach w' released.
  destruct (orderly_reachable w Hreach) as [Hun Hjoin].
  assert (_nLocalCache w = if _isPipeline w then 2 else 1) as Hn.
  { clear -Hreach. induction Hreach as [? ? ? ? ? ? ? ? ? w Hnew
      | w nodes _ IH | w nodes late _ IH | w nodes _ IH | w nodes _ IH].
    - revert Hnew. unfold MultiversoWrapper_new.
      destruct (IEEE.ne _ _); [discriminate|]. now intros [= <-].
    - destruct (ModelInit_same_plan w nodes) as (_&_&_&_&_&_&_&Hc&Hp&_).
      now rewrite Hc, Hp.
    - destruct (ModelSync_at_same_plan w nodes late)
        as (_&_&_&_&_&_&_&Hc&Hp&_).
      now rewrite Hc, Hp.
    - unfold ModelLoadServer.
      destruct (BatchLoad_into _ _ _ _ _) as [a server]. exact IH.
    - exact IH. }
  split.
  { unfold w', MultiversoWrapper_delete, join_previous, in_flight. cbn [fst].
    destruct (_isPipeline w) eqn:Hp; cbn [andb].
    - destruct (joinable (_pThread w)) eqn:Hj; cbn; [exact Hun|].
      now rewrite Hj, Hun.
    - destruct (joinable (_pThread w)) eqn:Hj.
      + specialize (Hjoin eq_refl). congruence.
      + now rewrite Hun. }
  split.
  { unfold w', MultiversoWrapper_delete, join_previous. cbn [fst].
    destruct (_ && _); unfold same_plan; repeat split. }
  unfold released, MultiversoWrapper_delete. cbn [snd]. rewrite Hn.
  destruct (_isPipeline w).
  - change (Z.to_nat (to_size_t 2)) with 2%nat. cbn.
    split; [|split; [|reflexivity]].
    + intros i. rewrite !elem_of_cons, elem_of_nil. split.
      * intros [H0|[H0|[H0|[H0|[H0|[H0|[H0|[H0|[]]]]]]]]];
          try discriminate; injection H0 as ->; lia.
      * intros Hi. assert (i = 0 \/ i = 1) as [-> | ->] by lia; auto.
    + repeat (constructor;
              [rewrite ?elem_of_cons, elem_of_nil; intuition discriminate|]).
      constructor.
  - change (Z.to_nat (to_size_t 1)) with 1%nat. cbn.
    split; [|split; [|reflexivity]].
    + intros i. rewrite !elem_of_cons, elem_of_nil. split.
      * intros [H0|[H0|[H0|[H0|[H0|[H0|[H0|[]]]]]]]];
          try discriminate; injection H0 as ->; lia.
      * intros Hi. assert (i = 0) as -> by lia. auto.
    + repeat (constructor;
              [rewrite ?elem_of_cons, elem_of_nil; intuition discriminate|]).
      constructor.
Qed.

End MoreRounds.

(** * Operations in sequence *)

Section Compose.
Context {ElemType : Type} `{!Element ElemType}.
Implicit Types (w : MultiversoWrapper ElemType).
Implicit Types (nodes : list (Matrix ElemType)).

Local Abbreviation L w := (Z.to_nat (_lTotalLength w)).
Local Abbreviation entered w := (ModelSync_rotate (ModelSync_enter w)).

(** ** Rounds with pipeline *)

Lemma pipelined_delta_round w nodes :
  wf w -> device_ok w -> matches w nodes -> _isPipeline w = true ->
  IEEE.le (_elasticAdd w) IEEE.dzero = true ->
  let old := Z.to_nat (_nCacheIdx w) in
  let cur := (1 - old)%nat in
  let w' := fst (ModelSync w nodes) in
  let factor :=
    updateCoefficient (_adjustlearningrateatbeginningtype w)
      (_adjustcoefficient w) (_adjustnbmb w) (to_size_t (_commCnt w + 1)) in
  let before := calls (_adaptor w) ++ pushes w (_pDelta w') factor in
  _nCacheIdx w' = Z.of_nat cur
  /\ payload w (_pDelta w')
     = zip_with minus (flat nodes) (payload w (slot (_pPCache w) cur))
  /\ calls (_adaptor w') = before ++ [pull w]
  /\ payload w (slot (_pPCache w') cur) = pulled w before
  /\ slot (_pPCache w') old = slot (_pPCache w) old
  /\ _pDelta w'
     = zip_with minus (flat nodes) (payload w (slot (_pPCache w) cur))
       ++ drop (L w) (_pDelta w).
Proof.
  intros Hwf Hdev Hm Hp He old cur w' factor before.
  destruct (ModelSync_pipelined w nodes Hwf Hdev Hm Hp)
    as (_ & Hidx & Hadaptor & Hdelta & Hcache & _).
  fold w' old cur in Hidx, Hadaptor, Hdelta, Hcache.
  pose proof (matches_total w nodes Hwf Hm) as HL.
  pose proof (wf_nslots w Hwf) as Hn. rewrite Hp in Hn.
  pose proof (wf_current w Hwf) as Hcur. rewrite Hn in Hcur.
  assert (cur < length (_pPCache w))%nat as Hcurlt
    by (rewrite (wf_slots w Hwf), Hn; unfold cur; lia).
  assert (length (slot (_pPCache w) cur) = S (L w)) as Hslot
    by now apply wf_slot_length.
  assert (getUpdateCoefficient (entered w) = factor) as Hfactor
    by (unfold getUpdateCoefficient; now autorewrite with enter).
  rewrite exchange_delta in Hadaptor, Hdelta, Hcache;
    autorewrite with enter; auto using wf_enter.
  rewrite Hfactor in Hadaptor. cbn [fst snd] in Hadaptor, Hdelta, Hcache.
  rewrite pushes_enter, pull_enter, payload_enter in Hadaptor.
  rewrite payload_enter in Hdelta.
  rewrite pushes_enter, pulled_enter, payload_enter, Hfactor in Hcache.
  autorewrite with enter in Hadaptor, Hcache.
  assert (length (zip_with minus (flat nodes)
                    (payload w (slot (_pPCache w) cur))) = L w) as Hlen
    by (rewrite length_zip_with, length_payload; lia).
  split; [exact Hidx|]. split; [rewrite Hdelta; now apply payload_app|].
  unfold before. rewrite Hdelta. split; [now rewrite Hadaptor|].
  split; [|split; [|reflexivity]].
  - rewrite Hcache, slot_insert by done.
    apply payload_app. now apply length_pulled.
  - rewrite Hcache. unfold slot.
    rewrite list_lookup_insert_ne; [reflexivity|]. unfold cur, old. lia.
Qed.

(** X10.  With pipeline and under delta accumulation the two cache slots
    are used in turn, and the delta a round pushes is the local snapshot
    minus the content of its own slot: the snapshot merged two rounds
    before, not the one the round before brought.  Of three rounds in a
    row, the second subtracts what its slot held before the first, and
    the third subtracts what the first one pulled. *)
Theorem ModelSync_pipelined_baseline w nodes1 nodes2 nodes3 :
  wf w -> device_ok w ->
  matches w nodes1 -> matches w nodes2 -> matches w nodes3 ->
  _isPipeline w = true -> IEEE.le (_elasticAdd w) IEEE.dzero = true ->
  let w1 := fst (ModelSync w nodes1) in
  let w2 := fst (ModelSync w1 nodes2) in
  let w3 := fst (ModelSync w2 nodes3) in
  let factor :=
    updateCoefficient (_adjustlearningrateatbeginningtype w)
      (_adjustcoefficient w) (_adjustnbmb w) (to_size_t (_commCnt w + 1)) in
  let merged1 :=
    pulled w (calls (_adaptor w) ++ pushes w (_pDelta w1) factor) in
  _nCacheIdx w1 = 1 - _nCacheIdx w
  /\ _nCacheIdx w2 = _nCacheIdx w
  /\ _nCacheIdx w3 = _nCacheIdx w1
  /\ payload w (slot (_pPCache w1) (Z.to_nat (_nCacheIdx w1))) = merged1
  /\ payload w (_pDelta w2)
     = zip_with minus (flat nodes2)
         (payload w (slot (_pPCache w) (Z.to_nat (_nCacheIdx w))))
  /\ payload w (_pDelta w3) = zip_with minus (flat nodes3) merged1.
Proof.
  intros Hwf Hdev Hm1 Hm2 Hm3 Hp He w1 w2 w3 factor merged1.
  pose proof (wf_nslots w Hwf) as Hn. rewrite Hp in Hn.
  pose proof (wf_current w Hwf) as Hcur. rewrite Hn in Hcur.
  destruct (pipelined_delta_round w nodes1 Hwf Hdev Hm1 Hp He)
    as (Hi1 & _ & _ & Hs1 & Ho1 & _).
  destruct (wf_ModelSync_pipelined w nodes1 Hwf Hdev Hm1 Hp)
    as (Hwf1 & Hdev1 & Hplan1).
  fold w1 in Hi1, Hs1, Ho1, Hwf1, Hdev1, Hplan1. fold factor merged1 in Hs1.
  destruct (same_plan_flags w w1 Hplan1) as [Hp1 He1].
  rewrite Hp in Hp1. rewrite <- He1 in He.
  pose proof (same_plan_matches w w1 nodes2 Hplan1 Hm2) as Hm2'.
  destruct (pipelined_delta_round w1 nodes2 Hwf1 Hdev1 Hm2' Hp1 He)
    as (Hi2 & Hd2 & _ & _ & Ho2 & _).
  destruct (wf_ModelSync_pipelined w1 nodes2 Hwf1 Hdev1 Hm2' Hp1)
    as (Hwf2 & Hdev2 & Hplan2).
  fold w2 in Hi2, Hd2, Ho2, Hwf2, Hdev2, Hplan2.
  destruct (same_plan_flags w1 w2 Hplan2) as [Hp2 He2].
  rewrite Hp1 in Hp2. rewrite <- He2 in He.
  pose proof (same_plan_matches w1 w2 nodes3 Hplan2
                (same_plan_matches w w1 nodes3 Hplan1 Hm3)) as Hm3'.
  destruct (pipelined_delta_round w2 nodes3 Hwf2 Hdev2 Hm3' Hp2 He)
    as (Hi3 & Hd3 & _).
  fold w3 in Hi3, Hd3.
  pose proof (fun buf => same_plan_payload w w1 buf Hplan1) as P1.
  pose proof (fun buf => same_plan_payload w1 w2 buf Hplan2) as P2.
  rewrite !P2, !P1 in Hd3. rewrite !P1 in Hd2.
  assert (_nCacheIdx w1 = 1 - _nCacheIdx w) as E1 by lia.
  assert (_nCacheIdx w2 = _nCacheIdx w) as E2 by lia.
  assert (_nCacheIdx w3 = _nCacheIdx w1) as E3 by lia.
  assert ((1 - Z.to_nat (_nCacheIdx w))%nat = Z.to_nat (_nCacheIdx w1))
    as C1 by lia.
  assert ((1 - Z.to_nat (_nCacheIdx w1))%nat = Z.to_nat (_nCacheIdx w))
    as C2 by lia.
  assert ((1 - Z.to_nat (_nCacheIdx w2))%nat = Z.to_nat (_nCacheIdx w1))
    as C3 by lia.
  rewrite C1 in Hs1. rewrite C2 in Hd2. rewrite C3 in Hd3.
  rewrite Ho1 in Hd2. rewrite Ho2, Hs1 in Hd3.
  repeat split; assumption.
Qed.

(** ** The sizes of the arrays *)

Lemma exchange_guard w factor local gd (cache : list ElemType) :
  wf w -> length local = L w -> length cache = S (L w) ->
  let x := exchange w factor (local ++ gd) cache in
  drop (L w) x.1.2 = gd /\ drop (L w) x.2 = drop (L w) cache
  /\ length x.1.2 = (L w + length gd)%nat /\ length x.2 = S (L w).
Proof.
  intros Hwf Hlocal Hcache.
  assert (forall before, length (pulled w before) = L w) as Hpulled
    by (intros; now apply length_pulled).
  assert (forall (a b : list ElemType), length a = L w -> length b = L w ->
            length (zip_with minus a b) = L w) as Hzip
    by (intros; rewrite length_zip_with; lia).
  assert (length (payload w cache) = L w) by (apply length_payload; lia).
  destruct (IEEE.le (_elasticAdd w) IEEE.dzero) eqn:He; cbv zeta.
  - rewrite exchange_delta by done. cbn [fst snd].
    rewrite !guard_app by auto.
    rewrite !length_app, length_drop, Hzip, Hpulled by done.
    repeat split; lia.
  - rewrite exchange_elastic by done. cbn [fst snd].
    rewrite !guard_app by auto.
    rewrite !length_app, length_drop, !Hzip by auto.
    repeat split; lia.
Qed.

(** X13.  Every array of the wrapper has [_lTotalLength + 1] elements.
    A round of [ModelSync], with or without pipeline and under either
    strategy, writes the first [_lTotalLength] elements only: the delta
    buffer and every cache slot keep their length and their last
    element, and the tensors keep their sizes. *)
Theorem ModelSync_keeps_sizes w nodes :
  wf w -> (_isPipeline w = true -> device_ok w) -> matches w nodes ->
  let w' := fst (ModelSync w nodes) in
  matches w (snd (ModelSync w nodes))
  /\ length (_pDelta w') = S (L w)
  /\ drop (L w) (_pDelta w') = drop (L w) (_pDelta w)
  /\ length (_pPCache w') = length (_pPCache w)
  /\ (forall j, (j < length (_pPCache w))%nat ->
        length (slot (_pPCache w') j) = S (L w)
        /\ drop (L w) (slot (_pPCache w') j)
           = drop (L w) (slot (_pPCache w) j)).
Proof.
  intros Hwf Hdev Hm w'.
  pose proof (matches_total w nodes Hwf Hm) as HL.
  pose proof (wf_delta w Hwf) as Hd.
  pose proof (wf_nslots w Hwf) as Hn.
  pose proof (wf_slots w Hwf) as Hslots.
  pose proof (wf_current w Hwf) as Hcur.
  pose proof (wf_enter w Hwf) as Hwf1.
  assert (exists cur x,
            (cur < length (_pPCache w))%nat
            /\ x = exchange (entered w) (getUpdateCoefficient (entered w))
                     (flat nodes ++ drop (L w) (_pDelta w))
                     (slot (_pPCache w) cur)
            /\ _pDelta w' = x.1.2
            /\ _pPCache w' = <[cur := x.2]> (_pPCache w)
            /\ matches w (snd (ModelSync w nodes)))
    as (cur & x & Hlt & Hx & Hdelta & Hcache & Hshape).
  { destruct (_isPipeline w) eqn:Hp.
    - destruct (ModelSync_pipelined w nodes Hwf (Hdev eq_refl) Hm Hp)
        as (Hsnd & _ & _ & Hdelta & Hcache & _).
      exists (1 - Z.to_nat (_nCacheIdx w))%nat. eexists.
      split; [rewrite Hslots, Hn; lia|]. split; [reflexivity|].
      split; [exact Hdelta|]. split; [exact Hcache|].
      rewrite Hsnd.
      destruct (device_row w (Z.to_nat (_nCacheIdx w)) Hwf (Hdev eq_refl))
        as (row & -> & Hrow); [rewrite Hn; lia|]. exact Hrow.
    - exists 0%nat. eexists.
      split; [rewrite Hslots, Hn; lia|]. split; [reflexivity|].
      destruct (wf_ModelSync_sequential w nodes Hwf Hm Hp)
        as (_ & _ & Hlen).
      assert (matches w (snd (ModelSync w nodes))) as Hshape.
      { unfold matches. rewrite <- Hm. unfold GetNumElements.
        rewrite <- !(map_map length Z.of_nat). now rewrite Hlen. }
      revert Hshape. unfold w', ModelSync, ModelSync_at. rewrite enter_isPipeline, Hp.
      rewrite gather by (autorewrite with enter; auto using matches_enter).
      autorewrite with enter.
      destruct (exchange _ _ _ _) as [[a d] c] eqn:Hex. cbn.
      auto. }
  assert (length (slot (_pPCache w) cur) = S (L w)) as Hslot
    by now apply wf_slot_length.
  destruct (exchange_guard (entered w) (getUpdateCoefficient (entered w))
              (flat nodes) (drop (L w) (_pDelta w)) (slot (_pPCache w) cur))
    as (Gd & Gc & Ld & Lc); autorewrite with enter; auto.
  autorewrite with enter in Gd, Gc, Ld, Lc. rewrite <- Hx in Gd, Gc, Ld, Lc.
  split; [exact Hshape|].
  split; [rewrite Hdelta, Ld, length_drop; lia|].
  split; [now rewrite Hdelta|].
  split; [rewrite Hcache; apply length_insert|].
  intros j Hj. rewrite Hcache.
  destruct (decide (j = cur)) as [->|Hne].
  - rewrite slot_insert by done. auto.
  - unfold slot. rewrite list_lookup_insert_ne by auto.
    split; [|reflexivity]. now apply wf_slot_length.
Qed.

(** ** The invariant over the rounds *)

Lemma device_ok_ModelSync_sequential w nodes :
  device_ok w -> _isPipeline w = false ->
  device_ok (fst (ModelSync w nodes)).
Proof.
  intros [Hlen Hrows] Hp.
  destruct (ModelSync_same_plan w nodes) as (Pl & _ & _ & _ & _ & _ & _ & Pn & _).
  assert (_pPMatrixCache (fst (ModelSync w nodes)) = _pPMatrixCache w) as Hc.
  { unfold ModelSync, ModelSync_at. rewrite enter_isPipeline, Hp.
    destruct (exchange _ _ _ _) as [[a d] c]. cbn.
    now autorewrite with enter. }
  split; rewrite Hc, ?Pl, ?Pn; assumption.
Qed.

Lemma ModelSync_rounds_invariant w models :
  wf w -> device_ok w -> Forall (matches w) models ->
  wf (ModelSync_rounds w models) /\ device_ok (ModelSync_rounds w models).
Proof.
  revert w. induction models as [|nodes models IH]; intros w Hwf Hdev Hall.
  - split; assumption.
  - apply Forall_cons in Hall as [Hm Hall]. cbn [ModelSync_rounds].
    assert (wf (fst (ModelSync w nodes))
            /\ device_ok (fst (ModelSync w nodes))) as [Hwf' Hdev'].
    { destruct (_isPipeline w) eqn:Hp.
      - destruct (wf_ModelSync_pipelined w nodes Hwf Hdev Hm Hp)
          as (? & ? & _). auto.
      - destruct (wf_ModelSync_sequential w nodes Hwf Hm Hp) as (? & _).
        auto using device_ok_ModelSync_sequential. }
    apply IH; [assumption..|].
    eapply Forall_impl; [exact Hall|].
    intros m. apply same_plan_matches, ModelSync_same_plan.
Qed.

Lemma ModelSync_rounds_orderly models : forall w,
  orderly w -> orderly (ModelSync_rounds w models).
Proof.
  induction models as [|m models IH]; intros w Ho; [exact Ho|].
  cbn [ModelSync_rounds]. apply IH.
  destruct (ModelSync_threads w m Ho) as (Hp & Hu & Ht).
  destruct Ho as [_ Hjoin].
  split; [exact Hu|]. rewrite Hp. intros Hj.
  destruct (_isPipeline w); [reflexivity|].
  rewrite Ht in Hj. auto.
Qed.

(** X14.  On a constructed wrapper, after [ModelInit] and any number of
    calls of [ModelSync] on tensors of the sizes given at construction,
    with or without pipeline and under either strategy, the delta
    buffer, the two temporary arrays and every cache slot still have
    [_lTotalLength + 1] elements, there are as many slots as
    [_nLocalCache], the slot index is one of them, every slot of the
    device cache holds tensors of the sizes of the model, and at most
    one transfer is in flight. *)
Theorem ModelSync_rounds_keep_the_arrays store nodes workerCount isPipeline
    momentumAdd elasticAdd adjusttype adjustcoef adjustnbmb w0 models :
  MultiversoWrapper_new store nodes workerCount isPipeline
    momentumAdd elasticAdd adjusttype adjustcoef adjustnbmb = Returned w0 ->
  0 < workerCount <= INT_MAX ->
  Z.of_nat (length (flat nodes)) <= INT_MAX ->
  Z.of_nat (length nodes) <= INT_MAX ->
  Forall (fun model => map length model = map length nodes) models ->
  let w := ModelSync_rounds (ModelInit w0 nodes) models in
  let n := length (flat nodes) in
  _lTotalLength w = Z.of_nat n
  /\ length (_pDelta w) = S n
  /\ length (_pTempForServer w) = S n
  /\ length (_pTempForLocal w) = S n
  /\ length (_pPCache w) = (if isPipeline then 2 else 1)%nat
  /\ Forall (fun cache => length cache = S n) (_pPCache w)
  /\ 0 <= _nCacheIdx w < (if isPipeline then 2 else 1)
  /\ length (_pPMatrixCache w) = (if isPipeline then 2 else 1)%nat
  /\ Forall (fun row => map length row = map length nodes) (_pPMatrixCache w)
  /\ (length (in_flight w) <= 1)%nat.
Proof.
  intros Hnew Hn Hflat Hcount Hall w n.
  destruct (ready _ _ _ _ _ _ _ _ _ _ Hnew Hn Hflat Hcount)
    as (Hwf & Hm & Hdev & Hplan & Hp & _ & _ & _ & _ & _ & _ & _ & Hth & Hun
        & _).
  set (w1 := ModelInit w0 nodes) in *.
  assert (Forall (matches w1) models) as Hall'.
  { eapply Forall_impl; [exact Hall|]. intros m Hlen. unfold matches.
    rewrite <- Hm. unfold GetNumElements.
    rewrite <- !(map_map length Z.of_nat). now rewrite Hlen. }
  destruct (ModelSync_rounds_invariant w1 models Hwf Hdev Hall')
    as [Hwf' Hdev'].
  fold w in Hwf', Hdev'.
  pose proof (ModelSync_rounds_same_plan models w1) as Hplan'.
  fold w in Hplan'.
  pose proof Hplan' as (Pl & _ & PL & _ & _ & _ & _ & Pn & Pp & _).
  pose proof (matches_total w1 nodes Hwf Hm) as HL. fold n in HL.
  assert (_nLocalCache w = if isPipeline then 2 else 1) as Hslots
    by (rewrite (wf_nslots w Hwf'), Pp, Hp; reflexivity).
  assert (Z.to_nat (_lTotalLength w) = n) as HL' by now rewrite PL.
  split; [rewrite PL; pose proof (wf_total_nonneg w1 Hwf); lia|].
  split; [now rewrite (wf_delta w Hwf'), HL'|].
  split; [now rewrite (wf_server w Hwf'), HL'|].
  split; [now rewrite (wf_local w Hwf'), HL'|].
  split; [rewrite (wf_slots w Hwf'), Hslots; now destruct isPipeline|].
  split; [rewrite <- HL'; apply (wf_slot w Hwf')|].
  split; [rewrite <- Hslots; apply (wf_current w Hwf')|].
  destruct Hdev' as [Hlen Hrows].
  split; [rewrite Hlen, Hslots; now destruct isPipeline|].
  split.
  - eapply Forall_impl; [exact Hrows|]. intros row Hrow.
    apply same_sizes. now rewrite Hrow, Pl, <- Hm.
  - assert (orderly w) as [Hu Hj].
    { apply ModelSync_rounds_orderly.
      split; [exact Hun|]. rewrite Hth. discriminate. }
    unfold in_flight. rewrite Hu, app_nil_r.
    destruct (joinable (_pThread w)); cbn; lia.
Qed.

(** ** Loading the server's model *)

Lemma ModelLoadServer_explicit w nodes :
  wf w -> matches w nodes ->
  ModelLoadServer w nodes
  = (set_pTempForServer
       (set_adaptor
          (set_pTempForLocal w (flat nodes ++ drop (L w) (_pTempForLocal w)))
          (record_call (_adaptor w) (pull w)))
       (pulled w (calls (_adaptor w)) ++ drop (L w) (_pTempForServer w)),
     shaped_like nodes (pulled w (calls (_adaptor w)))).
Proof.
  intros Hwf Hm.
  pose proof (matches_total w nodes Hwf Hm) as HL.
  pose proof (wf_local w Hwf) as Hlocal.
  pose proof (wf_server w Hwf) as Hserver.
  pose proof (length_pulled w (calls (_adaptor w)) Hwf) as Hpulled.
  unfold ModelLoadServer.
  rewrite gather, batch_load by done.
  rewrite scatter by (auto; rewrite length_app; lia).
  now rewrite payload_app.
Qed.

Lemma wf_ModelLoadServer w nodes :
  wf w -> matches w nodes ->
  let w1 := fst (ModelLoadServer w nodes) in
  wf w1 /\ same_plan w w1 /\ matches w1 (snd (ModelLoadServer w nodes))
  /\ map length (snd (ModelLoadServer w nodes)) = map length nodes.
Proof.
  intros Hwf Hm w1.
  pose proof (matches_total w nodes Hwf Hm) as HL.
  pose proof (matches_sum_list w nodes Hwf Hm) as HS.
  pose proof (length_pulled w (calls (_adaptor w)) Hwf) as Hpulled.
  assert (same_plan w w1) as Hplan
    by (unfold w1; rewrite ModelLoadServer_explicit by done;
        unfold same_plan; cbn; tauto).
  unfold w1 in *. rewrite ModelLoadServer_explicit in * by done.
  cbn [fst snd] in *.
  split; [|split; [exact Hplan|split]].
  - eapply wf_frame; [exact Hwf | exact Hplan | ..]; cbn.
    + apply (wf_delta w Hwf).
    + rewrite length_app, length_drop, (wf_server w Hwf). lia.
    + rewrite length_app, length_drop, (wf_local w Hwf). lia.
    + reflexivity.
    + apply (wf_slot w Hwf).
    + apply (wf_current w Hwf).
  - apply (same_plan_matches w); [exact Hplan|].
    apply shaped_sizes; auto. lia.
  - apply length_reshape_each. lia.
Qed.

(** X11.  [ModelLoadServer] keeps one saved model, the one of its last
    call.  Called twice in a row, the second call saves what the first
    wrote to the tensors, so [ModelLoadBack] then gives the tensors the
    server's values of the first call, and the model the tensors held
    before the first call is no longer in the wrapper. *)
Theorem ModelLoadServer_twice_ModelLoadBack w nodes :
  wf w -> matches w nodes ->
  let first := ModelLoadServer w nodes in
  let second := ModelLoadServer (fst first) (snd first) in
  let back := ModelLoadBack (fst second) (snd second) in
  snd first = shaped_like nodes (pulled w (calls (_adaptor w)))
  /\ snd second
     = shaped_like nodes (pulled w (calls (_adaptor w) ++ [pull w]))
  /\ snd back = snd first
  /\ payload w (_pTempForLocal (fst back))
     = pulled w (calls (_adaptor w))
  /\ calls (_adaptor (fst back)) = calls (_adaptor w) ++ [pull w; pull w].
Proof.
  intros Hwf Hm first second back.
  destruct (wf_ModelLoadServer w nodes Hwf Hm) as (Hwf1 & Hplan & Hm1 & Hshape).
  pose proof (length_pulled w (calls (_adaptor w)) Hwf) as Hpulled.
  pose proof (length_pulled w (calls (_adaptor w) ++ [pull w]) Hwf) as Hpulled2.
  pose proof (matches_sum_list w nodes Hwf Hm) as HS.
  fold first in Hwf1, Hplan, Hm1, Hshape.
  assert (first.2 = shaped_like nodes (pulled w (calls (_adaptor w))))
    as Hfirst
    by (unfold first; now rewrite ModelLoadServer_explicit).
  assert (calls (_adaptor first.1) = calls (_adaptor w) ++ [pull w])
    as Hcalls
    by (unfold first; now rewrite ModelLoadServer_explicit).
  assert (flat (shaped_like nodes (pulled w (calls (_adaptor w))))
          = pulled w (calls (_adaptor w))) as Hflat.
  { unfold flat, shaped_like. apply concat_reshape. lia. }
  assert (forall before, pulled first.1 before = pulled w before) as Hsame.
  { intros before. unfold pulled.
    destruct Hplan as (_&_&_&_&_&Hi&Hs&_&_&_&_&Hr&_).
    now rewrite Hi, Hs, Hr. }
  assert (second.2
          = shaped_like nodes (pulled w (calls (_adaptor w) ++ [pull w])))
    as Hsecond.
  { unfold second. rewrite ModelLoadServer_explicit by done. cbn [snd].
    unfold shaped_like. now rewrite Hshape, Hsame, Hcalls. }
  split; [exact Hfirst|]. split; [exact Hsecond|].
  assert (_pTempForLocal second.1
          = flat first.2 ++ drop (L first.1) (_pTempForLocal first.1))
    as Hsaved
    by (unfold second; now rewrite ModelLoadServer_explicit).
  assert (_vTableIdx second.1 = _vTableIdx first.1) as Hidx
    by (unfold second; now rewrite ModelLoadServer_explicit).
  split.
  { unfold back, ModelLoadBack. cbn [snd]. rewrite Hsaved, Hidx.
    assert (L first.1 = L w) as HL1
      by (destruct Hplan as (_&_&HL&_); now rewrite HL).
    apply scatter_gathered; [done | |].
    - rewrite Hsecond. unfold matches.
      rewrite <- (shaped_sizes first.1 first.2 (pulled w (calls (_adaptor w) ++ [pull w])))
        by (auto; lia).
      unfold shaped_like. now rewrite Hshape.
    - rewrite Hsecond, Hshape. unfold shaped_like. symmetry.
      apply length_reshape_each. lia. }
  change (back.1) with (second.1). split.
  - rewrite Hsaved, Hfirst, Hflat. now apply payload_app.
  - assert (calls (_adaptor second.1)
            = calls (_adaptor first.1) ++ [pull first.1]) as ->
      by (unfold second; now rewrite ModelLoadServer_explicit).
    replace (pull first.1) with (pull w)
      by (unfold pull; destruct Hplan as (_&_&_&_&_&Hi&Hs&_);
          now rewrite Hi, Hs).
    now rewrite Hcalls, <- app_assoc.
Qed.

(** The delta buffer and the calls of a round of delta accumulation,
    with or without pipeline. *)
Lemma delta_round w nodes :
  wf w -> (_isPipeline w = true -> device_ok w) -> matches w nodes ->
  IEEE.le (_elasticAdd w) IEEE.dzero = true ->
  let cur :=
    if _isPipeline w then (1 - Z.to_nat (_nCacheIdx w))%nat else 0%nat in
  let w' := fst (ModelSync w nodes) in
  let factor :=
    updateCoefficient (_adjustlearningrateatbeginningtype w)
      (_adjustcoefficient w) (_adjustnbmb w) (to_size_t (_commCnt w + 1)) in
  _pDelta w'
  = zip_with minus (flat nodes) (payload w (slot (_pPCache w) cur))
    ++ drop (L w) (_pDelta w)
  /\ calls (_adaptor w')
     = calls (_adaptor w) ++ pushes w (_pDelta w') factor ++ [pull w].
Proof.
  intros Hwf Hdev Hm He cur w' factor.
  destruct (_isPipeline w) eqn:Hp.
  - destruct (pipelined_delta_round w nodes Hwf (Hdev eq_refl) Hm Hp He)
      as (_ & _ & Hcalls & _ & _ & Hdelta).
    split; [exact Hdelta|]. fold w' in Hcalls.
    now rewrite Hcalls, <- app_assoc.
  - pose proof (ModelSync_sequential_delta w nodes Hwf Hm Hp He) as Hround.
    cbv zeta in Hround.
    assert (getUpdateCoefficient (entered w) = factor) as Hfactor
      by (unfold getUpdateCoefficient; now autorewrite with enter).
    rewrite Hfactor in Hround. unfold w'. rewrite Hround. cbn.
    split; [reflexivity|]. now rewrite <- app_assoc.
Qed.

(** X12.  Under delta accumulation, with or without pipeline, loading
    the server's model and restoring the local one between two rounds
    changes nothing of what the next round pushes: [ModelSync] called
    after [ModelLoadServer] and [ModelLoadBack] leaves the same delta
    buffer, counter and slot as [ModelSync] called at once, and it makes
    the same calls, after the one [BatchLoad] of [ModelLoadServer]. *)
Theorem ModelLoadServer_ModelLoadBack_then_ModelSync w nodes nodes' :
  wf w -> (_isPipeline w = true -> device_ok w) ->
  matches w nodes -> matches w nodes' ->
  IEEE.le (_elasticAdd w) IEEE.dzero = true ->
  let loaded := ModelLoadServer w nodes in
  let back := ModelLoadBack (fst loaded) (snd loaded) in
  let direct := fst (ModelSync w nodes') in
  let after := fst (ModelSync (fst back) nodes') in
  _pDelta after = _pDelta direct
  /\ _commCnt after = _commCnt direct
  /\ _nCacheIdx after = _nCacheIdx direct
  /\ calls (_adaptor after)
     = calls (_adaptor w) ++ [pull w]
       ++ drop (length (calls (_adaptor w))) (calls (_adaptor direct)).
Proof.
  intros Hwf Hdev Hm Hm' He loaded back direct after.
  destruct (wf_ModelLoadServer w nodes Hwf Hm) as (Hwf1 & Hplan & _).
  fold loaded in Hwf1, Hplan.
  change (back.1) with (loaded.1) in *.
  assert (_pDelta loaded.1 = _pDelta w /\ _pPCache loaded.1 = _pPCache w
          /\ _pPMatrixCache loaded.1 = _pPMatrixCache w
          /\ _commCnt loaded.1 = _commCnt w
          /\ _nCacheIdx loaded.1 = _nCacheIdx w
          /\ calls (_adaptor loaded.1) = calls (_adaptor w) ++ [pull w])
    as (Fd & Fc & Fm & Fn & Fi & Fcalls)
    by (unfold loaded; rewrite ModelLoadServer_explicit by done;
        repeat split; reflexivity).
  pose proof Hplan as (Pl & _ & PL & _ & _ & _ & _ & Pn & Pp & _ & Pe & _
                       & Pt & Pco & Pnb).
  assert (_isPipeline loaded.1 = true -> device_ok loaded.1) as Hdev1.
  { rewrite Pp. intros Hp. destruct (Hdev Hp) as [Hlen Hrows].
    split; rewrite Fm, ?Pl, ?Pn; assumption. }
  pose proof (same_plan_matches w loaded.1 nodes' Hplan Hm') as Hm1.
  assert (IEEE.le (_elasticAdd loaded.1) IEEE.dzero = true) as He1
    by now rewrite Pe.
  destruct (delta_round w nodes' Hwf Hdev Hm' He) as [Hd Hc].
  destruct (delta_round loaded.1 nodes' Hwf1 Hdev1 Hm1 He1) as [Hd1 Hc1].
  fold direct in Hd, Hc. fold after in Hd1, Hc1.
  rewrite Pp, Fi, Fc, Fd, PL, (same_plan_payload w loaded.1 _ Hplan) in Hd1.
  assert (_pDelta after = _pDelta direct) as Hsame by now rewrite Hd, Hd1.
  rewrite Pt, Pco, Pnb, Fn, Fcalls, Hsame in Hc1.
  assert (forall buf factor, pushes loaded.1 buf factor = pushes w buf factor)
    as Hpushes.
  { intros buf factor. unfold pushes.
    destruct Hplan as (_&_&_&_&Hcl&Hi&_). now rewrite Hcl, Hi. }
  assert (pull loaded.1 = pull w) as Hpull.
  { unfold pull. destruct Hplan as (_&_&_&_&_&Hi&Hs&_). now rewrite Hi, Hs. }
  rewrite Hpushes, Hpull in Hc1.
  destruct (ModelSync_counters w nodes') as (Cn & Ci & _).
  destruct (ModelSync_counters loaded.1 nodes') as (Cn1 & Ci1 & _).
  fold direct in Cn, Ci. fold after in Cn1, Ci1.
  destruct Hplan as (_&_&_&_&_&_&_&_&_&Ps&_).
  split; [exact Hsame|]. split; [now rewrite Cn1, Cn, Fn|].
  split; [now rewrite Ci1, Ci, Fi, Ps|].
  rewrite Hc1, Hc, drop_app_length, <- app_assoc. reflexivity.
Qed.
End Compose.

(** * The statements at a worked configuration

    Two [float] tensors of 3 and 5 elements, 3 workers, the default ramp
    configuration (coefficient 0.2 over 600 rounds). *)

Section Worked.
Local Abbreviation setup store model0 isPipeline elasticAdd adjusttype :=
  (MultiversoWrapper_new store model0 3 isPipeline IEEE.dzero elasticAdd
     adjusttype (IEEE.double_lit 2 10) 600).

Local Ltac bounds :=
  try reflexivity; unfold INT_MAX; cbn; lia.

Local Ltac get_ready Hnew :=
  let H := fresh in
  pose proof (ready _ _ _ _ _ _ _ _ _ _ Hnew ltac:(bounds) ltac:(bounds)
                ltac:(bounds)) as H;
  cbv zeta in H;
  destruct H as (Hwf & Hm & Hdev & Hplan & Hp & He & Hc & Ht & Hco & Hnb
                 & Hcnt & Hidx & Hth & Hun & Hrd).

Lemma ModelSync_delta_accumulation_witness :
  exists w0,
    setup (constant_store (f32 7)) (constant_model (f32 1)) false IEEE.dzero
      AdjustLearningRateatBeginning.None = Returned w0
    /\ let w := ModelInit w0 (constant_model (f32 1)) in
       let w' := fst (ModelSync w (constant_model (f32 5))) in
       payload w (_pDelta w') = replicate 8 (f32 4)
       /\ snd (ModelSync w (constant_model (f32 5))) = constant_model (f32 7).
Proof.
  eexists. split; [reflexivity|].
  match goal with |- context [ModelInit ?w0 _] =>
    assert (setup (constant_store (f32 7)) (constant_model (f32 1)) false
              IEEE.dzero AdjustLearningRateatBeginning.None = Returned w0)
      as Hnew by reflexivity
  end.
  get_ready Hnew. cbv zeta.
  match goal with |- context [ModelSync ?x _] => set (w := x) in * end.
  assert (matches w (constant_model (f32 5))) as Hm5
    by (unfold matches; rewrite <- Hm; reflexivity).
  destruct (ModelSync_delta_accumulation w (constant_model (f32 5)) Hwf Hm5 Hp
              ltac:(rewrite He; reflexivity))
    as (_ & Hdelta & _ & _ & _ & _ & _ & Hmodel & _).
  split.
  - rewrite Hdelta. vm_compute. reflexivity.
  - rewrite Hmodel. vm_compute. reflexivity.
Defined.

Local Ltac start store model0 isPipeline elasticAdd adjusttype :=
  eexists; split; [reflexivity|];
  let Hnew := fresh "Hnew" in
  match goal with |- context [ModelInit ?w0 _] =>
    assert (setup store model0 isPipeline elasticAdd adjusttype = Returned w0)
      as Hnew by reflexivity
  end;
  get_ready Hnew; cbv zeta;
  match goal with |- context [ModelInit ?w0 ?m] =>
    set (w := ModelInit w0 m) in *
  end.

Local Ltac same_shape Hm := unfold matches; rewrite <- Hm; reflexivity.

(** Against C2 as stated: with no ramp configured and 3 workers, the
    first [Add] of a round carries the factor 1.0, which is not 1/3. *)
Lemma ModelSync_factor_is_not_reciprocal :
  exists w0,
    setup (constant_store (f32 7)) (constant_model (f32 1)) false IEEE.dzero
      AdjustLearningRateatBeginning.None = Returned w0
    /\ let w := ModelInit w0 (constant_model (f32 1)) in
       let w' := fst (ModelSync w (constant_model (f32 5))) in
       calls (_adaptor w') !! 6%nat
       = Some (Add 0 0 (replicate 8 (f32 4) ++ [S754_nan]) IEEE.fone)
       /\ IEEE.fone <> IEEE.fdiv IEEE.fone (IEEE.float_of_Z (_nClients w)).
Proof.
  eexists. split; [reflexivity|]. cbv zeta.
  split; [vm_compute; reflexivity | vm_compute; discriminate].
Qed.

Lemma ModelSync_elastic_averaging_witness :
  (exists w0,
     setup (constant_store (f32 2)) (constant_model (f32 1)) false
       (IEEE.double_lit 5 10) AdjustLearningRateatBeginning.None = Returned w0
     /\ let w := ModelInit w0 (constant_model (f32 1)) in
        let w' := fst (ModelSync w (constant_model (f32 5))) in
        payload w (slot (_pPCache w') 0) = replicate 8 (f32 3)
        /\ payload w (_pDelta w') = replicate 8 (f32 2))
  /\ (exists w0,
        setup (constant_store (f32 2)) (constant_model (f32 1)) true
          (IEEE.double_lit 5 10) AdjustLearningRateatBeginning.Linearly
        = Returned w0
        /\ let w := ModelInit w0 (constant_model (f32 1)) in
           let w' := fst (ModelSync_at w (constant_model (f32 5)) true) in
           payload w (slot (_pPCache w') 1) = replicate 8 (f32 3)
           /\ payload w (_pDelta w') = replicate 8 (f32 2)
           /\ snd (ModelSync w' (constant_model (f32 9)))
              = constant_model (f32 2)).
Proof.
  split.
  - start (constant_store (f32 2)) (constant_model (f32 1)) false
      (IEEE.double_lit 5 10) AdjustLearningRateatBeginning.None.
    assert (matches w (constant_model (f32 5))) as Hm5 by same_shape Hm.
    destruct (ModelSync_elastic_averaging w (constant_model (f32 5)) false
                Hwf (fun _ => Hdev) Hm5 ltac:(rewrite He; reflexivity))
      as (Hcur & _ & _ & _ & Hdiff & Hdelta & _).
    cbv zeta in Hcur. rewrite Hp in Hcur. rewrite Hcur in Hdiff.
    split.
    + change (ModelSync w (constant_model (f32 5)))
        with (ModelSync_at w (constant_model (f32 5)) false).
      rewrite Hdiff. vm_compute. reflexivity.
    + change (ModelSync w (constant_model (f32 5)))
        with (ModelSync_at w (constant_model (f32 5)) false).
      rewrite Hdelta. vm_compute. reflexivity.
  - start (constant_store (f32 2)) (constant_model (f32 1)) true
      (IEEE.double_lit 5 10) AdjustLearningRateatBeginning.Linearly.
    assert (matches w (constant_model (f32 5))) as Hm5 by same_shape Hm.
    assert (matches w (constant_model (f32 9))) as Hm9 by same_shape Hm.
    destruct (ModelSync_elastic_averaging w (constant_model (f32 5)) true
                Hwf (fun _ => Hdev) Hm5 ltac:(rewrite He; reflexivity))
      as (Hcur & _ & _ & _ & Hdiff & Hdelta & _ & Hback & _).
    cbv zeta in Hcur. rewrite Hp, Hidx in Hcur.
    change (1 - Z.to_nat 0)%nat with 1%nat in Hcur.
    rewrite Hcur in Hdiff.
    destruct (Hback Hp) as [_ Hnext].
    split; [rewrite Hdiff; vm_compute; reflexivity|].
    split; [rewrite Hdelta; vm_compute; reflexivity|].
    change (ModelSync ?a ?b) with (ModelSync_at a b false).
    rewrite (Hnext (constant_model (f32 9)) false Hm9).
    vm_compute. reflexivity.
Defined.

(** Against C3 as stated: local 5, merged 2; after the push the delta
    buffer holds 5 - (5 - 2) = 2, not 5 - 2 = 3. *)
Lemma ModelSync_elastic_delta_is_not_local_minus_merged :
  exists w0,
    setup (constant_store (f32 2)) (constant_model (f32 1)) false
      (IEEE.double_lit 5 10) AdjustLearningRateatBeginning.None = Returned w0
    /\ let w := ModelInit w0 (constant_model (f32 1)) in
       let w' := fst (ModelSync w (constant_model (f32 5))) in
       payload w (_pDelta w')
       <> zip_with minus (flat (constant_model (f32 5)))
            (pulled w (calls (_adaptor w))).
Proof.
  eexists. split; [reflexivity|]. cbv zeta. vm_compute. discriminate.
Qed.

Lemma ModelInit_after_construction_witness :
  exists w0,
    setup (constant_store (f32 7)) (constant_model (f32 0)) true IEEE.dzero
      AdjustLearningRateatBeginning.None = Returned w0
    /\ let w := ModelInit w0 (constant_model (f32 0)) in
       Forall (eq (f32 0)) (payload w0 (slot (_pPCache w) 0))
       /\ Forall (eq (f32 0)) (payload w0 (slot (_pPCache w) 1))
       /\ _pPMatrixCache w = replicate 2 (constant_model (f32 0)).
Proof.
  eexists. split; [reflexivity|]. cbv zeta.
  match goal with |- context [ModelInit ?w0 _] =>
    assert (setup (constant_store (f32 7)) (constant_model (f32 0)) true
              IEEE.dzero AdjustLearningRateatBeginning.None = Returned w0)
      as Hnew by reflexivity
  end.
  destruct (ModelInit_after_construction _ _ _ _ _ _ _ _ _ _ Hnew
              ltac:(bounds) ltac:(bounds) ltac:(bounds))
    as (_ & _ & _ & _ & _ & _ & Hdevice & Hzero).
  split; [|split].
  - apply (Hzero (f32 0)); [repeat constructor | lia].
  - apply (Hzero (f32 0)); [repeat constructor | lia].
  - exact Hdevice.
Defined.

(** Against C4 as stated: local weights 1, a store that answers 7;
    after [ModelInit] slot 0 holds the local weights, not what
    [BatchLoad] brought. *)
Lemma ModelInit_slot_is_not_merged :
  exists w0,
    setup (constant_store (f32 7)) (constant_model (f32 1)) true IEEE.dzero
      AdjustLearningRateatBeginning.None = Returned w0
    /\ let w := ModelInit w0 (constant_model (f32 1)) in
       forall before,
         payload w0 (slot (_pPCache w) 0) <> pulled w0 before.
Proof.
  eexists. split; [reflexivity|]. cbv zeta. intros before.
  vm_compute. discriminate.
Qed.


Lemma getUpdateCoefficient_policy_witness :
  exists w0,
    setup (constant_store (f32 7)) (constant_model (f32 1)) false IEEE.dzero
      AdjustLearningRateatBeginning.Staircase = Returned w0
    /\ let w := fst (ModelSync (ModelInit w0 (constant_model (f32 1)))
                       (constant_model (f32 5))) in
       in_unit_interval (getUpdateCoefficient w)
       /\ same_number (getUpdateCoefficient w)
            (IEEE.float_of_double (IEEE.double_lit 2 10)).
Proof.
  eexists. split; [reflexivity|]. cbv zeta.
  match goal with |- context [getUpdateCoefficient ?x] => set (w := x) in * end.
  destruct (getUpdateCoefficient_policy w ltac:(intros _; reflexivity))
    as (Hrange & _ & _ & Hstair & _).
  split; [exact Hrange|].
  destruct (Hstair eq_refl ltac:(vm_compute; discriminate)
              ltac:(reflexivity)) as (Hclamp & _).
  specialize (Hclamp eq_refl). vm_compute. reflexivity.
Defined.

(** Against C6 as stated: under [Staircase] with [rampRounds = 1], at the
    round index 2^64 - 1 the multiplier [_commCnt / _adjustnbmb + 1]
    wraps to 0 and the factor is 0, where the formula gives 1. *)
Lemma Staircase_wraps_at_the_last_round_index :
  updateCoefficient AdjustLearningRateatBeginning.Staircase
    (IEEE.double_lit 2 10) 1 (2 ^ 64 - 1) = IEEE.fzero
  /\ clamp (Staircase_ramp (IEEE.double_lit 2 10) 1 (2 ^ 64 - 1))
       IEEE.fzero IEEE.fone = IEEE.fone
  /\ ~ same_number IEEE.fzero IEEE.fone.
Proof. vm_compute. repeat split. discriminate. Qed.

Lemma ModelSync_pipelined_staleness_witness :
  exists w0,
    setup (constant_store (f32 7)) (constant_model (f32 1)) true IEEE.dzero
      AdjustLearningRateatBeginning.None = Returned w0
    /\ let w := ModelInit w0 (constant_model (f32 1)) in
       let w' := fst (ModelSync w (constant_model (f32 5))) in
       snd (ModelSync w (constant_model (f32 5))) = constant_model (f32 1)
       /\ snd (ModelSync w' (constant_model (f32 9))) = constant_model (f32 7).
Proof.
  start (constant_store (f32 7)) (constant_model (f32 1)) true IEEE.dzero
    AdjustLearningRateatBeginning.None.
  assert (matches w (constant_model (f32 5))) as Hm5 by same_shape Hm.
  assert (matches w (constant_model (f32 9))) as Hm9 by same_shape Hm.
  destruct (ModelSync_pipelined_staleness w (constant_model (f32 5))
              (constant_model (f32 9)) Hwf Hdev Hm5 Hm9 Hp)
    as (_ & Hfirst & Hdelta & _).
  split.
  - apply Hfirst. vm_compute. reflexivity.
  - destruct (Hdelta ltac:(rewrite He; reflexivity)) as (_ & Hnext).
    rewrite Hnext. vm_compute. reflexivity.
Defined.

(** Against C9 as stated: under elastic averaging with pipeline, local
    weights 2^25 and a merged snapshot of 1; the next round writes back
    2^25 - (2^25 - 1), which in [float] is 0, not the merged 1. *)
Lemma ModelSync_pipelined_elastic_writes_back_the_residual :
  exists w0,
    setup (constant_store (f32 1)) (constant_model (f32 0)) true
      (IEEE.double_lit 5 10) AdjustLearningRateatBeginning.None = Returned w0
    /\ let w := ModelInit w0 (constant_model (f32 0)) in
       let w' := fst (ModelSync w (constant_model (f32 (2 ^ 25)))) in
       snd (ModelSync w' (constant_model (f32 9))) = constant_model (f32 0)
       /\ forall before,
            snd (ModelSync w' (constant_model (f32 9)))
            <> shaped_like (constant_model (f32 9)) (pulled w before).
Proof.
  eexists. split; [reflexivity|]. cbv zeta.
  split; [vm_compute; reflexivity|].
  intros before. vm_compute. discriminate.
Qed.

Lemma ModelLoadServer_ModelLoadBack_witness :
  exists w0,
    setup (constant_store (f32 7)) (constant_model (f32 1)) true IEEE.dzero
      AdjustLearningRateatBeginning.None = Returned w0
    /\ let w := ModelInit w0 (constant_model (f32 1)) in
       let w1 := fst (ModelLoadServer w (constant_model (f32 5))) in
       let nodes1 := snd (ModelLoadServer w (constant_model (f32 5))) in
       nodes1 = constant_model (f32 7)
       /\ snd (ModelLoadBack w1 nodes1) = constant_model (f32 5).
Proof.
  start (constant_store (f32 7)) (constant_model (f32 1)) true IEEE.dzero
    AdjustLearningRateatBeginning.None.
  assert (matches w (constant_model (f32 5))) as Hm5 by same_shape Hm.
  destruct (ModelLoadServer_ModelLoadBack w (constant_model (f32 5)) Hwf Hm5)
    as (_ & _ & _ & Hserver & Hback & _).
  split; [|exact Hback].
  rewrite Hserver. vm_compute. reflexivity.
Defined.
(** ** The layout and the table *)

Lemma Init_layout_witness :
  exists w,
    setup (constant_store (f32 7)) (constant_model (f32 1)) false IEEE.dzero
      AdjustLearningRateatBeginning.None = Returned w
    /\ _nTableCnt w = 2 /\ _lTotalLength w = 8
    /\ _vTableIdx w !! 1%nat = Some 3
    /\ SetValue_each (constant_model (f32 1)) 0 (_vTableIdx w)
         (CopyToArray_each (constant_model (f32 5)) 0 (_vTableIdx w)
            (replicate 9 (f32 0)))
       = constant_model (f32 5).
Proof.
  eexists. split; [reflexivity|].
  match goal with |- _ ?w = _ /\ _ =>
    assert (setup (constant_store (f32 7)) (constant_model (f32 1)) false
              IEEE.dzero AdjustLearningRateatBeginning.None = Returned w)
      as Hnew by reflexivity
  end.
  destruct (Init_layout _ _ _ _ _ _ _ _ _ _ Hnew ltac:(bounds) ltac:(bounds)
              ltac:(bounds)) as (Hcount & Htotal & Heach & Hcopy).
  split; [exact Hcount|]. split; [exact Htotal|]. split.
  - destruct (Heach 1%nat (replicate 3 (f32 1) ++ replicate 2 (f32 1))
                eq_refl) as (_ & Hidx & _).
    exact Hidx.
  - destruct (Hcopy (constant_model (f32 5)) (replicate 9 (f32 0)) eq_refl
                eq_refl) as [_ Hback].
    exact Hback.
Defined.

Lemma Init_total_length_witness :
  exists w,
    setup (constant_store (f32 7)) (constant_model (f32 1)) false IEEE.dzero
      AdjustLearningRateatBeginning.None = Returned w
    /\ _lTotalLength w = 8.
Proof.
  eexists. split; [reflexivity|].
  match goal with |- _ ?w = _ =>
    assert (setup (constant_store (f32 7)) (constant_model (f32 1)) false
              IEEE.dzero AdjustLearningRateatBeginning.None = Returned w)
      as Hnew by reflexivity
  end.
  destruct (Init_total_length _ _ _ _ _ _ _ _ _ _ Hnew) as (_ & Hsmall & _).
  apply Hsmall. bounds.
Defined.

Lemma Init_table_witness :
  exists w,
    setup (constant_store (f32 7)) (constant_model (f32 1)) false IEEE.dzero
      AdjustLearningRateatBeginning.None = Returned w
    /\ calls (_adaptor w) = [SetTable 0 3 (8 / 3 + 1) "float"]
    /\ Forall (fun size => 0 <= size <= 8 / 3 + 1) (_pSizeEachServer w).
Proof.
  eexists. split; [reflexivity|].
  match goal with |- _ = _ /\ Forall _ (_ ?w) =>
    assert (setup (constant_store (f32 7)) (constant_model (f32 1)) false
              IEEE.dzero AdjustLearningRateatBeginning.None = Returned w)
      as Hnew by reflexivity
  end.
  destruct (Init_table _ _ _ _ _ _ _ _ _ _ Hnew ltac:(bounds) ltac:(bounds)
              ltac:(bounds)) as (Hcalls & _ & _ & Hsizes & _).
  split; [exact Hcalls | exact Hsizes].
Defined.

Lemma PartitionMap_fewer_elements_than_workers_witness :
  PartitionMap 2 3 !! 1%nat = Some (1, 1)
  /\ PartitionMap 2 3 !! 2%nat = Some (2, 0).
Proof.
  split.
  - exact (PartitionMap_fewer_elements_than_workers 2 3 1
             ltac:(lia) ltac:(unfold INT_MAX; lia) ltac:(cbn; lia)).
  - exact (PartitionMap_fewer_elements_than_workers 2 3 2
             ltac:(lia) ltac:(unfold INT_MAX; lia) ltac:(cbn; lia)).
Defined.

Lemma MultiversoWrapper_new_without_tensors_witness :
  exists w,
    MultiversoWrapper_new (constant_store (f32 7)) [] 3 true
      IEEE.dzero IEEE.dzero AdjustLearningRateatBeginning.None
      (IEEE.double_lit 2 10) 600 = Returned w
    /\ _lTotalLength w = 0
    /\ _pSizeEachServer w = [0; 0; 0]
    /\ calls (_adaptor w) = [SetTable 0 3 1 "float"].
Proof.
  destruct (MultiversoWrapper_new_without_tensors (constant_store (f32 7)) 3
              true AdjustLearningRateatBeginning.None (IEEE.double_lit 2 10)
              600 ltac:(unfold INT_MAX; lia))
    as (w & Hnew & _ & Htotal & _ & _ & _ & Hsizes & _ & Hcalls).
  exists w. split; [exact Hnew|]. split; [exact Htotal|].
  split; [exact Hsizes | exact Hcalls].
Defined.

(** ** Rounds in sequence *)

Lemma ModelSync_rounds_counter_and_slot_witness :
  exists w0,
    setup (constant_store (f32 7)) (constant_model (f32 1)) true IEEE.dzero
      AdjustLearningRateatBeginning.Staircase = Returned w0
    /\ let w := ModelSync_rounds (ModelInit w0 (constant_model (f32 1)))
                  [constant_model (f32 5); constant_model (f32 9);
                   constant_model (f32 2)] in
       _commCnt w = 3 /\ _nCacheIdx w = 1
       /\ getUpdateCoefficient w
          = updateCoefficient AdjustLearningRateatBeginning.Staircase
              (IEEE.double_lit 2 10) 600 3.
Proof.
  eexists. split; [reflexivity|].
  match goal with |- context [ModelInit ?w0 _] =>
    assert (setup (constant_store (f32 7)) (constant_model (f32 1)) true
              IEEE.dzero AdjustLearningRateatBeginning.Staircase = Returned w0)
      as Hnew by reflexivity
  end.
  destruct (ModelSync_rounds_counter_and_slot _ _ _ _ _ _ _ _ _ _
              [constant_model (f32 5); constant_model (f32 9);
               constant_model (f32 2)] Hnew) as (Hcount & Hslot & Hfactor).
  cbv zeta. split; [exact Hcount|]. split; [exact Hslot|].
  apply Hfactor. reflexivity.
Defined.

(** The factor of a round with pipeline under the [Linearly] ramp: the
    policy's value at round index 1 when the thread reads the counter at
    once, and at round index 2 when the next [ModelSync] has counted
    first. *)
Lemma ModelSync_calls_witness :
  exists w0,
    setup (constant_store (f32 7)) (constant_model (f32 1)) true IEEE.dzero
      AdjustLearningRateatBeginning.Linearly = Returned w0
    /\ let w := ModelInit w0 (constant_model (f32 1)) in
       let factor :=
         updateCoefficient AdjustLearningRateatBeginning.Linearly
           (IEEE.double_lit 2 10) 600 in
       forall late,
         exists src,
           calls (_adaptor (fst (ModelSync_at w (constant_model (f32 5)) late)))
             !! 6%nat
           = Some (Add 0 0 src (factor (if late then 2 else 1))).
Proof.
  start (constant_store (f32 7)) (constant_model (f32 1)) true IEEE.dzero
    AdjustLearningRateatBeginning.Linearly.
  intros late.
  destruct (ModelSync_calls w (constant_model (f32 5)) late)
    as ((buf & Hcalls & Hpushes & Hrow) & _).
  rewrite Hp, He, Ht, Hco, Hnb, Hcnt in Hcalls, Hpushes, Hrow.
  rewrite Hc in Hpushes, Hrow.
  change (IEEE.le IEEE.dzero IEEE.dzero) with true in Hcalls, Hpushes, Hrow.
  cbv iota in Hcalls, Hpushes, Hrow.
  destruct (Hrow 0%nat ltac:(lia)) as [src Hsrc].
  exists src. rewrite Hcalls.
  assert (length (calls (_adaptor w)) = 6%nat) as Hlen
    by (vm_compute; reflexivity).
  rewrite lookup_app_r by (rewrite Hlen; lia).
  rewrite Hlen. change (6 - 6)%nat with 0%nat.
  rewrite lookup_app_l by (rewrite Hpushes; lia).
  rewrite Hsrc. now destruct late.
Defined.

Lemma no_thread_without_pipeline_witness :
  exists w0,
    setup (constant_store (f32 7)) (constant_model (f32 1)) false IEEE.dzero
      AdjustLearningRateatBeginning.None = Returned w0
    /\ let w := fst (ModelSync (ModelInit w0 (constant_model (f32 1)))
                       (constant_model (f32 5))) in
       _pThread w = not_joinable /\ in_flight w = [].
Proof.
  eexists. split; [reflexivity|].
  match goal with |- context [ModelInit ?w0 _] =>
    assert (setup (constant_store (f32 7)) (constant_model (f32 1)) false
              IEEE.dzero AdjustLearningRateatBeginning.None = Returned w0)
      as Hnew by reflexivity
  end.
  cbv zeta. apply no_thread_without_pipeline; [|reflexivity].
  apply reach_ModelSync, reach_ModelInit. exact (reach_new _ _ _ _ _ _ _ _ _ _ Hnew).
Defined.

Lemma MultiversoWrapper_delete_joins_witness :
  exists w0,
    setup (constant_store (f32 7)) (constant_model (f32 1)) true IEEE.dzero
      AdjustLearningRateatBeginning.None = Returned w0
    /\ let w := fst (ModelSync (ModelInit w0 (constant_model (f32 1)))
                       (constant_model (f32 5))) in
       in_flight w = [started 1]
       /\ in_flight (fst (MultiversoWrapper_delete w)) = []
       /\ NoDup (snd (MultiversoWrapper_delete w)).
Proof.
  eexists. split; [reflexivity|].
  match goal with |- context [ModelInit ?w0 _] =>
    assert (setup (constant_store (f32 7)) (constant_model (f32 1)) true
              IEEE.dzero AdjustLearningRateatBeginning.None = Returned w0)
      as Hnew by reflexivity
  end.
  cbv zeta. split; [reflexivity|].
  match goal with |- context [MultiversoWrapper_delete ?x] =>
    destruct (MultiversoWrapper_delete_joins x) as (Hjoined & _ & _ & Honce & _)
  end.
  - apply reach_ModelSync, reach_ModelInit.
    exact (reach_new _ _ _ _ _ _ _ _ _ _ Hnew).
  - split; [exact Hjoined | exact Honce].
Defined.

Lemma ModelSync_pipelined_baseline_witness :
  exists w0,
    setup (constant_store (f32 7)) (constant_model (f32 1)) true IEEE.dzero
      AdjustLearningRateatBeginning.None = Returned w0
    /\ let w := ModelInit w0 (constant_model (f32 1)) in
       let w1 := fst (ModelSync w (constant_model (f32 5))) in
       let w2 := fst (ModelSync w1 (constant_model (f32 9))) in
       let w3 := fst (ModelSync w2 (constant_model (f32 10))) in
       payload w (_pDelta w2) = replicate 8 (f32 8)
       /\ payload w (_pDelta w3) = replicate 8 (f32 3).
Proof.
  start (constant_store (f32 7)) (constant_model (f32 1)) true IEEE.dzero
    AdjustLearningRateatBeginning.None.
  assert (matches w (constant_model (f32 5))) as Hm5 by same_shape Hm.
  assert (matches w (constant_model (f32 9))) as Hm9 by same_shape Hm.
  assert (matches w (constant_model (f32 10))) as Hm10 by same_shape Hm.
  destruct (ModelSync_pipelined_baseline w (constant_model (f32 5))
              (constant_model (f32 9)) (constant_model (f32 10))
              Hwf Hdev Hm5 Hm9 Hm10 Hp ltac:(rewrite He; reflexivity))
    as (_ & _ & _ & _ & Hsecond & Hthird).
  split.
  - rewrite Hsecond. vm_compute. reflexivity.
  - rewrite Hthird. vm_compute. reflexivity.
Defined.

Lemma ModelLoadServer_twice_ModelLoadBack_witness :
  exists w0,
    setup (constant_store (f32 7)) (constant_model (f32 1)) false IEEE.dzero
      AdjustLearningRateatBeginning.None = Returned w0
    /\ let w := ModelInit w0 (constant_model (f32 1)) in
       let first := ModelLoadServer w (constant_model (f32 5)) in
       let second := ModelLoadServer (fst first) (snd first) in
       snd (ModelLoadBack (fst second) (snd second))
       = constant_model (f32 7).
Proof.
  start (constant_store (f32 7)) (constant_model (f32 1)) false IEEE.dzero
    AdjustLearningRateatBeginning.None.
  assert (matches w (constant_model (f32 5))) as Hm5 by same_shape Hm.
  destruct (ModelLoadServer_twice_ModelLoadBack w (constant_model (f32 5))
              Hwf Hm5) as (Hfirst & _ & Hback & _).
  rewrite Hback, Hfirst. vm_compute. reflexivity.
Defined.

Lemma ModelLoadServer_ModelLoadBack_then_ModelSync_witness :
  exists w0,
    setup (constant_store (f32 7)) (constant_model (f32 1)) true IEEE.dzero
      AdjustLearningRateatBeginning.None = Returned w0
    /\ let w := ModelInit w0 (constant_model (f32 1)) in
       let loaded := ModelLoadServer w (constant_model (f32 5)) in
       let back := ModelLoadBack (fst loaded) (snd loaded) in
       _pDelta (fst (ModelSync (fst back) (constant_model (f32 5))))
       = _pDelta (fst (ModelSync w (constant_model (f32 5)))).
Proof.
  start (constant_store (f32 7)) (constant_model (f32 1)) true IEEE.dzero
    AdjustLearningRateatBeginning.None.
  assert (matches w (constant_model (f32 5))) as Hm5 by same_shape Hm.
  destruct (ModelLoadServer_ModelLoadBack_then_ModelSync w
              (constant_model (f32 5)) (constant_model (f32 5))
              Hwf (fun _ => Hdev) Hm5 Hm5 ltac:(rewrite He; reflexivity))
    as (Hsame & _).
  exact Hsame.
Defined.

Lemma ModelSync_keeps_sizes_witness :
  exists w0,
    setup (constant_store (f32 2)) (constant_model (f32 1)) true
      (IEEE.double_lit 5 10) AdjustLearningRateatBeginning.None = Returned w0
    /\ let w := ModelInit w0 (constant_model (f32 1)) in
       let w' := fst (ModelSync w (constant_model (f32 5))) in
       length (_pDelta w') = 9%nat
       /\ drop 8 (_pDelta w') = drop 8 (_pDelta w)
       /\ length (slot (_pPCache w') 1) = 9%nat.
Proof.
  start (constant_store (f32 2)) (constant_model (f32 1)) true
    (IEEE.double_lit 5 10) AdjustLearningRateatBeginning.None.
  assert (matches w (constant_model (f32 5))) as Hm5 by same_shape Hm.
  destruct (ModelSync_keeps_sizes w (constant_model (f32 5)) Hwf
              (fun _ => Hdev) Hm5) as (_ & Hlen & Hlast & _ & Hslots).
  split; [exact Hlen|]. split; [exact Hlast|].
  destruct (Hslots 1%nat) as [Hslot _]; [|exact Hslot].
  rewrite (wf_slots w Hwf), (wf_nslots w Hwf), Hp. cbn. lia.
Defined.

Lemma ModelSync_rounds_keep_the_arrays_witness :
  exists w0,
    setup (constant_store (f32 7)) (constant_model (f32 1)) true IEEE.dzero
      AdjustLearningRateatBeginning.None = Returned w0
    /\ let w := ModelSync_rounds (ModelInit w0 (constant_model (f32 1)))
                  [constant_model (f32 5); constant_model (f32 9);
                   constant_model (f32 2)] in
       length (_pDelta w) = 9%nat
       /\ Forall (fun cache => length cache = 9%nat) (_pPCache w)
       /\ (length (in_flight w) <= 1)%nat.
Proof.
  eexists. split; [reflexivity|].
  match goal with |- context [ModelInit ?w0 _] =>
    assert (setup (constant_store (f32 7)) (constant_model (f32 1)) true
              IEEE.dzero AdjustLearningRateatBeginning.None = Returned w0)
      as Hnew by reflexivity
  end.
  destruct (ModelSync_rounds_keep_the_arrays _ _ _ _ _ _ _ _ _ _
              [constant_model (f32 5); constant_model (f32 9);
               constant_model (f32 2)] Hnew ltac:(bounds) ltac:(bounds)
              ltac:(bounds))
    as (_ & Hdelta & _ & _ & _ & Hslots & _ & _ & _ & Hone).
  - repeat constructor.
  - cbv zeta. split; [exact Hdelta|]. split; [exact Hslots | exact Hone].
Defined.
End Worked.

(** ** The configuration check *)

Lemma MultiversoWrapper_new_exclusivity_witness :
  let new := fun momentumAdd elasticAdd =>
    MultiversoWrapper_new (constant_store (f32 7)) (constant_model (f32 1))
      3 false momentumAdd elasticAdd AdjustLearningRateatBeginning.None
      (IEEE.double_lit 2 10) 600 in
  new (IEEE.double_lit 3 10) (IEEE.double_lit 5 10)
  = InvalidArgument Please_choose
  /\ exists w, new IEEE.dzero (IEEE.double_lit 5 10) = Returned w.
Proof.
  cbv zeta.
  destruct (MultiversoWrapper_new_exclusivity
              (constant_store (f32 7)) (constant_model (f32 1)) 3 false
              AdjustLearningRateatBeginning.None (IEEE.double_lit 2 10) 600)
    as (_ & Hboth & Hone & _).
  split.
  - apply Hboth; reflexivity.
  - apply Hone; reflexivity.
Defined.

(** ** The ramp *)

Lemma updateCoefficient_monotone_witness :
  let a := IEEE.double_lit 2 10 in
  let Linearly :=
    updateCoefficient AdjustLearningRateatBeginning.Linearly a 600 in
  let Staircase :=
    updateCoefficient AdjustLearningRateatBeginning.Staircase a 600 in
  IEEE.le (Linearly 3) (Linearly 700) = true
  /\ IEEE.le (IEEE.float_of_double a) (Linearly 3) = true
  /\ IEEE.le (Linearly 3) IEEE.fone = true
  /\ IEEE.le (Staircase 3) (Staircase 700) = true.
Proof.
  cbv zeta.
  destruct (updateCoefficient_monotone (IEEE.double_lit 2 10) 600 3 700
              eq_refl eq_refl ltac:(unfold size_t_modulus; lia) ltac:(lia)
              ltac:(unfold size_t_modulus; lia)) as (HL & HS & _).
  destruct (HL eq_refl) as (H1 & H2 & H3).
  destruct (HS ltac:(vm_compute; reflexivity)) as (H4 & _).
  exact (conj H1 (conj H2 (conj H3 H4))).
Defined.

(** Against C7 as stated: with [adjustCoefficient = 2] and
    [rampRounds = 1] the [Linearly] factor is 1 at round 1 and 0 at
    round 2, below the one before it and below [adjustCoefficient]; and
    with [adjustCoefficient = 0.7], inside [[0, 1]], the factor at round 0
    is [(float) 0.7], which is less than the [double] 0.7. *)
Lemma Linearly_decreases_above_one :
  let Linearly a :=
    updateCoefficient AdjustLearningRateatBeginning.Linearly a in
  Linearly (IEEE.double_of_Z 2) 1 1 = IEEE.fone
  /\ Linearly (IEEE.double_of_Z 2) 1 2 = IEEE.fzero
  /\ IEEE.le (Linearly (IEEE.double_of_Z 2) 1 1)
             (Linearly (IEEE.double_of_Z 2) 1 2) = false
  /\ IEEE.lt (IEEE.double_of_float (Linearly (IEEE.double_of_Z 2) 1 2))
             (IEEE.double_of_Z 2) = true
  /\ IEEE.lt (IEEE.double_of_float (Linearly (IEEE.double_lit 7 10) 10 0))
             (IEEE.double_lit 7 10) = true.
Proof. vm_compute. repeat split. Qed.
